(** * Scheduling simulator (Main.c): a shallow embedding and its properties

    The simulator of [Main.c] runs four scheduling policies (FIFO,
    non-preemptive SJF, Round-Robin and a three level MLFQ) over a table of
    processes, each described by a CPU demand and a list of I/O events keyed
    to the CPU consumed so far.

    Modelling conventions.
    - A C [double] is an exact rational ([Q]): additions, subtractions and
      comparisons are the mathematical ones, so no rounding takes place.
      Equality of numbers is [Qeq] (written [==]).  The machine rounds every
      operation, so two numbers the program computes along different paths
      agree there only up to a rounding error: the properties compare such
      numbers by an order or a tolerance ([EPS], [up_to_rounding]), never by
      an identity that rounding breaks.  [Binary64.eat_cpu] is [eat_cpu] on
      binary64 numbers, where such an identity can be seen to fail.
    - An [int] used as an index or a counter ([next_io_index], [qstart],
      [qend], queue sizes) is a [nat]; none of them can reach [INT_MAX] in a
      run over a scenario table.  The integers read from the command line
      are in [Z].
    - [io_events] together with [io_count] is a list; [io_count] is its
      length.
    - A [Process *] into the cloned array [procs] is the index of the cell,
      and the array is a list updated in place.
    - A [while] loop takes a fuel argument; running out of fuel, and a write
      past the end of a [malloc]ed buffer, are results of their own.
    - [qsort] and [atoi] belong to the C library: the functions that call
      them take them as arguments, and the properties hold for every
      [qsort] that sorts and for every [atoi].
    - The literal [1e-9] written in two tests has the value of [EPS] and is
      written [EPS].
    - An array of results is a list; a read past its end is a result of its
      own, as a write is.  The [int] [run_count] divides a [double] as the
      rational of the same value. *)

From Stdlib Require Import QArith Qabs Qround Qminmax Lqa Lia String.
From Stdlib Require Import Floats.PrimFloat.
From Stdlib Require Import Sorting.Permutation Sorting.Sorted.
From stdpp Require Import base list relations.

Local Open Scope Q_scope.

(** ** Constants *)

Definition QUANTUM : Q := 1 # 2.
Definition EPS : Q := 1 # 1000000000.

(** The literal [1e-6] of the I/O test in [eat_cpu]. *)
Definition IO_TOL : Q := 1 # 1000000.

(** [a < b] on doubles, as a boolean. *)
Definition Qltb (a b : Q) : bool := negb (Qle_bool b a).

(** ** Types *)

Record IOEvent := mkIOEvent {
  when_cpu : Q;   (* CPU consumed at which IO starts *)
  duration : Q    (* IO duration (blocked time) *)
}.

Record Process := mkProcess {
  name : string;
  total_cpu_needed : Q;
  io_events : list IOEvent;
  remaining : Q;
  cpu_consumed : Q;
  blocked_time : Q;
  first_run_time : Q;   (* -1 if not yet run *)
  finish_time : Q;      (* -1 if not finished *)
  next_io_index : nat
}.

Definition io_count (p : Process) : nat := length (io_events p).

Record Result := mkResult {
  res_name : string;
  Elapsed : Q;
  CPU : Q;
  BLOCKED : Q;
  FirstRun : Q
}.

(** Field assignments. *)

Definition set_cpu (p : Process) (rem cpu : Q) : Process :=
  mkProcess (name p) (total_cpu_needed p) (io_events p) rem cpu
    (blocked_time p) (first_run_time p) (finish_time p) (next_io_index p).

Definition set_io (p : Process) (blk : Q) (idx : nat) : Process :=
  mkProcess (name p) (total_cpu_needed p) (io_events p) (remaining p)
    (cpu_consumed p) blk (first_run_time p) (finish_time p) idx.

Definition set_first_run_time (p : Process) (t : Q) : Process :=
  mkProcess (name p) (total_cpu_needed p) (io_events p) (remaining p)
    (cpu_consumed p) (blocked_time p) t (finish_time p) (next_io_index p).

Definition set_finish_time (p : Process) (t : Q) : Process :=
  mkProcess (name p) (total_cpu_needed p) (io_events p) (remaining p)
    (cpu_consumed p) (blocked_time p) (first_run_time p) t (next_io_index p).

Definition set_res_name (r : Result) (s : string) : Result :=
  mkResult s (Elapsed r) (CPU r) (BLOCKED r) (FirstRun r).

(** ** Utility functions *)

(** [clone_processes]: copy every definition and reset its runtime state. *)
Definition clone_process (src : Process) : Process :=
  mkProcess (name src) (total_cpu_needed src) (io_events src)
    (total_cpu_needed src) 0 0 (-1) (-1) 0%nat.

Definition clone_processes (src : list Process) : list Process :=
  map clone_process src.

(** [eat_cpu p dt]: the process after the call, [*taken] and [*io_dur]
    ([-1] when no I/O took place). *)
Definition eat_cpu (p : Process) (dt : Q) : Process * Q * Q :=
  match io_events p !! next_io_index p with
  | Some ev =>
      let cpu_until_io := when_cpu ev - cpu_consumed p in
      if Qle_bool cpu_until_io EPS then
        (set_io p (blocked_time p + duration ev) (S (next_io_index p)),
         0, duration ev)
      else
        let take := dt in
        let take := if Qltb cpu_until_io take then cpu_until_io else take in
        let take := if Qltb (remaining p) take then remaining p else take in
        let p := set_cpu p (remaining p - take) (cpu_consumed p + take) in
        if Qltb (Qabs (cpu_consumed p - when_cpu ev)) IO_TOL
           || Qltb (when_cpu ev - EPS) (cpu_consumed p)
        then
          (set_io p (blocked_time p + duration ev) (S (next_io_index p)),
           take, duration ev)
        else (p, take, -1)
  | None =>
      let take := dt in
      let take := if Qltb (remaining p) take then remaining p else take in
      (set_cpu p (remaining p - take) (cpu_consumed p + take), take, -1)
  end.

Definition is_done (p : Process) : bool := Qle_bool (remaining p) EPS.

Definition fill_result (r : Result) (p : Process) : Result :=
  mkResult (res_name r)
    (if Qltb (finish_time p) 0 then 0 else finish_time p)
    (cpu_consumed p)
    (blocked_time p)
    (if Qltb (first_run_time p) 0 then 0 else first_run_time p).

(** The cell of the result array before it is written. *)
Definition blank_result : Result := mkResult EmptyString 0 0 0 0.

(** [fill_result(&res[k], p); strcpy(res[k].name, p->name)]. *)
Definition emit (p : Process) : Result :=
  set_res_name (fill_result blank_result p) (name p).

(** ** Scenarios *)

(** A definition as the scenario tables build it: the runtime fields are not
    written there; [clone_processes] overwrites them before any use. *)
Definition mkdef (n : string) (total : Q) (evs : list IOEvent) : Process :=
  mkProcess n total evs 0 0 0 0 0 0%nat.

Definition make_scenario1 : list Process :=
  [ mkdef "A" 10 []; mkdef "B" 15 []; mkdef "C" 20 [] ].

Definition make_scenario2 : list Process :=
  [ mkdef "A" 5 []; mkdef "B" 10 []; mkdef "C" 4 [];
    mkdef "D" 2 []; mkdef "E" 3 []; mkdef "F" 15 [] ].

Definition make_scenario3 : list Process :=
  [ mkdef "A" 5 [mkIOEvent 1 (1#2); mkIOEvent 3 (7#10)];
    mkdef "B" 5 [mkIOEvent 2 (4#10)];
    mkdef "C" 5 [mkIOEvent (1#2) (2#10); mkIOEvent (5#2) 1] ].

Definition make_scenario4 : list Process :=
  [ mkdef "A" 6 [mkIOEvent (12#10) (6#10); mkIOEvent 4 (8#10)];
    mkdef "B" 6 [mkIOEvent (35#10) (5#10)];
    mkdef "C" 6 [mkIOEvent (8#10) (3#10); mkIOEvent 2 (4#10);
                 mkIOEvent (45#10) (6#10)] ].

(** [make_scenario]: [None] is the [NULL] of an unknown scenario. *)
Definition make_scenario (scen : Z) : option (list Process) :=
  if (scen =? 1)%Z then Some make_scenario1
  else if (scen =? 2)%Z then Some make_scenario2
  else if (scen =? 3)%Z then Some make_scenario3
  else if (scen =? 4)%Z then Some make_scenario4
  else None.

(** ** Results of a run *)

Inductive outcome (A : Type) : Type :=
| Ok (a : A)        (* the call returned *)
| OutOfFuel         (* the loop was cut by the fuel of the model *)
| OutOfBounds.      (* a write outside an allocated array *)

Arguments Ok {A} a.
Arguments OutOfFuel {A}.
Arguments OutOfBounds {A}.

#[global] Instance outcome_bind : MBind outcome := fun A B k m =>
  match m with
  | Ok a => k a
  | OutOfFuel => OutOfFuel
  | OutOfBounds => OutOfBounds
  end.

(** [t += taken; if (io_dur >= 0.0) t += io_dur;] *)
Definition advance (t taken io_dur : Q) : Q :=
  let t := t + taken in
  if Qle_bool 0 io_dur then t + io_dur else t.

(** [if (p->first_run_time < 0) p->first_run_time = t;] *)
Definition mark_first_run (p : Process) (t : Q) : Process :=
  if Qltb (first_run_time p) 0 then set_first_run_time p t else p.

(** ** FIFO *)

(** The [while (!is_done(p))] loop of [run_fifo]. *)
Fixpoint fifo_while (fuel : nat) (p : Process) (t : Q) : outcome (Process * Q) :=
  if is_done p then Ok (p, t)
  else
    match fuel with
    | O => OutOfFuel
    | S fuel =>
        let '(p, taken, io_dur) := eat_cpu p (remaining p) in
        fifo_while fuel p (advance t taken io_dur)
    end.

(** The [for] loop of [run_fifo] from cell [i] on: the cells as they are
    left, the results appended, and the clock. *)
Fixpoint fifo_for (fuel : nat) (procs : list Process) (t : Q)
  : outcome (list Process * list Result * Q) :=
  match procs with
  | [] => Ok ([], [], t)
  | p :: rest =>
      let p := mark_first_run p t in
      '(p, t) ← fifo_while fuel p t;
      let p := set_finish_time p t in
      '(rest, res, t) ← fifo_for fuel rest t;
      Ok (p :: rest, emit p :: res, t)
  end.

(** [run_fifo]: the cloned array at the end of the run (before it is freed)
    and the result array. *)
Definition run_fifo (fuel : nat) (orig : list Process)
  : outcome (list Process * list Result) :=
  '(procs, res, _) ← fifo_for fuel (clone_processes orig) 0;
  Ok (procs, res).

(** ** Non-preemptive SJF *)

Definition cmp_total_cpu (pa pb : Process) : Z :=
  if Qltb (total_cpu_needed pa) (total_cpu_needed pb) then (-1)%Z
  else if Qltb (total_cpu_needed pb) (total_cpu_needed pa) then 1%Z
  else 0%Z.

(** [qsort] is the C library's: it is given the comparison and the array and
    returns the array rearranged. *)
Definition sorter : Type := (Process -> Process -> Z) -> list Process -> list Process.

(** What the C standard asks of [qsort] when it is called with
    [cmp_total_cpu]: the cells are permuted, in ascending order of the
    comparison.  The order of cells that compare equal is left open. *)
Definition qsort_contract (qsort : sorter) : Prop :=
  forall l : list Process,
    Permutation (qsort cmp_total_cpu l) l /\
    StronglySorted (fun a b => (cmp_total_cpu a b <= 0)%Z) (qsort cmp_total_cpu l).

(** The [while] and [for] loops of [run_sjf]. *)
Fixpoint sjf_while (fuel : nat) (p : Process) (t : Q) : outcome (Process * Q) :=
  if is_done p then Ok (p, t)
  else
    match fuel with
    | O => OutOfFuel
    | S fuel =>
        let '(p, taken, io_dur) := eat_cpu p (remaining p) in
        sjf_while fuel p (advance t taken io_dur)
    end.

Fixpoint sjf_for (fuel : nat) (procs : list Process) (t : Q)
  : outcome (list Process * list Result * Q) :=
  match procs with
  | [] => Ok ([], [], t)
  | p :: rest =>
      let p := mark_first_run p t in
      '(p, t) ← sjf_while fuel p t;
      let p := set_finish_time p t in
      '(rest, res, t) ← sjf_for fuel rest t;
      Ok (p :: rest, emit p :: res, t)
  end.

Definition run_sjf (qsort : sorter) (fuel : nat) (orig : list Process)
  : outcome (list Process * list Result) :=
  let procs := clone_processes orig in
  let procs := qsort cmp_total_cpu procs in
  '(procs, res, _) ← sjf_for fuel procs 0;
  Ok (procs, res).

(** ** Round-Robin *)

Record rr_state := mkRR {
  rr_procs : list Process;   (* procs[0 .. n-1] *)
  rr_cap : nat;              (* number of cells allocated to queue *)
  rr_queue : list nat;       (* queue[0 .. qend-1]: the cells written *)
  rr_qstart : nat;
  rr_res : list Result;      (* res[0 .. res_idx-1] *)
  rr_t : Q
}.

Definition rr_qend (s : rr_state) : nat := length (rr_queue s).

(** The cells between [qstart] and [qend]: the queue proper. *)
Definition rr_waiting (s : rr_state) : list nat := drop (rr_qstart s) (rr_queue s).

(** The state before the [while] loop. *)
Definition rr_init (orig : list Process) : rr_state :=
  let n := length orig in
  mkRR (clone_processes orig) (n * 2) (seq 0 n) 0 [] 0.

(** One turn of the [while (qstart < qend)] loop. *)
Definition rr_body (s : rr_state) : outcome rr_state :=
  match rr_queue s !! rr_qstart s with
  | None => OutOfBounds
  | Some i =>
      match rr_procs s !! i with
      | None => OutOfBounds
      | Some p =>
          let p := mark_first_run p (rr_t s) in
          let '(p, taken, io_dur) := eat_cpu p QUANTUM in
          let t := advance (rr_t s) taken io_dur in
          if negb (is_done p) then
            (* re-enqueue *)
            if (rr_qend s <? rr_cap s)%nat then
              Ok (mkRR (<[i:=p]> (rr_procs s)) (rr_cap s) (rr_queue s ++ [i])
                    (S (rr_qstart s)) (rr_res s) t)
            else OutOfBounds
          else
            let p := set_finish_time p t in
            Ok (mkRR (<[i:=p]> (rr_procs s)) (rr_cap s) (rr_queue s)
                  (S (rr_qstart s)) (rr_res s ++ [emit p]) t)
      end
  end.

Fixpoint rr_while (fuel : nat) (s : rr_state) : outcome rr_state :=
  if (rr_qstart s <? rr_qend s)%nat then
    match fuel with
    | O => OutOfFuel
    | S fuel => s ← rr_body s; rr_while fuel s
    end
  else Ok s.

Definition run_rr (fuel : nat) (orig : list Process)
  : outcome (list Process * list Result) :=
  s ← rr_while fuel (rr_init orig);
  Ok (rr_procs s, rr_res s).

(** ** MLFQ *)

Definition LEVELS : nat := 3.

(** The buffer of a level is enlarged by [realloc] before a write that would
    not fit, so its cells [queues[l][0 .. qsize[l]-1]] are a list. *)
Record mlfq_state := mkMLFQ {
  mq_procs : list Process;
  mq_queues : list (list nat);
  mq_res : list Result;
  mq_t : Q
}.

Definition mlfq_init (orig : list Process) : mlfq_state :=
  mkMLFQ (clone_processes orig)
    (seq 0 (length orig) :: replicate (LEVELS - 1) []) [] 0.

(** [for (i = 0; i < LEVELS; ++i) if (qsize[i] > 0) { qidx = i; break; }],
    scanning from level [i]. *)
Fixpoint first_nonempty (qs : list (list nat)) (i : nat) : option nat :=
  match qs with
  | [] => None
  | q :: qs => if (0 <? length q)%nat then Some i else first_nonempty qs (S i)
  end.

(** The level a process is sent back to: the test on [taken] and on [qidx]. *)
Definition used_quantum (taken : Q) : bool :=
  Qltb (Qabs (taken - QUANTUM)) EPS || Qltb (QUANTUM - EPS) taken.

Definition next_level (qidx : nat) (taken : Q) : nat :=
  let new_q := qidx in
  if used_quantum taken then
    if (qidx <? LEVELS - 1)%nat then (qidx + 1)%nat else new_q
  else qidx.

(** One turn of the [while (1)] loop, for the level [qidx] found. *)
Definition mlfq_body (qidx : nat) (s : mlfq_state) : outcome mlfq_state :=
  match mq_queues s !! qidx with
  | Some (i :: q) =>
      let queues := <[qidx:=q]> (mq_queues s) in
      match mq_procs s !! i with
      | None => OutOfBounds
      | Some p =>
          let p := mark_first_run p (mq_t s) in
          let '(p, taken, io_dur) := eat_cpu p QUANTUM in
          let t := advance (mq_t s) taken io_dur in
          if is_done p then
            let p := set_finish_time p t in
            Ok (mkMLFQ (<[i:=p]> (mq_procs s)) queues (mq_res s ++ [emit p]) t)
          else
            let new_q := next_level qidx taken in
            Ok (mkMLFQ (<[i:=p]> (mq_procs s))
                  (alter (fun q => q ++ [i]) new_q queues) (mq_res s) t)
      end
  | _ => OutOfBounds
  end.

Fixpoint mlfq_while (fuel : nat) (s : mlfq_state) : outcome mlfq_state :=
  match first_nonempty (mq_queues s) 0 with
  | None => Ok s
  | Some qidx =>
      match fuel with
      | O => OutOfFuel
      | S fuel => s ← mlfq_body qidx s; mlfq_while fuel s
      end
  end.

Definition run_mlfq (fuel : nat) (orig : list Process)
  : outcome (list Process * list Result) :=
  s ← mlfq_while fuel (mlfq_init orig);
  Ok (mq_procs s, mq_res s).

(** ** Command line *)

Section Main.

(** [atoi] and [qsort] are the C library's. *)
Variable atoi : string -> Z.
Variable qsort : sorter.

(** The value of [repeat] when the runs start. *)
Definition main_repeat (argv : list string) : Z :=
  let repeat := 3%Z in
  let repeat :=
    if (4 <=? length argv)%nat
    then match argv !! 3%nat with Some a => atoi a | None => repeat end
    else repeat in
  if (repeat <? 1)%Z then 1%Z else repeat.

(** The [for (r = 0; r < repeat; ++r)] loop with [todo] turns left: the
    exit code when it returns from inside, and the runs made. *)
Fixpoint main_runs (fuel : nat) (alg : string) (base : list Process)
    (todo : nat) (runs : list (list Result))
  : outcome (option Z * list (list Result)) :=
  match todo with
  | O => Ok (None, runs)
  | S todo =>
      if String.eqb alg "fifo" then
        '(_, res) ← run_fifo fuel base;
        main_runs fuel alg base todo (runs ++ [res])
      else if String.eqb alg "sjf" then
        '(_, res) ← run_sjf qsort fuel base;
        main_runs fuel alg base todo (runs ++ [res])
      else if String.eqb alg "rr" then
        '(_, res) ← run_rr fuel base;
        main_runs fuel alg base todo (runs ++ [res])
      else if String.eqb alg "mlfq" then
        '(_, res) ← run_mlfq fuel base;
        main_runs fuel alg base todo (runs ++ [res])
      else Ok (Some 1%Z, runs)
  end.

(** [main]: the exit code and the runs made ([argv] includes the program
    name; the table printed at the end is not part of the model). *)
Definition main (fuel : nat) (argv : list string)
  : outcome (Z * list (list Result)) :=
  if (length argv <? 3)%nat then Ok (1%Z, [])
  else
    match argv !! 1%nat, argv !! 2%nat with
    | Some alg, Some a2 =>
        let scenario := atoi a2 in
        let repeat := main_repeat argv in
        match make_scenario scenario with
        | None => Ok (1%Z, [])
        | Some base =>
            '(code, runs) ← main_runs fuel alg base (Z.to_nat repeat) [];
            match code with
            | Some c => Ok (c, runs)
            | None => Ok (0%Z, runs)
            end
        end
    | _, _ => OutOfBounds
    end.

End Main.

(** ** Averages *)

(** [for (j = 0; j < proc_count; ++j) if (strcmp(run[j].name, nm) == 0)
    { found = j; break; }], from cell [j] with [todo] cells left. *)
Fixpoint find_name (run : list Result) (nm : string) (j todo : nat)
  : outcome (option nat) :=
  match todo with
  | O => Ok None
  | S todo =>
      match run !! j with
      | None => OutOfBounds
      | Some r =>
          if String.eqb (res_name r) nm then Ok (Some j)
          else find_name run nm (S j) todo
      end
  end.

Definition add_result (a r : Result) : Result :=
  mkResult (res_name a) (Elapsed a + Elapsed r) (CPU a + CPU r)
    (BLOCKED a + BLOCKED r) (FirstRun a + FirstRun r).

(** The body of the loop over [i], for the cell [a] of [avg] and the run
    [r]. *)
Definition accumulate_cell (runs : list (list Result)) (r proc_count : nat)
    (a : Result) : outcome Result :=
  match runs !! r with
  | None => OutOfBounds
  | Some run =>
      found ← find_name run (res_name a) 0 proc_count;
      match found with
      | Some j =>
          match run !! j with
          | Some x => Ok (add_result a x)
          | None => OutOfBounds
          end
      | None => Ok a
      end
  end.

(** The loop over [i]: every cell of [avg] in turn. *)
Fixpoint accumulate_run (runs : list (list Result)) (r proc_count : nat)
    (avg : list Result) : outcome (list Result) :=
  match avg with
  | [] => Ok []
  | a :: avg =>
      a ← accumulate_cell runs r proc_count a;
      avg ← accumulate_run runs r proc_count avg;
      Ok (a :: avg)
  end.

(** The loop over [r], from run [r] with [todo] runs left. *)
Fixpoint accumulate_runs (runs : list (list Result)) (proc_count r todo : nat)
    (avg : list Result) : outcome (list Result) :=
  match todo with
  | O => Ok avg
  | S todo =>
      avg ← accumulate_run runs r proc_count avg;
      accumulate_runs runs proc_count (S r) todo avg
  end.

(** [avg[i] = runs[0][i]] for [i < proc_count]. *)
Definition accumulate_init (runs : list (list Result)) (proc_count : nat)
  : outcome (list Result) :=
  match proc_count with
  | O => Ok []
  | _ =>
      match runs !! 0%nat with
      | None => OutOfBounds
      | Some run0 =>
          if (proc_count <=? length run0)%nat then Ok (take proc_count run0)
          else OutOfBounds
      end
  end.

Definition divide_result (run_count : nat) (a : Result) : Result :=
  let k := inject_Z (Z.of_nat run_count) in
  mkResult (res_name a) (Elapsed a / k) (CPU a / k) (BLOCKED a / k)
    (FirstRun a / k).

(** [runs] is an array of [run_count] pointers; with no run there is no
    [runs[0]], and with one the divisor is not 0. *)
Definition accumulate_results (runs : list (list Result))
    (run_count proc_count : nat) : outcome (list Result) :=
  let runs := take run_count runs in
  avg ← accumulate_init runs proc_count;
  avg ← accumulate_runs runs proc_count 1 (run_count - 1) avg;
  Ok (map (divide_result run_count) avg).

(** ** The table handed to [print_results] *)

Section MainTable.

Variable atoi : string -> Z.
Variable qsort : sorter.

(** [main] up to the call of [print_results]: the table [avg] handed to it,
    [None] when [main] returns before. *)
Definition main_table (fuel : nat) (argv : list string)
  : outcome (option (list Result)) :=
  if (length argv <? 3)%nat then Ok None
  else
    match argv !! 1%nat, argv !! 2%nat with
    | Some alg, Some a2 =>
        let scenario := atoi a2 in
        let repeat := main_repeat atoi argv in
        match make_scenario scenario with
        | None => Ok None
        | Some base =>
            '(code, runs) ← main_runs qsort fuel alg base (Z.to_nat repeat) [];
            match code with
            | Some _ => Ok None
            | None =>
                let proc_count :=
                  match last runs with Some res => length res | None => 0%nat end in
                avg ← accumulate_results runs (Z.to_nat repeat) proc_count;
                Ok (Some avg)
            end
        end
    | _, _ => OutOfBounds
    end.

End MainTable.

(** ** The consumption step on the machine's doubles *)

(** [eat_cpu] and what it needs once more, every [double] a binary64 number
    and every operation the rounded one: the model in which an identity that
    exact arithmetic keeps can be seen to fail. *)
Module Binary64.

#[local] Set Warnings "-inexact-float".
Local Open Scope float_scope.

Definition EPS : float := 1e-9.

Record IOEvent := mkIOEvent {
  when_cpu : float;
  duration : float
}.

Record Process := mkProcess {
  name : string;
  total_cpu_needed : float;
  io_events : list IOEvent;
  remaining : float;
  cpu_consumed : float;
  blocked_time : float;
  first_run_time : float;
  finish_time : float;
  next_io_index : nat
}.

Definition set_cpu (p : Process) (rem cpu : float) : Process :=
  mkProcess (name p) (total_cpu_needed p) (io_events p) rem cpu
    (blocked_time p) (first_run_time p) (finish_time p) (next_io_index p).

Definition set_io (p : Process) (blk : float) (idx : nat) : Process :=
  mkProcess (name p) (total_cpu_needed p) (io_events p) (remaining p)
    (cpu_consumed p) blk (first_run_time p) (finish_time p) idx.

Definition clone_process (src : Process) : Process :=
  mkProcess (name src) (total_cpu_needed src) (io_events src)
    (total_cpu_needed src) 0 0 (-1) (-1) 0%nat.

Definition eat_cpu (p : Process) (dt : float) : Process * float * float :=
  match io_events p !! next_io_index p with
  | Some ev =>
      let cpu_until_io := when_cpu ev - cpu_consumed p in
      if cpu_until_io <=? EPS then
        (set_io p (blocked_time p + duration ev) (S (next_io_index p)),
         0, duration ev)
      else
        let take := dt in
        let take := if cpu_until_io <? take then cpu_until_io else take in
        let take := if remaining p <? take then remaining p else take in
        let p := set_cpu p (remaining p - take) (cpu_consumed p + take) in
        if orb (abs (cpu_consumed p - when_cpu ev) <? 1e-6)
               (when_cpu ev - 1e-9 <? cpu_consumed p)
        then
          (set_io p (blocked_time p + duration ev) (S (next_io_index p)),
           take, duration ev)
        else (p, take, -1)
  | None =>
      let take := dt in
      let take := if remaining p <? take then remaining p else take in
      (set_cpu p (remaining p - take) (cpu_consumed p + take), take, -1)
  end.

(** A process of demand 0.9 with one event at 0.3, as [clone_processes]
    leaves it. *)
Definition rounding_process : Process :=
  clone_process (mkProcess "P" 0.9 [mkIOEvent 0.3 0.1] 0 0 0 0 0 0%nat).

(** The process after the first call of FIFO, [eat_cpu(p, p->remaining)],
    and after the second. *)
Definition rounding_step1 : Process :=
  (eat_cpu rounding_process (remaining rounding_process)).1.1.

Definition rounding_step2 : Process :=
  (eat_cpu rounding_step1 (remaining rounding_step1)).1.1.

End Binary64.

(** * Vocabulary of the properties *)

(** ** Scenarios and process states *)

(** A process definition of the data model: a positive demand, thresholds
    strictly increasing and within the demand. *)
Definition valid_definition (d : Process) : Prop :=
  0 < total_cpu_needed d /\
  Sorted (fun a b => when_cpu a < when_cpu b) (io_events d) /\
  Forall (fun ev => when_cpu ev <= total_cpu_needed d) (io_events d).

Definition valid_scenario (ds : list Process) : Prop :=
  Forall valid_definition ds.

(** The invariant tying [remaining] to [cpu_consumed]. *)
Definition proc_inv (p : Process) : Prop :=
  0 <= remaining p /\ remaining p == total_cpu_needed p - cpu_consumed p.

(** The same invariant as the machine keeps it: two separately rounded
    updates leave [remaining] and [total_cpu_needed - cpu_consumed] apart by
    a rounding error, small against the demand. *)
Definition balanced (p : Process) : Prop :=
  Qabs (remaining p - (total_cpu_needed p - cpu_consumed p))
  <= EPS * (1 + total_cpu_needed p).

(** [p] is a runtime state of the definition [d]. *)
Definition same_definition (d p : Process) : Prop :=
  name p = name d /\ total_cpu_needed p = total_cpu_needed d /\
  io_events p = io_events d.

(** A process as a policy leaves it once it is done. *)
Definition completed (p : Process) : Prop :=
  proc_inv p /\ remaining p <= EPS /\
  0 <= first_run_time p /\ first_run_time p <= finish_time p.

(** [p] is the completed state of the definition [d]: its demand is met up
    to [EPS]. *)
Definition conserved (d p : Process) : Prop :=
  same_definition d p /\
  0 <= remaining p /\ remaining p <= EPS /\
  Qabs (cpu_consumed p - total_cpu_needed d) <= EPS.

(** ** Turns and measures *)

(** [mark_first_run], [eat_cpu] with a quantum and the clock update: the
    turn the Round-Robin and MLFQ loops give to the process they dequeue. *)
Definition quantum_turn (p : Process) (t : Q) : Process * Q * Q :=
  let p := mark_first_run p t in
  let '(p, taken, io_dur) := eat_cpu p QUANTUM in
  (p, taken, advance t taken io_dur).

(** Events not yet triggered. *)
Definition pend (p : Process) : nat := (io_count p - next_io_index p)%nat.

(** Quanta still needed, rounded up, and the measure of a process: it
    decreases with every turn that leaves the process unfinished. *)
Definition quanta_left (p : Process) : nat :=
  Z.to_nat (Qceiling (remaining p / QUANTUM)).

Definition turns_left (p : Process) : nat := (pend p + quanta_left p)%nat.

(** The value read from a cell that does not exist; no proof reads one. *)
#[global] Instance Process_inhabited : Inhabited Process :=
  populate (mkdef EmptyString 0 []).

(** Turns the waiting cells can still take, counting the one that finishes
    each of them. *)
Definition work (procs : list Process) (waiting : list nat) : nat :=
  sum_list_with (fun i => S (turns_left (procs !!! i))) waiting.

(** Fuel that suffices for the run-to-completion loops: one turn per event
    of the scenario, and one more. *)
Definition fifo_fuel (defs : list Process) : nat :=
  S (sum_list_with io_count defs).

(** Fuel that suffices for the queue-driven loops. *)
Definition queue_fuel (defs : list Process) : nat :=
  work (clone_processes defs) (seq 0 (length defs)).

(** ** Invariants of the loops *)

(** [defs] is the scenario, [procs] the cloned array, [waiting] the cells a
    queue points to, [res] the results written and [t] the clock.  The cells
    split into those waiting and those finished; the results are those of the
    finished cells, in the order they finished. *)
Definition sched_inv (defs procs : list Process) (waiting : list nat)
    (res : list Result) (t : Q) : Prop :=
  0 <= t /\
  Forall2 same_definition defs procs /\
  Forall (fun p => proc_inv p /\ first_run_time p <= t) procs /\
  exists fin : list nat,
    Permutation (fin ++ waiting) (seq 0 (length procs)) /\
    res = map (fun i => emit (procs !!! i)) fin /\
    Forall (fun i => completed (procs !!! i)) fin.

(** The invariant on the states of the two loops. *)
Definition rr_inv (defs : list Process) (s : rr_state) : Prop :=
  sched_inv defs (rr_procs s) (rr_waiting s) (rr_res s) (rr_t s).

(** The cells the three queues point to. *)
Definition mlfq_waiting (s : mlfq_state) : list nat := concat (mq_queues s).

Definition mlfq_inv (defs : list Process) (s : mlfq_state) : Prop :=
  length (mq_queues s) = LEVELS /\
  sched_inv defs (mq_procs s) (mlfq_waiting s) (mq_res s) (mq_t s).

(** What a run leaves when it returns: the array [procs] holds the
    definitions in their order, every cell is completed, and the results are
    those of the cells. *)
Definition run_post (defs procs : list Process) (res : list Result) : Prop :=
  Forall2 same_definition defs procs /\
  Forall completed procs /\
  Permutation res (map emit procs).

(** ** The states a run goes through *)

(** The states [(p, t)] in which the test of the [while] loop of [run_fifo]
    is evaluated, for a loop entered in [(p0, t0)]. *)
Inductive fifo_while_at (p0 : Process) (t0 : Q) : Process -> Q -> Prop :=
| while_entry : fifo_while_at p0 t0 p0 t0
| while_turn p t p' taken io_dur :
    fifo_while_at p0 t0 p t ->
    is_done p = false ->
    eat_cpu p (remaining p) = (p', taken, io_dur) ->
    fifo_while_at p0 t0 p' (advance t taken io_dur).

(** The same for the [for] loop over the cells [procs], entered at time
    [t]: the states of the [while] loop of the first cell, and once that
    loop has returned those of the cells that follow. *)
Inductive fifo_for_at (fuel : nat) : list Process -> Q -> Process -> Q -> Prop :=
| for_head p rest t q tq :
    fifo_while_at (mark_first_run p t) t q tq ->
    fifo_for_at fuel (p :: rest) t q tq
| for_next p rest t p1 t1 q tq :
    fifo_while fuel (mark_first_run p t) t = Ok (p1, t1) ->
    fifo_for_at fuel rest t1 q tq ->
    fifo_for_at fuel (p :: rest) t q tq.

(** The states the loops of [run_rr] and [run_mlfq] go through. *)
Inductive rr_reach (defs : list Process) : rr_state -> Prop :=
| rr_reach_init : rr_reach defs (rr_init defs)
| rr_reach_turn s s' : rr_reach defs s -> rr_body s = Ok s' -> rr_reach defs s'.

(** A turn of the [while (1)] loop of [run_mlfq]. *)
Definition mlfq_step (s s' : mlfq_state) : Prop :=
  exists qidx, first_nonempty (mq_queues s) 0 = Some qidx /\
               mlfq_body qidx s = Ok s'.

Inductive mlfq_reach (defs : list Process) : mlfq_state -> Prop :=
| mlfq_reach_init : mlfq_reach defs (mlfq_init defs)
| mlfq_reach_turn s s' :
    mlfq_reach defs s -> mlfq_step s s' -> mlfq_reach defs s'.

(** The level of the cell [i]: the first queue, from level [k] on, that
    holds it. *)
Fixpoint level_from (qs : list (list nat)) (k i : nat) : option nat :=
  match qs with
  | [] => None
  | q :: qs => if bool_decide (i ∈ q) then Some k else level_from qs (S k) i
  end.

Definition level_of (s : mlfq_state) (i : nat) : option nat :=
  level_from (mq_queues s) 0 i.

(** ** Sorting procedures *)

(** The order [qsort] is asked for. *)
Definition le_total_cpu (a b : Process) : Prop := (cmp_total_cpu a b <= 0)%Z.

(** A sorting procedure that [qsort] may be: the insertion sort that puts a
    cell before the first cell it may precede, so that equal cells keep their
    order. *)
Fixpoint insert_by (before : Process -> Process -> bool) (x : Process)
    (l : list Process) : list Process :=
  match l with
  | [] => [x]
  | y :: l' => if before x y then x :: l else y :: insert_by before x l'
  end.

(** The cells of demand [k]. *)
Definition same_demand (k : Q) (p : Process) : bool :=
  Qeq_bool (total_cpu_needed p) k.

Definition stable_qsort : sorter :=
  fun cmp l => foldr (insert_by (fun x y => (cmp x y <=? 0)%Z)) [] l.

(** Modelled from the spec: [qsort] is the C library's and not part of the
    source; the spec has it a stable sort, one that keeps the cells that
    compare equal in the order it was given them.  The C standard leaves
    that order open; the merge sort of the C library the program is built on
    keeps it. *)
Definition qsort_stable (qsort : sorter) : Prop :=
  forall (l : list Process) (k : Q),
    List.filter (same_demand k) (qsort cmp_total_cpu l)
    = List.filter (same_demand k) l.

(** ** Arguments of the command line *)

(** The policy names and scenario numbers [main] accepts. *)
Definition known_algorithm (alg : string) : Prop :=
  alg = "fifo"%string \/ alg = "sjf"%string \/ alg = "rr"%string \/
  alg = "mlfq"%string.

Definition known_scenario (scen : Z) : Prop :=
  (scen = 1 \/ scen = 2 \/ scen = 3 \/ scen = 4)%Z.

(** An [atoi] for one-digit arguments, enough to run [main] on examples. *)
Definition digit_atoi (s : string) : Z :=
  match s with
  | String c EmptyString =>
      let n := Ascii.nat_of_ascii c in
      if (48 <=? n)%nat && (n <=? 57)%nat then Z.of_nat (n - 48) else 0%Z
  | _ => 0%Z
  end.

(** ** Numbers up to rounding *)

(** [a] is [b] up to a rounding error: the properties below compare numbers
    that the program computes along different paths, which on the machine
    agree only so far. *)
Definition up_to_rounding (a b : Q) : Prop :=
  Qabs (a - b) <= EPS * (1 + Qabs b).

(** ** Events and blocked time *)

(** Sum of a list of numbers. *)
Definition Qsum (l : list Q) : Q := foldr Qplus 0 l.

(** The I/O bookkeeping of a process: the events before [next_io_index] are
    the ones triggered, and [blocked_time] is the sum of their durations. *)
Definition io_booked (p : Process) : Prop :=
  (next_io_index p <= io_count p)%nat /\
  blocked_time p == Qsum (map duration (take (next_io_index p) (io_events p))).

(** The CPU consumed has not passed the threshold of the pending event. *)
Definition io_not_passed (p : Process) : Prop :=
  forall ev, io_events p !! next_io_index p = Some ev ->
    cpu_consumed p <= when_cpu ev.

(** The CPU consumed is not past the threshold of the pending event by
    [1e-6] or more. *)
Definition io_not_overdue (p : Process) : Prop :=
  forall ev, io_events p !! next_io_index p = Some ev ->
    cpu_consumed p < when_cpu ev + IO_TOL.

(** The thresholds of a process increase. *)
Definition sorted_events (p : Process) : Prop :=
  Sorted (fun a b => when_cpu a < when_cpu b) (io_events p).

(** The three facts on the events of a process that [eat_cpu] keeps. *)
Definition io_ok (p : Process) : Prop :=
  sorted_events p /\ io_booked p /\ io_not_passed p.

(** ** The clock and the time a process keeps the machine *)

(** The time a process has kept the machine: on the CPU or blocked. *)
Definition busy (p : Process) : Q := cpu_consumed p + blocked_time p.

(** No event of the process has a negative duration. *)
Definition nonneg_durations (p : Process) : Prop :=
  Forall (fun ev => 0 <= duration ev) (io_events p).

(** The results of processes run one after the other from time [t]: each
    starts when the one before it ends, and ends after its CPU and its
    blocked time. *)
Fixpoint back_to_back (t : Q) (res : list Result) : Prop :=
  match res with
  | [] => True
  | r :: rest =>
      FirstRun r = t /\
      Elapsed r == FirstRun r + CPU r + BLOCKED r /\
      t <= Elapsed r /\
      back_to_back (Elapsed r) rest
  end.

(** The same with the lifetime of a process compared up to rounding: what
    the results of a run show. *)
Fixpoint handed_over (t : Q) (res : list Result) : Prop :=
  match res with
  | [] => True
  | r :: rest =>
      FirstRun r = t /\
      up_to_rounding (Elapsed r) (FirstRun r + CPU r + BLOCKED r) /\
      t <= Elapsed r /\
      handed_over (Elapsed r) rest
  end.

(** A process as [clone_processes] leaves it. *)
Definition fresh (p : Process) : Prop :=
  proc_inv p /\ first_run_time p = -1 /\
  cpu_consumed p = 0 /\ blocked_time p = 0 /\ nonneg_durations p.

(** The same time as a result reports it, and the order in which results
    finish. *)
Definition service (r : Result) : Q := CPU r + BLOCKED r.

Definition by_finish (a b : Result) : Prop := Elapsed a <= Elapsed b.

(** The clock is the time the processes have kept the machine, no result
    is ahead of it, and the result written last, once nothing waits, is on
    it. *)
Definition clock_inv (procs : list Process) (waiting : list nat)
    (res : list Result) (t : Q) : Prop :=
  0 <= t /\
  Forall nonneg_durations procs /\
  t == Qsum (map busy procs) /\
  Forall (fun r => Elapsed r <= t) res /\
  StronglySorted by_finish res /\
  (waiting = [] -> forall r, last res = Some r -> Elapsed r = t).

(** [clock_inv] on the states of the two loops. *)
Definition rr_clock (s : rr_state) : Prop :=
  clock_inv (rr_procs s) (rr_waiting s) (rr_res s) (rr_t s).

Definition mlfq_clock (s : mlfq_state) : Prop :=
  clock_inv (mq_procs s) (mlfq_waiting s) (mq_res s) (mq_t s).

(** ** The Round-Robin buffer *)

(** Turns that can leave the process unfinished: all its turns but the
    last. *)
Definition requeues_left (p : Process) : nat := pred (turns_left p).

(** Writes to [queue] the waiting cells can still cause. *)
Definition requeue_bound (procs : list Process) (waiting : list nat) : nat :=
  sum_list_with (fun i => requeues_left (procs !!! i)) waiting.

Definition queue_requeues (defs : list Process) : nat :=
  requeue_bound (clone_processes defs) (seq 0 (length defs)).

(** The cells still free in [queue] suffice for them. *)
Definition rr_room (s : rr_state) : Prop :=
  (rr_qend s + requeue_bound (rr_procs s) (rr_waiting s) <= rr_cap s)%nat.

(** ** Averages *)

(** The same record, up to the representation of its numbers. *)
Definition same_result (a b : Result) : Prop :=
  res_name b = res_name a /\ Elapsed b == Elapsed a /\ CPU b == CPU a /\
  BLOCKED b == BLOCKED a /\ FirstRun b == FirstRun a.

(** The same record up to rounding. *)
Definition near_result (a b : Result) : Prop :=
  res_name b = res_name a /\
  up_to_rounding (Elapsed b) (Elapsed a) /\ up_to_rounding (CPU b) (CPU a) /\
  up_to_rounding (BLOCKED b) (BLOCKED a) /\
  up_to_rounding (FirstRun b) (FirstRun a).

(** [x] holds [m] times the record [a]. *)
Definition times_result (m : nat) (a x : Result) : Prop :=
  let k := inject_Z (Z.of_nat m) in
  res_name x = res_name a /\ Elapsed x == k * Elapsed a /\ CPU x == k * CPU a /\
  BLOCKED x == k * BLOCKED a /\ FirstRun x == k * FirstRun a.

(** The policy [alg] names returns [procs] and [res] on [base]. *)
Definition policy_run (qsort : sorter) (alg : string) (fuel : nat)
    (base procs : list Process) (res : list Result) : Prop :=
  (alg = "fifo"%string /\ run_fifo fuel base = Ok (procs, res)) \/
  (alg = "sjf"%string /\ run_sjf qsort fuel base = Ok (procs, res)) \/
  (alg = "rr"%string /\ run_rr fuel base = Ok (procs, res)) \/
  (alg = "mlfq"%string /\ run_mlfq fuel base = Ok (procs, res)).

(** The first [n] records of [run] do not have the name [nm]. *)
Definition lacks (run : list Result) (n : nat) (nm : string) : Prop :=
  forall j x, (j < n)%nat -> run !! j = Some x -> res_name x <> nm.

(** ** First turns *)

(** The time the first turn of a process takes, and the time at which the
    process [i] of a scenario has its first turn when every process before it
    has had one. *)
Definition first_turn (d : Process) : Q := (quantum_turn (clone_process d) 0).2.

Definition start_of (defs : list Process) (i : nat) : Q :=
  Qsum (map first_turn (take i defs)).

(** The cells below [k] have had their first turn, the others are as
    [clone_processes] left them. *)
Definition first_pass (defs procs : list Process) (k : nat) (t : Q) : Prop :=
  (k <= length defs)%nat /\
  ((k < length defs)%nat -> t == start_of defs k) /\
  forall i p, procs !! i = Some p ->
    ((i < k)%nat -> first_run_time p == start_of defs i /\ 0 <= first_run_time p) /\
    ((k <= i)%nat -> exists d, defs !! i = Some d /\ p = clone_process d).

(** The cells that have had no turn are at the head of the queue, in the
    order of the scenario. *)
Definition rr_first_pass (defs : list Process) (s : rr_state) : Prop :=
  exists k rest,
    first_pass defs (rr_procs s) k (rr_t s) /\
    rr_waiting s = seq k (length defs - k) ++ rest.

Definition mlfq_first_pass (defs : list Process) (s : mlfq_state) : Prop :=
  exists k rest,
    first_pass defs (mq_procs s) k (mq_t s) /\
    mq_queues s !! 0%nat = Some (seq k (length defs - k) ++ rest).

(** A process that has run started at the time its place in the scenario
    gives. *)
Definition started_in_order (defs procs : list Process) : Prop :=
  forall i p, procs !! i = Some p -> 0 <= first_run_time p ->
    first_run_time p == start_of defs i.

(** The same up to rounding. *)
Definition started_near_order (defs procs : list Process) : Prop :=
  forall i p, procs !! i = Some p -> 0 <= first_run_time p ->
    up_to_rounding (first_run_time p) (start_of defs i).

(** ** Inputs of the examples *)

(** The first process of Scenario 3 as [clone_processes] leaves it. *)
Definition scenario3_first : Process :=
  clone_process (mkdef "A" 5 [mkIOEvent 1 (1 # 2); mkIOEvent 3 (7 # 10)]).

(** An I/O event crossed at 0.5 CPU units short of its threshold by more
    than [EPS] and less than [1e-6]. *)
Definition near_io_process : Process :=
  clone_process (mkdef "P" 5 [mkIOEvent (5000005 # 10000000) (1 # 10)]).

(** A process whose first event comes [EPS] short of a full quantum. *)
Definition boundary_scenario : list Process :=
  [ mkdef "P" 5 [mkIOEvent (499999999 # 1000000000) (1 # 10)] ].

(** A demand that is [EPS / 2] more than a quantum, and an event [EPS / 2]
    before the end of the demand. *)
Definition leftover_scenario : list Process :=
  [ mkdef "P" (5000000005 # 10000000000) [] ].

Definition io_leftover_scenario : list Process :=
  [ mkdef "P" 5 [mkIOEvent (49999999995 # 10000000000) (1 # 10)] ].

(** The state of Round-Robin on Scenario 1 after three turns: A, B and C
    have had a quantum each and are queued again. *)
Definition rr_scenario1_after3 : outcome rr_state :=
  s ← rr_body (rr_init make_scenario1);
  s ← rr_body s;
  rr_body s.

(** Three processes that take two more turns than they are: A is queued
    again after its event and after its first quantum. *)
Definition light_scenario : list Process :=
  [ mkdef "A" 1 [mkIOEvent (3 # 10) (1 # 5)]; mkdef "B" (1 # 2) [];
    mkdef "C" (1 # 5) [] ].

(** Runs handed to [accumulate_results]: the same records in two orders,
    and a run that lacks the name A. *)
Definition table_run1 : list Result :=
  [ mkResult "A" 3 2 1 0; mkResult "B" 5 2 0 3 ].

Definition table_run2 : list Result :=
  [ mkResult "B" 5 2 0 3; mkResult "A" 3 2 1 0 ].

Definition table_run3 : list Result :=
  [ mkResult "B" 7 2 0 5; mkResult "C" 1 1 0 0 ].

(** * Properties *)

(** ** The consumption step *)

(** The comparisons of the model, as propositions. *)
Lemma Qltb_lt a b : Qltb a b = true <-> a < b.
Proof.
  unfold Qltb. rewrite negb_true_iff. split.
  - intros H. apply Qnot_le_lt. intros Hle.
    apply Qle_bool_iff in Hle. congruence.
  - intros H. destruct (Qle_bool b a) eqn:E; [|reflexivity].
    apply Qle_bool_iff in E. lra.
Qed.

Lemma Qltb_ge a b : Qltb a b = false <-> b <= a.
Proof.
  unfold Qltb. rewrite negb_false_iff. apply Qle_bool_iff.
Qed.

Lemma Qle_bool_gt a b : Qle_bool a b = false <-> b < a.
Proof.
  rewrite <- Qltb_lt. unfold Qltb. now rewrite negb_true_iff.
Qed.

Ltac q_bool :=
  repeat match goal with
  | H : Qltb _ _ = true |- _ => apply Qltb_lt in H
  | H : Qltb _ _ = false |- _ => apply Qltb_ge in H
  | H : Qle_bool _ _ = true |- _ => apply Qle_bool_iff in H
  | H : Qle_bool _ _ = false |- _ => apply Qle_bool_gt in H
  | H : _ || _ = true |- _ => apply orb_true_iff in H; destruct H
  | H : _ || _ = false |- _ => apply orb_false_iff in H; destruct H
  | H : negb _ = true |- _ => apply negb_true_iff in H
  | H : negb _ = false |- _ => apply negb_false_iff in H
  | H : Qabs _ < _ |- _ => apply Qabs_Qlt_condition in H
  | H : _ <= Qabs _ |- _ =>
      apply Qle_not_lt in H; rewrite Qabs_Qlt_condition in H
  end.

Ltac no_if t :=
  lazymatch t with
  | context [if _ then _ else _] => fail
  | _ => idtac
  end.

(** Case analysis along the branches of [eat_cpu], innermost test first. *)
Ltac eat_cpu_cases H :=
  unfold eat_cpu in H;
  repeat match type of H with
  | context [match ?l !! ?i with _ => _ end] => destruct (l !! i) eqn:?
  | context [Qltb ?a ?b] => no_if a; no_if b; destruct (Qltb a b) eqn:?
  | context [Qle_bool ?a ?b] => no_if a; no_if b; destruct (Qle_bool a b) eqn:?
  | _ => progress cbn [set_cpu set_io remaining cpu_consumed blocked_time
           next_io_index orb] in H
  end;
  injection H as <- <- <-;
  cbn [set_cpu set_io remaining cpu_consumed blocked_time next_io_index name
       total_cpu_needed io_events first_run_time finish_time] in *;
  q_bool.

Lemma Qmin3_cases (a b c : Q) :
  (Qmin a (Qmin b c) == a /\ a <= b /\ a <= c) \/
  (Qmin a (Qmin b c) == b /\ b <= a /\ b <= c) \/
  (Qmin a (Qmin b c) == c /\ c <= a /\ c <= b).
Proof.
  destruct (Q.min_spec b c) as [[? E1]|[? E1]];
  destruct (Q.min_spec a (Qmin b c)) as [[? E2]|[? E2]];
  rewrite E1 in *; lra.
Qed.

Lemma Qmin2_cases (a b : Q) :
  (Qmin a b == a /\ a <= b) \/ (Qmin a b == b /\ b <= a).
Proof. destruct (Q.min_spec a b) as [[? E]|[? E]]; lra. Qed.

(** The fields [eat_cpu] never writes. *)
Lemma eat_cpu_frame p dt p' taken io_dur :
  eat_cpu p dt = (p', taken, io_dur) ->
  name p' = name p /\ total_cpu_needed p' = total_cpu_needed p /\
  io_events p' = io_events p /\ first_run_time p' = first_run_time p /\
  finish_time p' = finish_time p.
Proof. intros H. eat_cpu_cases H; auto. Qed.

(** What a step takes lies between 0 and the budget. *)
Lemma eat_cpu_taken p dt p' taken io_dur :
  0 < dt -> 0 <= remaining p ->
  eat_cpu p dt = (p', taken, io_dur) ->
  0 <= taken /\ taken <= dt.
Proof.
  intros Hdt Hrem H. eat_cpu_cases H; unfold EPS, IO_TOL in *; split; lra.
Qed.

(** C1, as stated, fails: with [cpu_until_io > EPS] the step takes the whole
    budget, the new [cpu_consumed] (0.5) is below [when_cpu - EPS], and the
    I/O event is triggered all the same. *)
Lemma eat_cpu_io_tolerance_counterexample :
  exists ev p' taken io_dur,
    io_events near_io_process !! next_io_index near_io_process = Some ev /\
    eat_cpu near_io_process (1 # 2) = (p', taken, io_dur) /\
    EPS < when_cpu ev - cpu_consumed near_io_process /\
    ~ (when_cpu ev - EPS <= cpu_consumed p') /\
    next_io_index p' = S (next_io_index near_io_process) /\
    io_dur == duration ev.
Proof.
  eexists _, _, _, _. split; [reflexivity|]. split; [reflexivity|].
  vm_compute. repeat split; try discriminate. intros H; now apply H.
Qed.

(** C1 (amended): [eat_cpu] on a state with [remaining >= 0] and a budget
    [dt > 0].  With a pending event and [cpu_until_io <= EPS] it takes no
    CPU, advances [next_io_index] by one, adds the duration to
    [blocked_time] and reports it.  With a pending event further away it
    takes [min(dt, cpu_until_io, remaining)], and triggers the event exactly
    when the new [cpu_consumed] is above [when_cpu - 1e-6].  With no pending
    event it takes [min(dt, remaining)] and reports no I/O.  Always
    [0 <= taken <= dt] and the index advances by at most one. *)
Theorem eat_cpu_step (p : Process) (dt : Q) (p' : Process) (taken io_dur : Q) :
  0 < dt -> 0 <= remaining p ->
  eat_cpu p dt = (p', taken, io_dur) ->
  (forall ev, io_events p !! next_io_index p = Some ev ->
     let cpu_until_io := when_cpu ev - cpu_consumed p in
     (cpu_until_io <= EPS ->
        taken == 0 /\
        cpu_consumed p' == cpu_consumed p /\ remaining p' == remaining p /\
        next_io_index p' = S (next_io_index p) /\
        blocked_time p' == blocked_time p + duration ev /\
        io_dur == duration ev) /\
     (EPS < cpu_until_io ->
        taken == Qmin dt (Qmin cpu_until_io (remaining p)) /\
        cpu_consumed p' == cpu_consumed p + taken /\
        remaining p' == remaining p - taken /\
        (when_cpu ev - IO_TOL < cpu_consumed p' ->
           next_io_index p' = S (next_io_index p) /\
           blocked_time p' == blocked_time p + duration ev /\
           io_dur == duration ev) /\
        (cpu_consumed p' <= when_cpu ev - IO_TOL ->
           next_io_index p' = next_io_index p /\
           blocked_time p' == blocked_time p /\
           io_dur == -1))) /\
  (io_events p !! next_io_index p = None ->
     taken == Qmin dt (remaining p) /\
     cpu_consumed p' == cpu_consumed p + taken /\
     remaining p' == remaining p - taken /\
     next_io_index p' = next_io_index p /\
     blocked_time p' == blocked_time p /\
     io_dur == -1) /\
  0 <= taken /\ taken <= dt /\
  (next_io_index p <= next_io_index p' <= S (next_io_index p))%nat.
Proof.
  intros Hdt Hrem H.
  eat_cpu_cases H; unfold EPS, IO_TOL in *.
  all: (split; [intros ev' Hev; injection Hev as <- || discriminate Hev
               | split; [try discriminate; intros _|] ]).
  all: try (split; [lia || lra | split; [lra | lia] ]).
  all: try (split; intros Hc; try lra).
  all: repeat split; try reflexivity; try lia; try lra.
  all: try (destruct (Qmin3_cases dt (when_cpu i - cpu_consumed p) (remaining p))
              as [[E ?]|[[E ?]|[E ?]]]; rewrite ?E; lra).
  all: try (destruct (Qmin2_cases dt (remaining p)) as [[E ?]|[E ?]];
            rewrite ?E; lra).
Qed.

Lemma eat_cpu_step_witness :
  0 < QUANTUM /\ 0 <= remaining scenario3_first /\
  exists p' taken io_dur,
    eat_cpu scenario3_first QUANTUM = (p', taken, io_dur) /\
    0 <= taken /\ taken <= QUANTUM /\
    (next_io_index scenario3_first <= next_io_index p'
       <= S (next_io_index scenario3_first))%nat.
Proof.
  split; [reflexivity|]. split; [vm_compute; discriminate|].
  eexists _, _, _. split; [reflexivity|].
  refine (proj2 (proj2 (eat_cpu_step scenario3_first QUANTUM _ _ _ _ _ _))).
  - reflexivity.
  - vm_compute. discriminate.
  - reflexivity.
Defined.

Lemma eat_cpu_inv p dt p' taken io_dur :
  proc_inv p -> eat_cpu p dt = (p', taken, io_dur) -> proc_inv p'.
Proof.
  intros [H1 H2] H. unfold proc_inv.
  eat_cpu_cases H; unfold EPS in *; split; lra.
Qed.




(** ** Scenarios the simulator is meant for *)

Ltac valid_by_computation :=
  repeat first
    [ apply Forall_cons; split
    | apply Forall_nil
    | split
    | apply Sorted_cons
    | apply Sorted_nil
    | apply HdRel_cons
    | apply HdRel_nil
    | reflexivity
    | (vm_compute; discriminate) ].

Lemma make_scenario1_valid : valid_scenario make_scenario1.
Proof. unfold valid_scenario, make_scenario1, valid_definition. valid_by_computation. Qed.

Lemma make_scenario2_valid : valid_scenario make_scenario2.
Proof. unfold valid_scenario, make_scenario2, valid_definition. valid_by_computation. Qed.

Lemma make_scenario3_valid : valid_scenario make_scenario3.
Proof. unfold valid_scenario, make_scenario3, valid_definition. valid_by_computation. Qed.

Lemma make_scenario4_valid : valid_scenario make_scenario4.
Proof. unfold valid_scenario, make_scenario4, valid_definition. valid_by_computation. Qed.

Lemma clone_process_inv d : 0 <= total_cpu_needed d -> proc_inv (clone_process d).
Proof. intros H. split; cbn; [exact H | lra]. Qed.

(** ** Run-to-completion loops (FIFO and SJF) *)

Lemma advance_ge t taken io_dur : 0 <= taken -> t <= advance t taken io_dur.
Proof.
  intros H. unfold advance. destruct (Qle_bool 0 io_dur) eqn:E; q_bool; lra.
Qed.

Lemma is_done_false p : is_done p = false <-> EPS < remaining p.
Proof. unfold is_done. apply Qle_bool_gt. Qed.

Lemma is_done_true p : is_done p = true <-> remaining p <= EPS.
Proof. unfold is_done. apply Qle_bool_iff. Qed.

(** With the whole of [remaining] as budget, a step finishes the process or
    triggers an event. *)
Lemma eat_all_progress p p' taken io_dur :
  is_done p = false ->
  eat_cpu p (remaining p) = (p', taken, io_dur) ->
  is_done p' = true \/ (pend p' < pend p)%nat.
Proof.
  intros Hnd H. apply is_done_false in Hnd.
  assert (Hlt : forall ev, io_events p !! next_io_index p = Some ev ->
                 (next_io_index p < io_count p)%nat)
    by (intros ev Hev; exact (lookup_lt_Some _ _ _ Hev)).
  pose proof (proj1 (proj2 (proj2 (proj2 (eat_cpu_frame _ _ _ _ _ H))))) as Hf.
  unfold pend, io_count in *. rewrite (proj1 (proj2 (proj2 (eat_cpu_frame _ _ _ _ _ H)))).
  rewrite is_done_true. clear Hf.
  eat_cpu_cases H; unfold EPS, IO_TOL in *;
    try (specialize (Hlt _ eq_refl));
    first [ right; lia | left; lra | exfalso; lra ].
Qed.

Lemma fifo_while_done fuel p t : is_done p = true -> fifo_while fuel p t = Ok (p, t).
Proof. intros H. destruct fuel; cbn; rewrite H; reflexivity. Qed.

Lemma fifo_while_total fuel : forall p t,
  (pend p < fuel)%nat -> exists p' t', fifo_while fuel p t = Ok (p', t').
Proof.
  induction fuel as [|fuel IH]; intros p t Hp; [lia|].
  cbn. destruct (is_done p) eqn:Hd; [eauto|].
  destruct (eat_cpu p (remaining p)) as [[p1 taken] io_dur] eqn:He.
  destruct (eat_all_progress _ _ _ _ Hd He) as [Hd1|Hlt].
  - rewrite (fifo_while_done _ _ _ Hd1). eauto.
  - apply IH. lia.
Qed.

Lemma fifo_while_mono fuel : forall p t r fuel',
  fifo_while fuel p t = Ok r -> (fuel <= fuel')%nat -> fifo_while fuel' p t = Ok r.
Proof.
  induction fuel as [|fuel IH]; intros p t r fuel' H Hle.
  - cbn in H. destruct (is_done p) eqn:Hd; [|discriminate].
    rewrite (fifo_while_done _ _ _ Hd). exact H.
  - destruct fuel' as [|fuel']; [lia|]. cbn in *.
    destruct (is_done p); [exact H|].
    destruct (eat_cpu p (remaining p)) as [[p1 taken] io_dur].
    apply IH; [exact H | lia].
Qed.

(** Loop invariants: what holds before the loop and is kept by every turn
    holds at the exit, where the process is done. *)
Lemma fifo_while_ind (P : Process -> Q -> Prop) :
  (forall p t p' taken io_dur,
      P p t -> is_done p = false ->
      eat_cpu p (remaining p) = (p', taken, io_dur) ->
      P p' (advance t taken io_dur)) ->
  forall fuel p t p' t',
    P p t -> fifo_while fuel p t = Ok (p', t') ->
    P p' t' /\ is_done p' = true.
Proof.
  intros Hstep. induction fuel as [|fuel IH]; intros p t p' t' HP H; cbn in H.
  - destruct (is_done p) eqn:Hd; [|discriminate].
    injection H as <- <-. auto.
  - destruct (is_done p) eqn:Hd.
    + injection H as <- <-. auto.
    + destruct (eat_cpu p (remaining p)) as [[p1 taken] io_dur] eqn:He.
      eapply IH; [|exact H]. eapply Hstep; eauto.
Qed.

Lemma sjf_while_fifo : sjf_while = fifo_while.
Proof. reflexivity. Qed.

Lemma sjf_for_fifo : sjf_for = fifo_for.
Proof. reflexivity. Qed.

(** ** One turn on the CPU *)

Lemma mark_first_run_fields p t :
  name (mark_first_run p t) = name p /\
  total_cpu_needed (mark_first_run p t) = total_cpu_needed p /\
  io_events (mark_first_run p t) = io_events p /\
  remaining (mark_first_run p t) = remaining p /\
  cpu_consumed (mark_first_run p t) = cpu_consumed p /\
  finish_time (mark_first_run p t) = finish_time p /\
  next_io_index (mark_first_run p t) = next_io_index p.
Proof. unfold mark_first_run. destruct (Qltb _ _); cbn; auto 10. Qed.

Lemma mark_first_run_time p t :
  0 <= t -> first_run_time p <= t ->
  0 <= first_run_time (mark_first_run p t) /\
  first_run_time (mark_first_run p t) <= t.
Proof.
  intros Ht Hle. unfold mark_first_run.
  destruct (Qltb (first_run_time p) 0) eqn:E; q_bool; cbn; split; lra.
Qed.

Lemma mark_first_run_inv p t : proc_inv p -> proc_inv (mark_first_run p t).
Proof.
  unfold proc_inv.
  destruct (mark_first_run_fields p t) as (_ & -> & _ & -> & -> & _). auto.
Qed.

Lemma quantum_turn_spec p t p' taken t' :
  proc_inv p -> 0 <= t -> first_run_time p <= t ->
  quantum_turn p t = (p', taken, t') ->
  proc_inv p' /\ same_definition p p' /\
  0 <= taken /\ taken <= QUANTUM /\ t <= t' /\
  0 <= first_run_time p' /\ first_run_time p' <= t /\
  finish_time p' = finish_time p.
Proof.
  intros Hinv Ht Hfr H. unfold quantum_turn in H.
  destruct (eat_cpu (mark_first_run p t) QUANTUM) as [[p1 tk] io] eqn:He.
  injection H as <- <- <-.
  pose proof (mark_first_run_inv p t Hinv) as Hinv1.
  pose proof (eat_cpu_inv _ _ _ _ _ Hinv1 He) as Hinv2.
  destruct (eat_cpu_frame _ _ _ _ _ He) as (Hn & Htot & Hio & Hf1 & Hf2).
  destruct (mark_first_run_fields p t) as (Mn & Mtot & Mio & _ & _ & Mf & _).
  destruct (mark_first_run_time p t Ht Hfr) as [F1 F2].
  assert (Hq : 0 < QUANTUM) by reflexivity.
  destruct (eat_cpu_taken _ _ _ _ _ Hq (proj1 Hinv1) He) as (T1 & T2).
  split; [exact Hinv2|]. split.
  { unfold same_definition. rewrite Hn, Htot, Hio, Mn, Mtot, Mio. auto. }
  rewrite Hf1, Hf2, Mf. repeat split; auto using advance_ge.
Qed.

Lemma quanta_left_le p p' :
  remaining p' <= remaining p -> (quanta_left p' <= quanta_left p)%nat.
Proof.
  intros H. unfold quanta_left.
  assert (Qceiling (remaining p' / QUANTUM) <= Qceiling (remaining p / QUANTUM))%Z.
  { apply Qceiling_resp_le. unfold QUANTUM, Qdiv.
    change (/ (1 # 2)) with 2. lra. }
  lia.
Qed.

Lemma quanta_left_lt p p' :
  remaining p' == remaining p - QUANTUM -> 0 < remaining p' ->
  (quanta_left p' < quanta_left p)%nat.
Proof.
  intros H Hpos. unfold quanta_left.
  pose proof (Qle_ceiling (remaining p / QUANTUM)) as U.
  pose proof (Qceiling_lt (remaining p' / QUANTUM)) as L'.
  pose proof (Qle_ceiling (remaining p' / QUANTUM)) as U'.
  unfold QUANTUM, Qdiv in *. change (/ (1 # 2)) with 2 in *.
  assert (A : 0 < inject_Z (Qceiling (remaining p' * 2))) by lra.
  assert (B : inject_Z (Qceiling (remaining p' * 2) - 1)
              < inject_Z (Qceiling (remaining p * 2) - 1)).
  { unfold Zminus. rewrite !inject_Z_plus. unfold Zminus in L'.
    rewrite inject_Z_plus in L'.
    assert (K : inject_Z (- (1)) == -1) by reflexivity.
    revert K L'. generalize (inject_Z (- (1))). intros k K L'. lra. }
  change 0 with (inject_Z 0) in A.
  rewrite <- Zlt_Qlt in A, B. lia.
Qed.

(** A turn that leaves the process unfinished uses up one of its turns. *)
Lemma eat_quantum_progress p p' taken io_dur :
  eat_cpu p QUANTUM = (p', taken, io_dur) ->
  is_done p' = false ->
  (turns_left p' < turns_left p)%nat.
Proof.
  intros H Hnd. apply is_done_false in Hnd.
  assert (Hlt : forall ev, io_events p !! next_io_index p = Some ev ->
                 (next_io_index p < io_count p)%nat)
    by (intros ev Hev; exact (lookup_lt_Some _ _ _ Hev)).
  assert (Hle : forall q, remaining q <= remaining p ->
                 (quanta_left q <= quanta_left p)%nat)
    by (intros q; apply quanta_left_le).
  assert (Hdec : forall q, remaining q == remaining p - QUANTUM ->
                 0 < remaining q -> (quanta_left q < quanta_left p)%nat)
    by (intros q; apply quanta_left_lt).
  unfold turns_left, pend, io_count in *.
  rewrite (proj1 (proj2 (proj2 (eat_cpu_frame _ _ _ _ _ H)))).
  eat_cpu_cases H; unfold EPS, IO_TOL, QUANTUM in *;
    try (specialize (Hlt _ eq_refl)).
  all: match goal with
       | |- context [quanta_left ?q] =>
           first [ exfalso; lra
                 | assert (quanta_left q < quanta_left p)%nat
                     by (apply Hdec; cbn; lra); lia
                 | assert (quanta_left q <= quanta_left p)%nat
                     by (apply Hle; cbn; lra); lia ]
       end.
Qed.

(** ** The invariant of the queue-driven loops (Round-Robin and MLFQ) *)

Lemma same_definition_trans d p q :
  same_definition d p -> same_definition p q -> same_definition d q.
Proof. unfold same_definition. intros (-> & -> & ->) (-> & -> & ->). auto. Qed.

Lemma sched_inv_init defs :
  Forall (fun d => 0 <= total_cpu_needed d) defs ->
  sched_inv defs (clone_processes defs) (seq 0 (length defs)) [] 0.
Proof.
  intros Hv. unfold sched_inv, clone_processes.
  split; [lra|]. split; [|split].
  - clear Hv. induction defs; constructor; [repeat split | auto].
  - induction Hv; constructor; auto.
    split; [apply clone_process_inv; auto | cbn; lra].
  - exists []. rewrite length_map. cbn. auto.
Qed.

Lemma sched_inv_waiting defs procs waiting res t i :
  sched_inv defs procs waiting res t -> i ∈ waiting ->
  exists p, procs !! i = Some p.
Proof.
  intros (_ & _ & _ & fin & Hperm & _) Hi.
  assert (Hin : i ∈ seq 0 (length procs)).
  { rewrite <- Hperm. apply elem_of_app. auto. }
  apply elem_of_seq in Hin.
  destruct (lookup_lt_is_Some_2 procs i) as [p Hp]; [lia | eauto].
Qed.

Lemma sched_inv_NoDup defs procs waiting res t :
  sched_inv defs procs waiting res t -> NoDup waiting.
Proof.
  intros (_ & _ & _ & fin & Hperm & _).
  assert (Hnd : NoDup (fin ++ waiting)) by (rewrite Hperm; apply NoDup_seq).
  apply NoDup_app in Hnd. tauto.
Qed.

Lemma emit_completed p :
  completed p ->
  res_name (emit p) = name p /\ CPU (emit p) = cpu_consumed p /\
  BLOCKED (emit p) = blocked_time p /\
  FirstRun (emit p) = first_run_time p /\ Elapsed (emit p) = finish_time p.
Proof.
  intros (_ & _ & H1 & H2). unfold emit, fill_result. cbn.
  destruct (Qltb (first_run_time p) 0) eqn:E1;
    destruct (Qltb (finish_time p) 0) eqn:E2; q_bool; auto; exfalso; lra.
Qed.

(** One turn given to the cell [i] taken out of the waiting cells. *)
Lemma sched_inv_turn defs procs waiting res t i w p p' taken t' :
  sched_inv defs procs waiting res t ->
  Permutation waiting (i :: w) ->
  procs !! i = Some p ->
  quantum_turn p t = (p', taken, t') ->
  t <= t' /\ 0 <= taken /\
  (is_done p' = false -> forall waiting', Permutation waiting' (i :: w) ->
     sched_inv defs (<[i:=p']> procs) waiting' res t') /\
  (is_done p' = true -> forall waiting', Permutation waiting' w ->
     completed (set_finish_time p' t') /\
     sched_inv defs (<[i:=set_finish_time p' t']> procs) waiting'
       (res ++ [emit (set_finish_time p' t')]) t').
Proof.
  intros (Ht & Hdefs & Hall & fin & Hperm & Hres & Hfin) Hw Hp Hturn.
  assert (Hp_inv : proc_inv p /\ first_run_time p <= t)
    by (rewrite Forall_lookup in Hall; eauto).
  destruct (quantum_turn_spec _ _ _ _ _ (proj1 Hp_inv) Ht (proj2 Hp_inv) Hturn)
    as (Hinv' & Hsame & Htk & _ & Htt & Hf0 & Hft & Hfin').
  assert (Hlen : (i < length procs)%nat) by (eapply lookup_lt_Some; eauto).
  assert (Hnd : NoDup (fin ++ i :: w)).
  { rewrite <- Hw, Hperm. apply NoDup_seq. }
  apply NoDup_app in Hnd. destruct Hnd as (_ & Hdisj & Hndw).
  assert (Hi_fin : i ∉ fin).
  { intros Hi. apply (Hdisj i Hi). left. }
  assert (Hother : forall (x : Process) j, j ∈ fin -> <[i:=x]> procs !!! j = procs !!! j).
  { intros x j Hj. apply list_lookup_total_insert_ne. intros ->. auto. }
  assert (Hall' : Forall (fun p => proc_inv p /\ first_run_time p <= t') procs).
  { eapply Forall_impl; [exact Hall|]. cbn. intros q [? ?]. split; [auto|lra]. }
  destruct (Forall2_lookup_r _ _ _ _ _ Hdefs Hp) as (d & Hd & Hdp).
  assert (Hdefs' : forall x, same_definition p x ->
            Forall2 same_definition defs (<[i:=x]> procs)).
  { intros x Hx. rewrite <- (list_insert_id defs i d Hd).
    apply Forall2_insert; [exact Hdefs|].
    eapply same_definition_trans; eauto. }
  split; [exact Htt|]. split; [exact Htk|]. split.
  - intros Hnd waiting' Hw'. unfold sched_inv. split; [lra|].
    split; [apply Hdefs'; exact Hsame|]. split.
    { apply Forall_insert; [exact Hall'|]. split; [auto|lra]. }
    exists fin. rewrite length_insert. split; [rewrite Hw', <- Hw; exact Hperm|].
    split.
    + rewrite Hres. apply map_ext_in. intros j Hj.
      rewrite Hother; [reflexivity | apply list_elem_of_In; exact Hj].
    + rewrite Forall_forall in Hfin |- *. intros j Hj.
      rewrite Hother; auto.
  - intros Hdone waiting' Hw'.
    assert (Hc : completed (set_finish_time p' t')).
    { unfold completed, proc_inv in *. cbn. apply is_done_true in Hdone.
      repeat split; try tauto; lra. }
    split; [exact Hc|].
    unfold sched_inv. split; [lra|]. split.
    { apply Hdefs'. destruct Hsame as (? & ? & ?). repeat split; auto. }
    split.
    { apply Forall_insert; [exact Hall'|]. split; [apply Hc | cbn; lra]. }
    exists (fin ++ [i]). rewrite length_insert. split.
    { rewrite Hw', <- Hperm, Hw, <- app_assoc. reflexivity. }
    split.
    + rewrite map_app. cbn. rewrite list_lookup_total_insert_eq by exact Hlen.
      f_equal. rewrite Hres. apply map_ext_in. intros j Hj.
      rewrite Hother; [reflexivity | apply list_elem_of_In; exact Hj].
    + apply Forall_app. split.
      * rewrite Forall_forall in Hfin |- *. intros j Hj. rewrite Hother; auto.
      * constructor; [|constructor].
        rewrite list_lookup_total_insert_eq by exact Hlen. exact Hc.
Qed.

(** When nothing is waiting, every cell is finished and has its result. *)
Lemma sched_inv_final defs procs res t :
  sched_inv defs procs [] res t ->
  Forall2 same_definition defs procs /\
  Forall completed procs /\
  Permutation res (map emit procs).
Proof.
  intros (_ & Hdefs & _ & fin & Hperm & Hres & Hfin).
  rewrite app_nil_r in Hperm. split; [exact Hdefs|].
  assert (Hmap : forall (B : Type) (f : Process -> B),
            map (fun i => f (procs !!! i)) (seq 0 (length procs)) = map f procs).
  { intros B f. apply list_eq. intros i.
    rewrite !list_lookup_fmap.
    destruct (procs !! i) as [p|] eqn:Hp.
    - rewrite lookup_seq_lt by (eapply lookup_lt_Some; eauto). cbn.
      rewrite (list_lookup_total_correct _ _ _ Hp). reflexivity.
    - rewrite lookup_seq_ge by (apply lookup_ge_None; exact Hp). reflexivity. }
  split.
  - rewrite Forall_forall. intros p Hp.
    apply list_elem_of_lookup in Hp. destruct Hp as [i Hp].
    rewrite Forall_forall in Hfin.
    rewrite <- (list_lookup_total_correct _ _ _ Hp). apply Hfin.
    rewrite Hperm. apply elem_of_seq. apply lookup_lt_Some in Hp. lia.
  - rewrite Hres, <- Hmap. apply Permutation_map. exact Hperm.
Qed.

(** ** Round-Robin: the loop and its invariant *)

(** [rr_body] in terms of the turn it gives. *)
Lemma rr_body_turn s i p p' taken t' :
  rr_queue s !! rr_qstart s = Some i ->
  rr_procs s !! i = Some p ->
  quantum_turn p (rr_t s) = (p', taken, t') ->
  rr_body s =
    if is_done p' then
      Ok (mkRR (<[i:=set_finish_time p' t']> (rr_procs s)) (rr_cap s) (rr_queue s)
            (S (rr_qstart s)) (rr_res s ++ [emit (set_finish_time p' t')]) t')
    else if (rr_qend s <? rr_cap s)%nat then
      Ok (mkRR (<[i:=p']> (rr_procs s)) (rr_cap s) (rr_queue s ++ [i])
            (S (rr_qstart s)) (rr_res s) t')
    else OutOfBounds.
Proof.
  intros Hq Hp Hturn. unfold rr_body. rewrite Hq, Hp.
  unfold quantum_turn in Hturn.
  destruct (eat_cpu (mark_first_run p (rr_t s)) QUANTUM) as [[p1 tk] io].
  injection Hturn as -> -> <-.
  destruct (is_done p'); reflexivity.
Qed.

Lemma rr_waiting_head s i :
  rr_queue s !! rr_qstart s = Some i ->
  rr_waiting s = i :: drop (S (rr_qstart s)) (rr_queue s).
Proof. intros H. unfold rr_waiting. apply drop_S. exact H. Qed.

Lemma rr_head_Some s :
  (rr_qstart s < rr_qend s)%nat -> exists i, rr_queue s !! rr_qstart s = Some i.
Proof. intros H. apply lookup_lt_is_Some_2. exact H. Qed.

(** A turn of the loop keeps the invariant and does not move the clock
    back. *)
Lemma rr_body_inv defs s s' :
  rr_inv defs s -> rr_body s = Ok s' ->
  rr_inv defs s' /\ rr_t s <= rr_t s' /\ rr_cap s' = rr_cap s.
Proof.
  intros Hinv Hb.
  destruct (rr_queue s !! rr_qstart s) as [i|] eqn:Hq;
    [|unfold rr_body in Hb; rewrite Hq in Hb; discriminate].
  pose proof (rr_waiting_head s i Hq) as Hw.
  destruct (sched_inv_waiting _ _ _ _ _ i Hinv) as [p Hp].
  { rewrite Hw. left. }
  destruct (quantum_turn p (rr_t s)) as [[p' taken] t'] eqn:Hturn.
  rewrite (rr_body_turn s i p p' taken t' Hq Hp Hturn) in Hb.
  assert (Hperm : Permutation (rr_waiting s) (i :: drop (S (rr_qstart s)) (rr_queue s)))
    by (rewrite Hw; reflexivity).
  destruct (sched_inv_turn _ _ _ _ _ _ _ _ _ _ _ Hinv Hperm Hp Hturn)
    as (Htt & _ & Hnd & Hd).
  destruct (is_done p') eqn:Hdone.
  - injection Hb as <-. unfold rr_inv, rr_waiting. cbn.
    split; [|auto]. apply Hd; reflexivity.
  - destruct (rr_qend s <? rr_cap s)%nat; [|discriminate].
    injection Hb as <-. unfold rr_inv, rr_waiting. cbn.
    split; [|auto]. apply Hnd; [reflexivity|].
    rewrite drop_app_le by (apply lookup_lt_Some in Hq; lia).
    rewrite <- Permutation_cons_append. reflexivity.
Qed.

Lemma rr_while_eq fuel s :
  rr_while fuel s =
    if (rr_qstart s <? rr_qend s)%nat then
      match fuel with
      | O => OutOfFuel
      | S fuel => s ← rr_body s; rr_while fuel s
      end
    else Ok s.
Proof. destruct fuel; reflexivity. Qed.

Lemma rr_while_inv defs fuel : forall s s',
  rr_inv defs s -> rr_while fuel s = Ok s' ->
  rr_inv defs s' /\ rr_waiting s' = [] /\ rr_t s <= rr_t s'.
Proof.
  induction fuel as [|fuel IH]; intros s s' Hinv H; rewrite rr_while_eq in H.
  - destruct (rr_qstart s <? rr_qend s)%nat eqn:E; [discriminate|].
    injection H as <-. apply Nat.ltb_ge in E.
    split; [exact Hinv | split; [apply drop_ge; exact E | lra] ].
  - destruct (rr_qstart s <? rr_qend s)%nat eqn:E.
    + destruct (rr_body s) as [s1| |] eqn:Hb; try discriminate.
      cbn in H. destruct (rr_body_inv _ _ _ Hinv Hb) as (Hinv1 & Ht & _).
      destruct (IH _ _ Hinv1 H) as (? & ? & ?).
      split; [assumption | split; [assumption | lra] ].
    + injection H as <-. apply Nat.ltb_ge in E.
      split; [exact Hinv | split; [apply drop_ge; exact E | lra] ].
Qed.

Lemma rr_init_inv defs :
  Forall (fun d => 0 <= total_cpu_needed d) defs -> rr_inv defs (rr_init defs).
Proof. intros H. apply sched_inv_init. exact H. Qed.

Lemma valid_scenario_nonneg defs :
  valid_scenario defs -> Forall (fun d => 0 <= total_cpu_needed d) defs.
Proof.
  intros H. eapply Forall_impl; [exact H|]. intros d (Hd & _). cbn. lra.
Qed.

Lemma run_rr_post defs fuel procs res :
  valid_scenario defs ->
  run_rr fuel defs = Ok (procs, res) ->
  run_post defs procs res.
Proof.
  intros Hv H. unfold run_rr in H.
  destruct (rr_while fuel (rr_init defs)) as [s| |] eqn:Hw; try discriminate.
  cbn in H. injection H as <- <-.
  destruct (rr_while_inv defs fuel _ _
              (rr_init_inv defs (valid_scenario_nonneg _ Hv)) Hw) as (Hinv & He & _).
  unfold rr_inv in Hinv. rewrite He in Hinv.
  exact (sched_inv_final _ _ _ _ Hinv).
Qed.

(** ** MLFQ: the loop and its invariant *)

Lemma concat_insert_head (qs : list (list nat)) k i q :
  qs !! k = Some (i :: q) ->
  Permutation (concat qs) (i :: concat (<[k:=q]> qs)).
Proof.
  revert k. induction qs as [|q0 qs IH]; intros [|k] H; try discriminate.
  - injection H as ->. reflexivity.
  - cbn in *. rewrite (IH _ H). symmetry. apply Permutation_middle.
Qed.

Lemma concat_alter_snoc (qs : list (list nat)) k i :
  (k < length qs)%nat ->
  Permutation (concat (alter (fun q => q ++ [i]) k qs)) (i :: concat qs).
Proof.
  revert k. induction qs as [|q0 qs IH]; intros [|k] H; cbn in *; try lia.
  - rewrite <- app_assoc. cbn. symmetry. apply Permutation_middle.
  - rewrite IH by lia. symmetry. apply Permutation_middle.
Qed.

(** The level found is the first one that is not empty. *)
Lemma first_nonempty_Some qs : forall k j,
  first_nonempty qs k = Some j ->
  (k <= j)%nat /\
  (exists i q, qs !! (j - k)%nat = Some (i :: q)) /\
  (forall l q, (l < j - k)%nat -> qs !! l = Some q -> q = []).
Proof.
  induction qs as [|q0 qs IH]; intros k j H; cbn in H; [discriminate|].
  destruct q0 as [|i q]; cbn in H.
  - destruct (IH _ _ H) as (Hle & (i & q & Hq) & Hbelow).
    split; [lia|]. split.
    + exists i, q. replace (j - k)%nat with (S (j - S k)) by lia. exact Hq.
    + intros [|l] q' Hl Hq'; [injection Hq' as <-; reflexivity|].
      apply (Hbelow l); [lia | exact Hq'].
  - injection H as <-. split; [lia|]. rewrite Nat.sub_diag. split; [eauto|].
    intros l q' Hl. lia.
Qed.

Lemma first_nonempty_None qs : forall k,
  first_nonempty qs k = None -> concat qs = [].
Proof.
  induction qs as [|q0 qs IH]; intros k H; cbn in *; [reflexivity|].
  destruct q0; cbn in H; [|discriminate]. cbn. eauto.
Qed.

Lemma next_level_bounds qidx taken :
  (qidx < LEVELS)%nat ->
  (qidx <= next_level qidx taken < LEVELS)%nat.
Proof.
  intros H. unfold next_level, LEVELS in *.
  destruct (used_quantum taken); [|lia].
  destruct (qidx <? 3 - 1)%nat eqn:E; [apply Nat.ltb_lt in E|]; cbn in *; lia.
Qed.

Lemma mlfq_body_turn qidx s i q p p' taken t' :
  mq_queues s !! qidx = Some (i :: q) ->
  mq_procs s !! i = Some p ->
  quantum_turn p (mq_t s) = (p', taken, t') ->
  mlfq_body qidx s =
    if is_done p' then
      Ok (mkMLFQ (<[i:=set_finish_time p' t']> (mq_procs s))
            (<[qidx:=q]> (mq_queues s))
            (mq_res s ++ [emit (set_finish_time p' t')]) t')
    else
      Ok (mkMLFQ (<[i:=p']> (mq_procs s))
            (alter (fun q => q ++ [i]) (next_level qidx taken)
               (<[qidx:=q]> (mq_queues s)))
            (mq_res s) t').
Proof.
  intros Hq Hp Hturn. unfold mlfq_body. rewrite Hq, Hp.
  unfold quantum_turn in Hturn.
  destruct (eat_cpu (mark_first_run p (mq_t s)) QUANTUM) as [[p1 tk] io].
  injection Hturn as -> -> <-.
  destruct (is_done p'); reflexivity.
Qed.

Lemma mlfq_body_inv defs qidx s s' :
  mlfq_inv defs s -> mlfq_body qidx s = Ok s' ->
  mlfq_inv defs s' /\ mq_t s <= mq_t s'.
Proof.
  intros [Hlen Hinv] Hb.
  destruct (mq_queues s !! qidx) as [[|i q]|] eqn:Hq;
    try (unfold mlfq_body in Hb; rewrite Hq in Hb; discriminate).
  pose proof (concat_insert_head _ _ _ _ Hq) as Hperm.
  destruct (sched_inv_waiting _ _ _ _ _ i Hinv) as [p Hp].
  { unfold mlfq_waiting. rewrite Hperm. left. }
  destruct (quantum_turn p (mq_t s)) as [[p' taken] t'] eqn:Hturn.
  rewrite (mlfq_body_turn qidx s i q p p' taken t' Hq Hp Hturn) in Hb.
  destruct (sched_inv_turn _ _ _ _ _ _ _ _ _ _ _ Hinv Hperm Hp Hturn)
    as (Htt & _ & Hnd & Hd).
  assert (Hqidx : (qidx < LEVELS)%nat).
  { rewrite <- Hlen. eapply lookup_lt_Some; eauto. }
  destruct (is_done p') eqn:Hdone; injection Hb as <-;
    unfold mlfq_inv, mlfq_waiting; cbn.
  - split; [|exact Htt]. split; [rewrite length_insert; exact Hlen|].
    apply Hd; reflexivity.
  - split; [|exact Htt]. split.
    { rewrite length_alter, length_insert. exact Hlen. }
    apply Hnd; [reflexivity|].
    apply concat_alter_snoc. rewrite length_insert, Hlen.
    apply next_level_bounds. exact Hqidx.
Qed.

Lemma mlfq_while_eq fuel s :
  mlfq_while fuel s =
    match first_nonempty (mq_queues s) 0 with
    | None => Ok s
    | Some qidx =>
        match fuel with
        | O => OutOfFuel
        | S fuel => s ← mlfq_body qidx s; mlfq_while fuel s
        end
    end.
Proof. destruct fuel; reflexivity. Qed.

Lemma mlfq_while_inv defs fuel : forall s s',
  mlfq_inv defs s -> mlfq_while fuel s = Ok s' ->
  mlfq_inv defs s' /\ mlfq_waiting s' = [] /\ mq_t s <= mq_t s'.
Proof.
  induction fuel as [|fuel IH]; intros s s' Hinv H; rewrite mlfq_while_eq in H;
    destruct (first_nonempty (mq_queues s) 0) as [qidx|] eqn:E;
    try discriminate;
    try (injection H as <-;
         split; [exact Hinv | split; [eapply first_nonempty_None; eauto | lra] ]).
  destruct (mlfq_body qidx s) as [s1| |] eqn:Hb; try discriminate.
  cbn in H. destruct (mlfq_body_inv _ _ _ _ Hinv Hb) as (Hinv1 & Ht).
  destruct (IH _ _ Hinv1 H) as (? & ? & ?).
  split; [assumption | split; [assumption | lra] ].
Qed.

Lemma mlfq_init_inv defs :
  Forall (fun d => 0 <= total_cpu_needed d) defs -> mlfq_inv defs (mlfq_init defs).
Proof.
  intros H. split; [reflexivity|].
  unfold mlfq_init, mlfq_waiting. cbn. rewrite app_nil_r.
  apply sched_inv_init. exact H.
Qed.

Lemma run_mlfq_post defs fuel procs res :
  valid_scenario defs ->
  run_mlfq fuel defs = Ok (procs, res) ->
  run_post defs procs res.
Proof.
  intros Hv H. unfold run_mlfq in H.
  destruct (mlfq_while fuel (mlfq_init defs)) as [s| |] eqn:Hw; try discriminate.
  cbn in H. injection H as <- <-.
  destruct (mlfq_while_inv defs fuel _ _
              (mlfq_init_inv defs (valid_scenario_nonneg _ Hv)) Hw)
    as ([_ Hinv] & He & _).
  rewrite He in Hinv. exact (sched_inv_final _ _ _ _ Hinv).
Qed.

(** ** FIFO and SJF: what the loops leave *)

(** A turn of the [while] loop of [run_fifo]: the budget is positive, so the
    clock does not move back. *)
Lemma fifo_turn p t p' taken io_dur :
  proc_inv p -> is_done p = false ->
  eat_cpu p (remaining p) = (p', taken, io_dur) ->
  proc_inv p' /\ 0 <= taken /\ t <= advance t taken io_dur.
Proof.
  intros Hinv Hnd He. apply is_done_false in Hnd.
  assert (Hdt : 0 < remaining p) by (unfold EPS in Hnd; lra).
  destruct (eat_cpu_taken _ _ _ _ _ Hdt (proj1 Hinv) He) as (T1 & _).
  split; [eapply eat_cpu_inv; eauto|]. split; [exact T1|].
  apply advance_ge. exact T1.
Qed.

Lemma fifo_while_post fuel p t p' t' :
  proc_inv p -> fifo_while fuel p t = Ok (p', t') ->
  proc_inv p' /\ same_definition p p' /\ t <= t' /\
  first_run_time p' = first_run_time p /\ is_done p' = true.
Proof.
  intros Hinv H.
  pose (P := fun (q : Process) (tq : Q) =>
    proc_inv q /\ same_definition p q /\ t <= tq /\
    first_run_time q = first_run_time p).
  destruct (fifo_while_ind P) with (fuel := fuel) (p := p) (t := t)
    (p' := p') (t' := t') as [(H1 & H2 & H3 & H4) H5]; auto.
  - intros q tq q' taken io_dur (I1 & I2 & I3 & I4) Hnd He.
    destruct (fifo_turn q tq q' taken io_dur I1 Hnd He) as (J1 & J2 & J3).
    destruct (eat_cpu_frame _ _ _ _ _ He) as (F1 & F2 & F3 & F4 & F5).
    unfold P. split; [exact J1|]. split.
    { eapply same_definition_trans; [exact I2|]. repeat split; auto. }
    split; [lra | congruence].
  - unfold P. split; [exact Hinv|]. split; [repeat split|]. split; [lra|reflexivity].
Qed.

Lemma fifo_for_post fuel : forall procs t procs' res t',
  0 <= t ->
  Forall (fun p => proc_inv p /\ first_run_time p <= t) procs ->
  fifo_for fuel procs t = Ok (procs', res, t') ->
  t <= t' /\ Forall2 same_definition procs procs' /\
  Forall completed procs' /\ res = map emit procs'.
Proof.
  induction procs as [|p rest IH]; intros t procs' res t' Ht Hall H; cbn in H.
  - injection H as <- <- <-. repeat split; try constructor. lra.
  - inversion Hall as [|? ? [Hp Hfr] Hrest]; subst.
    destruct (fifo_while fuel (mark_first_run p t) t) as [[p1 t1]| |] eqn:Hw;
      try discriminate.
    cbn in H.
    destruct (fifo_for fuel rest t1) as [[[rest' res'] t2]| |] eqn:Hf;
      try discriminate.
    cbn in H. injection H as <- <- <-.
    destruct (fifo_while_post _ _ _ _ _ (mark_first_run_inv p t Hp) Hw)
      as (I1 & I2 & I3 & I4 & I5).
    destruct (mark_first_run_time p t Ht Hfr) as [M1 M2].
    destruct (mark_first_run_fields p t) as (N1 & N2 & N3 & _).
    assert (Hrest1 : Forall (fun p => proc_inv p /\ first_run_time p <= t1) rest).
    { eapply Forall_impl; [exact Hrest|]. cbn. intros q [? ?]. split; [auto|lra]. }
    assert (Ht1 : 0 <= t1) by lra.
    destruct (IH t1 rest' res' t2 Ht1 Hrest1 Hf) as (K1 & K2 & K3 & K4).
    split; [lra|]. split.
    { constructor; [|exact K2].
      destruct I2 as (? & ? & ?). unfold same_definition. cbn.
      repeat split; congruence. }
    split.
    { constructor; [|exact K3]. apply is_done_true in I5.
      split; [exact I1|]. cbn. rewrite I4.
      split; [exact I5|]. split; [exact M1 | lra]. }
    rewrite K4. reflexivity.
Qed.

Lemma clone_same_definition defs :
  Forall2 same_definition defs (clone_processes defs).
Proof. induction defs; constructor; [repeat split | auto]. Qed.

Lemma clone_processes_inv defs t :
  0 <= t -> Forall (fun d => 0 <= total_cpu_needed d) defs ->
  Forall (fun p => proc_inv p /\ first_run_time p <= t) (clone_processes defs).
Proof.
  intros Ht H. induction H; constructor; auto.
  split; [apply clone_process_inv; auto | cbn; lra].
Qed.

Lemma Forall2_same_definition_trans l1 : forall l2 l3,
  Forall2 same_definition l1 l2 -> Forall2 same_definition l2 l3 ->
  Forall2 same_definition l1 l3.
Proof.
  induction l1; intros l2 l3 H12 H23; inversion H12; subst;
    inversion H23; subst; constructor; eauto using same_definition_trans.
Qed.

Lemma run_fifo_post defs fuel procs res :
  valid_scenario defs ->
  run_fifo fuel defs = Ok (procs, res) ->
  run_post defs procs res /\ res = map emit procs.
Proof.
  intros Hv H. unfold run_fifo in H.
  destruct (fifo_for fuel (clone_processes defs) 0) as [[[ps rs] t]| |] eqn:Hf;
    try discriminate.
  cbn in H. injection H as <- <-.
  destruct (fifo_for_post fuel _ _ _ _ _ (Qle_refl 0)
              (clone_processes_inv defs 0 (Qle_refl 0) (valid_scenario_nonneg _ Hv)) Hf)
    as (_ & K2 & K3 & K4).
  split; [|exact K4]. split; [|split; [exact K3 | rewrite K4; reflexivity] ].
  eapply Forall2_same_definition_trans; [apply clone_same_definition | exact K2].
Qed.

(** Under SJF the array is the sorted one: [procs] follows the order [qsort]
    gave, which is a rearrangement of the scenario. *)
Lemma run_sjf_post qsort defs fuel procs res :
  qsort_contract qsort ->
  valid_scenario defs ->
  run_sjf qsort fuel defs = Ok (procs, res) ->
  Forall2 same_definition (qsort cmp_total_cpu (clone_processes defs)) procs /\
  (exists defs', Permutation defs' defs /\ run_post defs' procs res) /\
  res = map emit procs.
Proof.
  intros Hq Hv H. unfold run_sjf in H. rewrite sjf_for_fifo in H.
  destruct (Hq (clone_processes defs)) as [Hperm _].
  destruct (fifo_for fuel (qsort cmp_total_cpu (clone_processes defs)) 0)
    as [[[ps rs] t]| |] eqn:Hf; try discriminate.
  cbn in H. injection H as <- <-.
  assert (Hall : Forall (fun p => proc_inv p /\ first_run_time p <= 0)
                   (qsort cmp_total_cpu (clone_processes defs))).
  { rewrite Hperm.
    apply clone_processes_inv; [lra | apply valid_scenario_nonneg; exact Hv]. }
  destruct (fifo_for_post fuel _ _ _ _ _ (Qle_refl 0) Hall Hf) as (_ & K2 & K3 & K4).
  split; [exact K2|]. split; [|exact K4].
  destruct (@Permutation_map_inv _ _ clone_process _ defs Hperm)
    as (defs' & Hd1 & Hd2).
  exists defs'. split; [symmetry; exact Hd2|].
  split; [|split; [exact K3 | rewrite K4; reflexivity] ].
  rewrite Hd1 in K2.
  eapply Forall2_same_definition_trans; [apply clone_same_definition | exact K2].
Qed.

(** ** FIFO and SJF return *)

Lemma pend_mark_first_run p t : pend (mark_first_run p t) = pend p.
Proof.
  unfold pend, io_count.
  destruct (mark_first_run_fields p t) as (_ & _ & -> & _ & _ & _ & ->).
  reflexivity.
Qed.

Lemma fifo_for_total fuel : forall procs t,
  Forall (fun p => (pend p < fuel)%nat) procs ->
  exists r, fifo_for fuel procs t = Ok r.
Proof.
  induction procs as [|p rest IH]; intros t Hall; cbn; [eauto|].
  inversion Hall as [|? ? Hp Hrest]; subst.
  destruct (fifo_while_total fuel (mark_first_run p t) t) as (p1 & t1 & ->).
  { rewrite pend_mark_first_run. exact Hp. }
  cbn. destruct (IH t1 Hrest) as [[[rest' res] t2] ->]. cbn. eauto.
Qed.

Lemma fifo_for_mono fuel fuel' : forall procs t r,
  fifo_for fuel procs t = Ok r -> (fuel <= fuel')%nat ->
  fifo_for fuel' procs t = Ok r.
Proof.
  induction procs as [|p rest IH]; intros t r H Hle; cbn in *; [exact H|].
  destruct (fifo_while fuel (mark_first_run p t) t) as [[p1 t1]| |] eqn:Hw;
    try discriminate.
  rewrite (fifo_while_mono _ _ _ _ _ Hw Hle). cbn in *.
  destruct (fifo_for fuel rest t1) as [[[rest' res] t2]| |] eqn:Hf;
    try discriminate.
  rewrite (IH _ _ Hf Hle). exact H.
Qed.

Lemma run_fifo_mono fuel fuel' defs r :
  run_fifo fuel defs = Ok r -> (fuel <= fuel')%nat -> run_fifo fuel' defs = Ok r.
Proof.
  unfold run_fifo. intros H Hle.
  destruct (fifo_for fuel (clone_processes defs) 0) as [x| |] eqn:Hf;
    try discriminate.
  rewrite (fifo_for_mono _ _ _ _ _ Hf Hle). exact H.
Qed.

Lemma clone_pend_lt defs :
  Forall (fun p => (pend p < fifo_fuel defs)%nat) (clone_processes defs).
Proof.
  unfold fifo_fuel. induction defs as [|d defs IH]; constructor.
  - unfold pend, io_count. cbn. lia.
  - eapply Forall_impl; [exact IH|]. cbn. intros p Hp. lia.
Qed.

Lemma run_fifo_total defs fuel :
  (fifo_fuel defs <= fuel)%nat ->
  exists procs res, run_fifo fuel defs = Ok (procs, res).
Proof.
  intros Hle.
  destruct (fifo_for_total (fifo_fuel defs) (clone_processes defs) 0
              (clone_pend_lt defs)) as [[[procs res] t] H].
  exists procs, res. apply (run_fifo_mono (fifo_fuel defs)); [|exact Hle].
  unfold run_fifo. rewrite H. reflexivity.
Qed.

Lemma run_sjf_total qsort defs fuel :
  qsort_contract qsort ->
  (fifo_fuel defs <= fuel)%nat ->
  exists procs res, run_sjf qsort fuel defs = Ok (procs, res).
Proof.
  intros Hq Hle. unfold run_sjf. rewrite sjf_for_fifo.
  destruct (Hq (clone_processes defs)) as [Hperm _].
  destruct (fifo_for_total (fifo_fuel defs)
              (qsort cmp_total_cpu (clone_processes defs)) 0) as [[[procs res] t] H].
  { rewrite Hperm. apply clone_pend_lt. }
  exists procs, res. rewrite (fifo_for_mono _ _ _ _ _ H Hle). reflexivity.
Qed.

(** ** Scenario 1 under FIFO *)

(** C3: Scenario 1 (A:10, B:15, C:20, no I/O) under FIFO yields
    Elapsed 10, 25, 45; CPU 10, 15, 20; BLOCKED 0, 0, 0; FirstRun 0, 10, 25,
    whatever fuel (at least one turn) the loops are given. *)
Theorem run_fifo_scenario1 (fuel : nat) :
  exists procs,
    run_fifo (S fuel) make_scenario1 =
      Ok (procs,
          [ mkResult "A" 10 10 0 0;
            mkResult "B" 25 15 0 10;
            mkResult "C" 45 20 0 25 ]).
Proof.
  eexists. apply (run_fifo_mono 1); [|lia].
  vm_compute. reflexivity.
Qed.

(** ** The queue-driven loops do not run forever *)

Lemma turns_left_mark_first_run p t : turns_left (mark_first_run p t) = turns_left p.
Proof.
  unfold turns_left, quanta_left. rewrite pend_mark_first_run.
  destruct (mark_first_run_fields p t) as (_ & _ & _ & -> & _). reflexivity.
Qed.

Lemma work_insert_notin procs i (x : Process) w :
  i ∉ w -> work (<[i:=x]> procs) w = work procs w.
Proof.
  unfold work. induction w as [|j w IH]; intros Hi; cbn; [reflexivity|].
  rewrite IH by (intros H; apply Hi; right; exact H).
  rewrite list_lookup_total_insert_ne; [reflexivity|].
  intros ->. apply Hi. left.
Qed.

Lemma work_turn procs waiting i w p t p' taken t' :
  NoDup waiting ->
  Permutation waiting (i :: w) ->
  procs !! i = Some p ->
  quantum_turn p t = (p', taken, t') ->
  (is_done p' = false -> forall waiting', Permutation waiting' (i :: w) ->
     (work (<[i:=p']> procs) waiting' < work procs waiting)%nat) /\
  (forall x waiting', Permutation waiting' w ->
     (work (<[i:=x]> procs) waiting' < work procs waiting)%nat).
Proof.
  intros Hnd Hw Hp Hturn.
  assert (Hiw : i ∉ w).
  { rewrite Hw in Hnd. apply NoDup_cons in Hnd. tauto. }
  assert (Hwork : work procs waiting = S (turns_left p + work procs w)).
  { unfold work. rewrite (sum_list_with_Permutation_proper _ _ _ Hw). cbn.
    rewrite (list_lookup_total_correct _ _ _ Hp). reflexivity. }
  assert (Hlen : (i < length procs)%nat) by (eapply lookup_lt_Some; eauto).
  split.
  - intros Hdone waiting' Hw'.
    unfold quantum_turn in Hturn.
    destruct (eat_cpu (mark_first_run p t) QUANTUM) as [[p1 tk] io] eqn:He.
    injection Hturn as -> -> <-.
    pose proof (eat_quantum_progress _ _ _ _ He Hdone) as Hlt.
    rewrite turns_left_mark_first_run in Hlt.
    rewrite Hwork. unfold work at 1.
    rewrite (sum_list_with_Permutation_proper _ _ _ Hw'). cbn.
    rewrite list_lookup_total_insert_eq by exact Hlen.
    fold (work (<[i:=p']> procs) w). rewrite work_insert_notin by exact Hiw. lia.
  - intros x waiting' Hw'. rewrite Hwork. unfold work at 1.
    rewrite (sum_list_with_Permutation_proper _ _ _ Hw').
    fold (work (<[i:=x]> procs) w). rewrite work_insert_notin by exact Hiw. lia.
Qed.

Lemma mlfq_body_work defs qidx s :
  mlfq_inv defs s ->
  first_nonempty (mq_queues s) 0 = Some qidx ->
  exists s', mlfq_body qidx s = Ok s' /\
    (work (mq_procs s') (mlfq_waiting s') < work (mq_procs s) (mlfq_waiting s))%nat.
Proof.
  intros [Hlen Hinv] Hfirst.
  destruct (first_nonempty_Some _ _ _ Hfirst) as (_ & (i & q & Hq) & _).
  rewrite Nat.sub_0_r in Hq.
  pose proof (concat_insert_head _ _ _ _ Hq) as Hperm.
  destruct (sched_inv_waiting _ _ _ _ _ i Hinv) as [p Hp].
  { unfold mlfq_waiting. rewrite Hperm. left. }
  destruct (quantum_turn p (mq_t s)) as [[p' taken] t'] eqn:Hturn.
  rewrite (mlfq_body_turn qidx s i q p p' taken t' Hq Hp Hturn).
  destruct (work_turn _ _ _ _ _ _ _ _ _ (sched_inv_NoDup _ _ _ _ _ Hinv)
              Hperm Hp Hturn) as [Hnd Hd].
  assert (Hqidx : (qidx < LEVELS)%nat).
  { rewrite <- Hlen. eapply lookup_lt_Some; eauto. }
  destruct (is_done p') eqn:Hdone; eexists; (split; [reflexivity|]);
    unfold mlfq_waiting; cbn.
  - apply Hd. reflexivity.
  - apply Hnd; [reflexivity|].
    apply concat_alter_snoc. rewrite length_insert, Hlen.
    apply next_level_bounds. exact Hqidx.
Qed.

Lemma mlfq_while_total defs fuel : forall s,
  mlfq_inv defs s ->
  (work (mq_procs s) (mlfq_waiting s) <= fuel)%nat ->
  exists s', mlfq_while fuel s = Ok s'.
Proof.
  induction fuel as [|fuel IH]; intros s Hinv Hwork; rewrite mlfq_while_eq;
    destruct (first_nonempty (mq_queues s) 0) as [qidx|] eqn:E; eauto;
    destruct (mlfq_body_work _ _ _ Hinv E) as (s1 & Hb & Hlt); [lia|].
  rewrite Hb. cbn. apply IH; [|lia].
  exact (proj1 (mlfq_body_inv _ _ _ _ Hinv Hb)).
Qed.

Lemma mlfq_while_mono fuel : forall s r fuel',
  mlfq_while fuel s = Ok r -> (fuel <= fuel')%nat -> mlfq_while fuel' s = Ok r.
Proof.
  induction fuel as [|fuel IH]; intros s r fuel' H Hle;
    rewrite mlfq_while_eq in H; rewrite mlfq_while_eq;
    destruct (first_nonempty (mq_queues s) 0) as [qidx|]; try discriminate;
    try exact H.
  destruct fuel' as [|fuel']; [lia|].
  destruct (mlfq_body qidx s) as [s1| |]; try discriminate.
  cbn in *. apply IH; [exact H | lia].
Qed.

Lemma run_mlfq_total defs fuel :
  valid_scenario defs ->
  (queue_fuel defs <= fuel)%nat ->
  exists procs res, run_mlfq fuel defs = Ok (procs, res).
Proof.
  intros Hv Hle.
  destruct (mlfq_while_total defs (queue_fuel defs) (mlfq_init defs)) as [s Hs].
  - apply mlfq_init_inv, valid_scenario_nonneg, Hv.
  - unfold mlfq_init, mlfq_waiting. cbn. rewrite app_nil_r. reflexivity.
  - exists (mq_procs s), (mq_res s). unfold run_mlfq.
    rewrite (mlfq_while_mono _ _ _ _ Hs Hle). reflexivity.
Qed.

(** The Round-Robin loop stops as well, by returning or by writing past the
    end of [queue]. *)
Lemma rr_work_pos s :
  (rr_qstart s < rr_qend s)%nat -> (0 < work (rr_procs s) (rr_waiting s))%nat.
Proof.
  intros Hlt. destruct (rr_head_Some s Hlt) as [i Hq].
  rewrite (rr_waiting_head s i Hq). unfold work. cbn. lia.
Qed.

Lemma rr_body_work defs s :
  rr_inv defs s ->
  (rr_qstart s < rr_qend s)%nat ->
  rr_body s = OutOfBounds \/
  exists s', rr_body s = Ok s' /\
    (work (rr_procs s') (rr_waiting s') < work (rr_procs s) (rr_waiting s))%nat.
Proof.
  intros Hinv Hlt.
  destruct (rr_head_Some s Hlt) as [i Hq].
  pose proof (rr_waiting_head s i Hq) as Hw.
  destruct (sched_inv_waiting _ _ _ _ _ i Hinv) as [p Hp].
  { rewrite Hw. left. }
  destruct (quantum_turn p (rr_t s)) as [[p' taken] t'] eqn:Hturn.
  rewrite (rr_body_turn s i p p' taken t' Hq Hp Hturn).
  assert (Hperm : Permutation (rr_waiting s) (i :: drop (S (rr_qstart s)) (rr_queue s)))
    by (rewrite Hw; reflexivity).
  destruct (work_turn _ _ _ _ _ _ _ _ _ (sched_inv_NoDup _ _ _ _ _ Hinv)
              Hperm Hp Hturn) as [Hnd Hd].
  destruct (is_done p') eqn:Hdone.
  - right. eexists. split; [reflexivity|]. unfold rr_waiting at 1. cbn.
    apply Hd. reflexivity.
  - destruct (rr_qend s <? rr_cap s)%nat; [|left; reflexivity].
    right. eexists. split; [reflexivity|]. unfold rr_waiting at 1. cbn.
    apply Hnd; [reflexivity|].
    rewrite drop_app_le by (apply lookup_lt_Some in Hq; lia).
    rewrite <- Permutation_cons_append. reflexivity.
Qed.

Lemma rr_while_stops defs fuel : forall s,
  rr_inv defs s ->
  (work (rr_procs s) (rr_waiting s) <= fuel)%nat ->
  rr_while fuel s <> OutOfFuel.
Proof.
  induction fuel as [|fuel IH]; intros s Hinv Hwork; rewrite rr_while_eq;
    destruct (rr_qstart s <? rr_qend s)%nat eqn:E; try discriminate;
    apply Nat.ltb_lt in E.
  - pose proof (rr_work_pos s E). lia.
  - destruct (rr_body_work _ _ Hinv E) as [Hb|(s1 & Hb & Hlt)];
      rewrite Hb; cbn; try discriminate.
    apply IH; [|lia]. exact (proj1 (rr_body_inv _ _ _ Hinv Hb)).
Qed.

(** ** SJF: the order of execution *)

Lemma cmp_total_cpu_le a b :
  (cmp_total_cpu a b <= 0)%Z <-> total_cpu_needed a <= total_cpu_needed b.
Proof.
  unfold cmp_total_cpu.
  destruct (Qltb (total_cpu_needed a) (total_cpu_needed b)) eqn:E1;
    [|destruct (Qltb (total_cpu_needed b) (total_cpu_needed a)) eqn:E2];
    q_bool; split; intros H; try lia; try lra.
Qed.

Lemma cmp_total_cpu_lt a b :
  (cmp_total_cpu a b < 0)%Z <-> total_cpu_needed a < total_cpu_needed b.
Proof.
  unfold cmp_total_cpu.
  destruct (Qltb (total_cpu_needed a) (total_cpu_needed b)) eqn:E1;
    [|destruct (Qltb (total_cpu_needed b) (total_cpu_needed a)) eqn:E2];
    q_bool; split; intros H; try lia; try lra.
Qed.

Section InsertionSort.

Variable before : Process -> Process -> bool.
Hypothesis before_le : forall x y,
  before x y = true -> total_cpu_needed x <= total_cpu_needed y.
Hypothesis before_ge : forall x y,
  before x y = false -> total_cpu_needed y <= total_cpu_needed x.

Lemma insert_by_perm x l : Permutation (insert_by before x l) (x :: l).
Proof.
  induction l as [|y l IH]; cbn; [reflexivity|].
  destruct (before x y); [reflexivity|].
  rewrite IH. apply perm_swap.
Qed.

Lemma insert_by_sorted x l :
  StronglySorted le_total_cpu l -> StronglySorted le_total_cpu (insert_by before x l).
Proof.
  induction 1 as [|y l Hs IH Hall]; cbn.
  - constructor; constructor.
  - destruct (before x y) eqn:E.
    + constructor; [constructor; assumption|].
      apply before_le in E. constructor.
      * apply cmp_total_cpu_le. exact E.
      * eapply List.Forall_impl; [|exact Hall]. intros z Hz.
        apply cmp_total_cpu_le. apply cmp_total_cpu_le in Hz. lra.
    + constructor; [exact IH|].
      apply before_ge in E.
      assert (Hp : Permutation (insert_by before x l) (x :: l))
        by apply insert_by_perm.
      rewrite Hp. constructor; [apply cmp_total_cpu_le; exact E | exact Hall].
Qed.

Lemma isort_contract l :
  Permutation (foldr (insert_by before) [] l) l /\
  StronglySorted le_total_cpu (foldr (insert_by before) [] l).
Proof.
  induction l as [|x l [IH1 IH2]]; cbn.
  - split; constructor.
  - split; [rewrite insert_by_perm, IH1; reflexivity|].
    apply insert_by_sorted. exact IH2.
Qed.

End InsertionSort.

Lemma stable_qsort_contract : qsort_contract stable_qsort.
Proof.
  intros l. apply isort_contract.
  - intros x y H. apply Z.leb_le in H. apply cmp_total_cpu_le. exact H.
  - intros x y H. apply Z.leb_gt in H.
    assert (~ total_cpu_needed x <= total_cpu_needed y)
      by (rewrite <- cmp_total_cpu_le; lia).
    lra.
Qed.

(** [stable_qsort] keeps the cells of equal demand in their order. *)
Lemma filter_cons_app {A} (f : A -> bool) x l :
  List.filter f (x :: l) = List.filter f [x] ++ List.filter f l.
Proof. cbn. destruct (f x); reflexivity. Qed.

Lemma filter_two_demands k x y :
  ~ total_cpu_needed x == total_cpu_needed y ->
  List.filter (same_demand k) [x] ++ List.filter (same_demand k) [y]
  = List.filter (same_demand k) [y] ++ List.filter (same_demand k) [x].
Proof.
  intros Hne. cbn. unfold same_demand.
  destruct (Qeq_bool (total_cpu_needed x) k) eqn:Ex;
    destruct (Qeq_bool (total_cpu_needed y) k) eqn:Ey; try reflexivity.
  apply Qeq_bool_iff in Ex, Ey. exfalso. apply Hne. rewrite Ex, Ey. reflexivity.
Qed.

Lemma insert_le_filter k x l :
  List.filter (same_demand k)
    (insert_by (fun x y => (cmp_total_cpu x y <=? 0)%Z) x l)
  = List.filter (same_demand k) [x] ++ List.filter (same_demand k) l.
Proof.
  induction l as [|y l IH]; [symmetry; apply app_nil_r|].
  cbn [insert_by]. destruct (Z.leb_spec (cmp_total_cpu x y) 0) as [Hle|Hgt].
  - apply filter_cons_app.
  - assert (Hyx : total_cpu_needed y < total_cpu_needed x).
    { apply Qnot_le_lt. rewrite <- cmp_total_cpu_le. lia. }
    rewrite (filter_cons_app _ y), IH, (filter_cons_app _ y l), !app_assoc.
    f_equal. apply filter_two_demands. lra.
Qed.

Lemma stable_qsort_stable k l :
  List.filter (same_demand k) (stable_qsort cmp_total_cpu l)
  = List.filter (same_demand k) l.
Proof.
  induction l as [|x l IH]; [reflexivity|].
  change (stable_qsort cmp_total_cpu (x :: l))
    with (insert_by (fun x y => (cmp_total_cpu x y <=? 0)%Z) x
            (stable_qsort cmp_total_cpu l)).
  rewrite insert_le_filter, IH. symmetry. apply filter_cons_app.
Qed.

(** The names of the results follow the order of the cells, and the demands
    are not touched. *)
Lemma fifo_while_same fuel p t p' t' :
  fifo_while fuel p t = Ok (p', t') -> same_definition p p'.
Proof.
  intros H.
  destruct (fifo_while_ind (fun q _ => same_definition p q)) with (fuel := fuel)
    (p := p) (t := t) (p' := p') (t' := t') as [H1 _]; auto.
  - intros q tq q' taken io_dur I _ He.
    destruct (eat_cpu_frame _ _ _ _ _ He) as (F1 & F2 & F3 & _).
    eapply same_definition_trans; [exact I|]. repeat split; auto.
  - repeat split.
Qed.

Lemma fifo_for_order fuel : forall procs t procs' res t',
  fifo_for fuel procs t = Ok (procs', res, t') ->
  Forall2 same_definition procs procs' /\ res = map emit procs' /\
  map res_name res = map name procs.
Proof.
  induction procs as [|p rest IH]; intros t procs' res t' H; cbn in H.
  - injection H as <- <- <-. repeat split; constructor.
  - destruct (fifo_while fuel (mark_first_run p t) t) as [[p1 t1]| |] eqn:Hw;
      try discriminate.
    cbn in H.
    destruct (fifo_for fuel rest t1) as [[[rest' res'] t2]| |] eqn:Hf;
      try discriminate.
    cbn in H. injection H as <- <- <-.
    destruct (IH _ _ _ _ Hf) as (K1 & K2 & K3).
    destruct (fifo_while_same _ _ _ _ _ Hw) as (S1 & S2 & S3).
    destruct (mark_first_run_fields p t) as (N1 & N2 & N3 & _).
    split; [|split].
    + constructor; [|exact K1]. unfold same_definition. cbn.
      repeat split; congruence.
    + rewrite K2. reflexivity.
    + cbn. rewrite K3. f_equal. congruence.
Qed.

(** Two arrangements of the same cells that are both in ascending order of
    demand and both keep the cells of equal demand in their order are the
    same arrangement. *)
Lemma same_demand_refl p : same_demand (total_cpu_needed p) p = true.
Proof. unfold same_demand. apply Qeq_bool_iff. reflexivity. Qed.

Lemma sorted_head_le (a : Process) l b :
  StronglySorted le_total_cpu (a :: l) -> In b (a :: l) ->
  total_cpu_needed a <= total_cpu_needed b.
Proof.
  intros Hs [<-|Hb]; [lra|].
  inversion Hs as [|? ? _ Hall]; subst.
  rewrite List.Forall_forall in Hall. apply cmp_total_cpu_le. exact (Hall b Hb).
Qed.

Lemma stable_order_unique (l1 : list Process) : forall l2,
  StronglySorted le_total_cpu l1 -> StronglySorted le_total_cpu l2 ->
  Permutation l1 l2 ->
  (forall k, List.filter (same_demand k) l1 = List.filter (same_demand k) l2) ->
  l1 = l2.
Proof.
  induction l1 as [|a l1 IH]; intros l2 S1 S2 P F.
  - apply Permutation_nil in P. congruence.
  - destruct l2 as [|b l2];
      [symmetry in P; apply Permutation_nil in P; discriminate|].
    assert (Hab : total_cpu_needed a <= total_cpu_needed b).
    { apply (sorted_head_le a l1 b S1).
      apply (Permutation_in b (Permutation_sym P)). left. reflexivity. }
    assert (Hba : total_cpu_needed b <= total_cpu_needed a).
    { apply (sorted_head_le b l2 a S2). apply (Permutation_in a P). left. reflexivity. }
    assert (Eb : same_demand (total_cpu_needed a) b = true).
    { unfold same_demand. apply Qeq_bool_iff. lra. }
    pose proof (F (total_cpu_needed a)) as Fa. cbn [List.filter] in Fa.
    rewrite same_demand_refl, Eb in Fa. injection Fa as <- _.
    f_equal. inversion S1; inversion S2; subst. apply IH; auto.
    + exact (Permutation_cons_inv P).
    + intros k. pose proof (F k) as Fk. cbn [List.filter] in Fk.
      destruct (same_demand k a); [injection Fk as Fk|]; exact Fk.
Qed.

Lemma stable_qsort_is_stable : qsort_stable stable_qsort.
Proof. intros l k. apply stable_qsort_stable. Qed.



(** ** Round-Robin: the queue buffer *)

(** More fuel does not change a result other than [OutOfFuel]. *)
Lemma rr_while_mono fuel : forall s fuel',
  rr_while fuel s <> OutOfFuel -> (fuel <= fuel')%nat ->
  rr_while fuel' s = rr_while fuel s.
Proof.
  induction fuel as [|fuel IH]; intros s fuel' H Hle;
    rewrite (rr_while_eq fuel') ; rewrite rr_while_eq in H |- *;
    destruct (rr_qstart s <? rr_qend s)%nat; try reflexivity;
    try (exfalso; apply H; reflexivity).
  destruct fuel' as [|fuel']; [lia|].
  destruct (rr_body s) as [s1| |]; cbn in *; try reflexivity.
  apply IH; [exact H | lia].
Qed.

Lemma run_rr_mono fuel fuel' defs :
  run_rr fuel defs <> OutOfFuel -> (fuel <= fuel')%nat ->
  run_rr fuel' defs = run_rr fuel defs.
Proof.
  unfold run_rr. intros H Hle. rewrite (rr_while_mono fuel _ fuel'); auto.
  intros E. apply H. rewrite E. reflexivity.
Qed.

(** C4: a turn of the Round-Robin loop dequeues the head, gives it a
    quantum and advances the clock; a process that is done gets its result
    and is not queued again; a process that is not done is written at the
    tail of the queue as long as a cell of the buffer is left, and outside
    the buffer otherwise.  On Scenario 1 that happens on the fourth turn:
    after three turns the six cells of [queue] are written ([qend] is
    [n * 2]); A is dequeued, is not done after its quantum, and the write
    [queue[qend++] = p] that should put it back falls outside the buffer. *)
Theorem rr_requeue_out_of_bounds :
  (forall s i p p' taken t',
     rr_queue s !! rr_qstart s = Some i ->
     rr_procs s !! i = Some p ->
     quantum_turn p (rr_t s) = (p', taken, t') ->
     (is_done p' = true ->
        rr_body s =
          Ok (mkRR (<[i:=set_finish_time p' t']> (rr_procs s)) (rr_cap s)
                (rr_queue s) (S (rr_qstart s))
                (rr_res s ++ [emit (set_finish_time p' t')]) t')) /\
     (is_done p' = false -> (rr_qend s < rr_cap s)%nat ->
        rr_body s =
          Ok (mkRR (<[i:=p']> (rr_procs s)) (rr_cap s) (rr_queue s ++ [i])
                (S (rr_qstart s)) (rr_res s) t')) /\
     (is_done p' = false -> (rr_cap s <= rr_qend s)%nat ->
        rr_body s = OutOfBounds)) /\
  exists s i p p' taken t',
    rr_scenario1_after3 = Ok s /\
    rr_waiting s = [0; 1; 2]%nat /\
    rr_queue s !! rr_qstart s = Some i /\
    rr_procs s !! i = Some p /\ name p = "A"%string /\
    quantum_turn p (rr_t s) = (p', taken, t') /\
    is_done p' = false /\
    rr_qend s = rr_cap s /\
    rr_body s = OutOfBounds.
Proof.
  split.
  - intros s i p p' taken t' Hq Hp Hturn.
    rewrite (rr_body_turn s i p p' taken t' Hq Hp Hturn).
    split; [intros ->; reflexivity|]. split; intros -> Hcap.
    + apply Nat.ltb_lt in Hcap. rewrite Hcap. reflexivity.
    + apply Nat.ltb_ge in Hcap. rewrite Hcap. reflexivity.
  - eexists _, _, _, _, _, _.
    split; [vm_compute; reflexivity|].
    split; [reflexivity|].
    split; [reflexivity|].
    split; [reflexivity|].
    split; [reflexivity|].
    split; [vm_compute; reflexivity|].
    split; [reflexivity|].
    split; reflexivity.
Qed.

(** A run that ends outside the buffer with some fuel returns with none. *)
Lemma run_rr_never_returns defs k :
  run_rr k defs = OutOfBounds -> forall fuel r, run_rr fuel defs <> Ok r.
Proof.
  intros Hk fuel r Hr.
  destruct (Nat.le_ge_cases fuel k) as [Hle|Hle].
  - rewrite (run_rr_mono fuel k) in Hk; [congruence | | exact Hle].
    rewrite Hr. discriminate.
  - rewrite (run_rr_mono k fuel) in Hr; [congruence | | exact Hle].
    rewrite Hk. discriminate.
Qed.


(** ** MLFQ: levels *)

Lemma level_from_Some qs : forall k i l,
  level_from qs k i = Some l ->
  (k <= l)%nat /\ exists q, qs !! (l - k)%nat = Some q /\ i ∈ q.
Proof.
  induction qs as [|q0 qs IH]; intros k i l H; cbn in H; [discriminate|].
  case_bool_decide as Hin.
  - injection H as <-. split; [lia|]. rewrite Nat.sub_diag. eauto.
  - destruct (IH _ _ _ H) as (Hle & q & Hq & Hi). split; [lia|].
    exists q. replace (l - k)%nat with (S (l - S k)) by lia. auto.
Qed.

Lemma level_from_elem qs : forall k i m q,
  qs !! m = Some q -> i ∈ q ->
  exists l, level_from qs k i = Some l /\ (l <= k + m)%nat.
Proof.
  induction qs as [|q0 qs IH]; intros k i m q Hq Hi; [discriminate|].
  cbn. case_bool_decide as Hin; [exists k; split; [reflexivity|lia]|].
  destruct m as [|m]; [injection Hq as ->; contradiction|].
  destruct (IH (S k) i m q Hq Hi) as (l & Hl & Hle). exists l. split; [exact Hl|lia].
Qed.

Lemma next_level_ge qidx taken : (qidx <= next_level qidx taken)%nat.
Proof.
  unfold next_level. destruct (used_quantum taken); [|lia].
  destruct (qidx <? LEVELS - 1)%nat; lia.
Qed.

(** The queues after a turn hold what they held, except that the cell
    served may have moved to its level or a later one. *)
Lemma mlfq_body_members qidx s s' m q' j :
  mlfq_body qidx s = Ok s' ->
  mq_queues s' !! m = Some q' -> j ∈ q' ->
  (exists q0, mq_queues s !! m = Some q0 /\ j ∈ q0) \/
  ((qidx <= m)%nat /\ exists q0, mq_queues s !! qidx = Some q0 /\ j ∈ q0).
Proof.
  intros Hb Hm Hj.
  destruct (mq_queues s !! qidx) as [[|i q]|] eqn:Hq;
    try (unfold mlfq_body in Hb; rewrite Hq in Hb; discriminate).
  destruct (mq_procs s !! i) as [p|] eqn:Hp;
    [|unfold mlfq_body in Hb; rewrite Hq, Hp in Hb; discriminate].
  destruct (quantum_turn p (mq_t s)) as [[p' taken] t'] eqn:Hturn.
  rewrite (mlfq_body_turn qidx s i q p p' taken t' Hq Hp Hturn) in Hb.
  assert (Hins : forall q1, <[qidx:=q]> (mq_queues s) !! m = Some q1 -> j ∈ q1 ->
            exists q0, mq_queues s !! m = Some q0 /\ j ∈ q0).
  { intros q1 H1 Hj1. destruct (decide (qidx = m)) as [<-|Hne].
    - rewrite list_lookup_insert_eq in H1 by (eapply lookup_lt_Some; eauto).
      injection H1 as <-. exists (i :: q).
      split; [first [exact Hq | reflexivity] |]. right. exact Hj1.
    - rewrite list_lookup_insert_ne in H1 by exact Hne. eauto. }
  destruct (is_done p'); injection Hb as <-; cbn in Hm.
  - left. eauto.
  - destruct (decide (next_level qidx taken = m)) as [<-|Hne].
    + rewrite list_lookup_alter_eq in Hm.
      destruct (<[qidx:=q]> (mq_queues s) !! next_level qidx taken) as [q1|] eqn:H1;
        [|discriminate].
      cbn in Hm. injection Hm as <-. apply elem_of_app in Hj.
      destruct Hj as [Hj|Hj]; [left; eauto|].
      apply list_elem_of_singleton in Hj. subst j. right.
      split; [apply next_level_ge|]. exists (i :: q).
      split; [first [exact Hq | reflexivity] | left].
    + rewrite list_lookup_alter_ne in Hm by exact Hne. left. eauto.
Qed.

Lemma mlfq_step_level s s' j l' :
  mlfq_step s s' -> level_of s' j = Some l' ->
  exists l, level_of s j = Some l /\ (l <= l')%nat.
Proof.
  intros (qidx & _ & Hb) Hl'. unfold level_of in *.
  destruct (level_from_Some _ _ _ _ Hl') as (_ & q' & Hq' & Hj).
  rewrite Nat.sub_0_r in Hq'.
  destruct (mlfq_body_members _ _ _ _ _ _ Hb Hq' Hj)
    as [(q0 & H0 & Hj0)|(Hle & q0 & H0 & Hj0)].
  - destruct (level_from_elem _ 0 _ _ _ H0 Hj0) as (l & Hl & Hle). eauto.
  - destruct (level_from_elem _ 0 _ _ _ H0 Hj0) as (l & Hl & Hle').
    exists l. split; [exact Hl|lia].
Qed.

Lemma mlfq_steps_level s s' :
  rtc mlfq_step s s' ->
  forall j l', level_of s' j = Some l' ->
  exists l, level_of s j = Some l /\ (l <= l')%nat.
Proof.
  induction 1 as [s|s s1 s' Hstep Hrest IH]; intros j l' Hl'; [eauto|].
  destruct (IH _ _ Hl') as (l1 & Hl1 & Hle1).
  destruct (mlfq_step_level _ _ _ _ Hstep Hl1) as (l & Hl & Hle).
  exists l. split; [exact Hl|lia].
Qed.

(** C5, as stated, fails at [taken = QUANTUM - EPS]: the step is cut by the
    event after 0.499999999 CPU units, which the specification counts as a full
    quantum, and the process stays at level 0. *)
Lemma mlfq_demotion_boundary_counterexample :
  valid_scenario boundary_scenario /\
  exists p p' taken t' s',
    mq_procs (mlfq_init boundary_scenario) !! 0%nat = Some p /\
    quantum_turn p 0 = (p', taken, t') /\
    is_done p' = false /\
    QUANTUM - EPS <= taken /\
    mlfq_body 0 (mlfq_init boundary_scenario) = Ok s' /\
    level_of (mlfq_init boundary_scenario) 0 = Some 0%nat /\
    level_of s' 0 = Some 0%nat /\
    next_level 0 taken = 0%nat.
Proof.
  split.
  { unfold valid_scenario, boundary_scenario, valid_definition.
    valid_by_computation. }
  eexists _, _, _, _, _.
  split; [reflexivity|].
  split; [vm_compute; reflexivity|].
  split; [reflexivity|].
  split; [vm_compute; discriminate|].
  split; [vm_compute; reflexivity|].
  split; [reflexivity|].
  split; reflexivity.
Qed.

(** C5 (amended): a process that is not done after its turn goes to the
    tail of level [level + 1] exactly when [taken > QUANTUM - EPS] and its
    level is below 2, and to the tail of its own level otherwise; from one
    state of a run to any later one the level of a process never
    decreases. *)
Theorem mlfq_levels_never_rise :
  (forall qidx taken, (qidx < LEVELS)%nat ->
     (QUANTUM - EPS < taken -> (qidx < 2)%nat -> next_level qidx taken = S qidx) /\
     (QUANTUM - EPS < taken -> qidx = 2%nat -> next_level qidx taken = 2%nat) /\
     (taken <= QUANTUM - EPS -> next_level qidx taken = qidx)) /\
  (forall s qidx i q p p' taken t',
     mq_queues s !! qidx = Some (i :: q) ->
     mq_procs s !! i = Some p ->
     quantum_turn p (mq_t s) = (p', taken, t') ->
     is_done p' = false ->
     exists s', mlfq_body qidx s = Ok s' /\
       mq_queues s' =
         alter (fun q => q ++ [i]) (next_level qidx taken)
           (<[qidx:=q]> (mq_queues s))) /\
  (forall s s' j l l',
     rtc mlfq_step s s' ->
     level_of s j = Some l -> level_of s' j = Some l' -> (l <= l')%nat).
Proof.
  split; [|split].
  - intros qidx taken Hq. unfold next_level, used_quantum, LEVELS in *.
    destruct (Qltb (Qabs (taken - QUANTUM)) EPS) eqn:E1;
      destruct (Qltb (QUANTUM - EPS) taken) eqn:E2;
      destruct (Nat.ltb_spec qidx (3 - 1));
      q_bool; unfold QUANTUM, EPS in *; cbn in *;
      repeat split; intros; try lia; try (exfalso; lra).
  - intros s qidx i q p p' taken t' Hq Hp Hturn Hnd.
    rewrite (mlfq_body_turn qidx s i q p p' taken t' Hq Hp Hturn), Hnd.
    eexists. split; reflexivity.
  - intros s s' j l l' Hsteps Hl Hl'.
    destruct (mlfq_steps_level _ _ Hsteps _ _ Hl') as (l0 & Hl0 & Hle).
    congruence.
Qed.

Lemma mlfq_levels_never_rise_witness :
  next_level 0 QUANTUM = 1%nat /\ next_level 2 QUANTUM = 2%nat /\
  next_level 1 (1 # 4) = 1%nat.
Proof.
  destruct mlfq_levels_never_rise as [H _].
  split; [|split].
  - refine (proj1 (H 0%nat QUANTUM _) _ _);
      [unfold LEVELS; lia | reflexivity | lia].
  - refine (proj1 (proj2 (H 2%nat QUANTUM _)) _ _);
      [unfold LEVELS; lia | reflexivity | reflexivity].
  - refine (proj2 (proj2 (H 1%nat (1 # 4) _)) _);
      [unfold LEVELS; lia | vm_compute; discriminate].
Defined.

(** ** Conservation at completion *)

Lemma completed_conserved d p :
  same_definition d p -> completed p -> conserved d p.
Proof.
  intros Hs ([H1 H2] & H3 & _). split; [exact Hs|].
  destruct Hs as (_ & Ht & _). rewrite <- Ht.
  split; [exact H1|]. split; [exact H3|].
  apply Qabs_Qle_condition. unfold EPS in *. split; lra.
Qed.

Lemma run_post_conserved defs procs res :
  run_post defs procs res ->
  Forall2 conserved defs procs /\
  Permutation res (map emit procs) /\
  Forall (fun p => CPU (emit p) = cpu_consumed p /\ res_name (emit p) = name p) procs.
Proof.
  intros (H1 & H2 & H3). split; [|split; [exact H3|] ].
  - clear H3. induction H1 as [|d p defs procs Hdp Hrest IH];
      constructor; inversion H2; subst; auto using completed_conserved.
  - eapply Forall_impl; [exact H2|]. intros p Hp.
    destruct (emit_completed p Hp) as (? & ? & _). auto.
Qed.




(** ** The clock *)

Lemma fifo_while_at_inv p0 t0 q tq :
  proc_inv p0 -> fifo_while_at p0 t0 q tq -> proc_inv q /\ t0 <= tq.
Proof.
  intros H0. induction 1 as [|p t p' taken io_dur _ [IH1 IH2] Hnd He].
  - split; [exact H0 | lra].
  - destruct (fifo_turn p t p' taken io_dur IH1 Hnd He) as (J1 & _ & J3).
    split; [exact J1 | lra].
Qed.

Lemma fifo_for_at_inv fuel procs t q tq :
  0 <= t ->
  Forall (fun p => proc_inv p /\ first_run_time p <= t) procs ->
  fifo_for_at fuel procs t q tq ->
  proc_inv q /\ t <= tq.
Proof.
  intros Ht Hall H. revert Ht Hall.
  induction H as [p rest t q tq Hw|p rest t p1 t1 q tq Hw Hrest IH];
    intros Ht Hall; inversion Hall as [|? ? [Hp Hfr] Hr]; subst.
  - apply (fifo_while_at_inv _ _ _ _ (mark_first_run_inv p t Hp) Hw).
  - destruct (fifo_while_post _ _ _ _ _ (mark_first_run_inv p t Hp) Hw)
      as (_ & _ & I3 & _).
    destruct IH as [K1 K2]; [lra | | split; [exact K1 | lra] ].
    eapply Forall_impl; [exact Hr|]. cbn. intros x [? ?]. split; [auto|lra].
Qed.

Lemma rr_reach_inv defs s :
  valid_scenario defs -> rr_reach defs s -> rr_inv defs s.
Proof.
  intros Hv. induction 1 as [|s s' _ IH Hb].
  - apply rr_init_inv, valid_scenario_nonneg, Hv.
  - exact (proj1 (rr_body_inv _ _ _ IH Hb)).
Qed.

Lemma mlfq_reach_inv defs s :
  valid_scenario defs -> mlfq_reach defs s -> mlfq_inv defs s.
Proof.
  intros Hv. induction 1 as [|s s' _ IH (qidx & _ & Hb)].
  - apply mlfq_init_inv, valid_scenario_nonneg, Hv.
  - exact (proj1 (mlfq_body_inv _ _ _ _ IH Hb)).
Qed.

Lemma completed_result p :
  completed p ->
  0 <= FirstRun (emit p) /\ FirstRun (emit p) <= Elapsed (emit p) /\
  Elapsed (emit p) = finish_time p.
Proof.
  intros Hc. destruct (emit_completed p Hc) as (_ & _ & _ & -> & ->).
  destruct Hc as (_ & _ & H1 & H2). auto.
Qed.

Lemma run_post_results defs procs res :
  run_post defs procs res ->
  Forall (fun r => 0 <= FirstRun r /\ FirstRun r <= Elapsed r) res.
Proof.
  intros (_ & H2 & H3). rewrite H3. apply Forall_fmap.
  eapply Forall_impl; [exact H2|]. intros p Hp. cbn.
  destruct (completed_result p Hp) as (? & ? & _). auto.
Qed.

(** C8: in a run over a valid scenario the clock never goes back: a turn
    adds [taken >= 0] and then the I/O duration when there is one (it is
    added only when it is not negative); the [finish_time] of a process is
    the clock at the end of the turn that left it done; and every result has
    [0 <= FirstRun <= Elapsed]. *)
Theorem clock_never_goes_back (qsort : sorter) (defs : list Process) :
  qsort_contract qsort ->
  valid_scenario defs ->
  (* every turn of the loops of FIFO and SJF *)
  (forall fuel order q tq q' taken io_dur,
     order = clone_processes defs \/
     order = qsort cmp_total_cpu (clone_processes defs) ->
     fifo_for_at fuel order 0 q tq ->
     is_done q = false ->
     eat_cpu q (remaining q) = (q', taken, io_dur) ->
     0 <= tq /\ 0 <= taken /\ tq + taken <= advance tq taken io_dur) /\
  (* every turn of the loop of Round-Robin *)
  (forall s s', rr_reach defs s -> rr_body s = Ok s' ->
     0 <= rr_t s /\ rr_t s <= rr_t s') /\
  (* every turn of the loop of MLFQ *)
  (forall s s', mlfq_reach defs s -> mlfq_step s s' ->
     0 <= mq_t s /\ mq_t s <= mq_t s') /\
  (* the finish time is the clock at the turn that ends the process *)
  (forall fuel p rest t pf rest' res t',
     fifo_for fuel (p :: rest) t = Ok (pf :: rest', res, t') ->
     exists p1 t1,
       fifo_while fuel (mark_first_run p t) t = Ok (p1, t1) /\
       is_done p1 = true /\ finish_time pf = t1) /\
  (forall s i p p' taken t',
     rr_reach defs s ->
     rr_queue s !! rr_qstart s = Some i -> rr_procs s !! i = Some p ->
     quantum_turn p (rr_t s) = (p', taken, t') -> is_done p' = true ->
     exists s' pf, rr_body s = Ok s' /\ rr_procs s' !! i = Some pf /\
       rr_t s' = t' /\ finish_time pf = rr_t s') /\
  (forall s qidx i q p p' taken t',
     mlfq_reach defs s ->
     mq_queues s !! qidx = Some (i :: q) -> mq_procs s !! i = Some p ->
     quantum_turn p (mq_t s) = (p', taken, t') -> is_done p' = true ->
     exists s' pf, mlfq_body qidx s = Ok s' /\ mq_procs s' !! i = Some pf /\
       mq_t s' = t' /\ finish_time pf = mq_t s') /\
  (* the results *)
  (forall fuel procs res,
     run_fifo fuel defs = Ok (procs, res) \/
     run_sjf qsort fuel defs = Ok (procs, res) \/
     run_rr fuel defs = Ok (procs, res) \/
     run_mlfq fuel defs = Ok (procs, res) ->
     Forall (fun r => 0 <= FirstRun r /\ FirstRun r <= Elapsed r) res /\
     Forall (fun p => Elapsed (emit p) = finish_time p) procs).
Proof.
  intros Hq Hv.
  pose proof (valid_scenario_nonneg _ Hv) as Hnn.
  split; [|split; [|split; [|split; [|split; [|split] ] ] ] ].
  - intros fuel order q tq q' taken io_dur Horder Hat Hnd He.
    assert (Hall : Forall (fun p => proc_inv p /\ first_run_time p <= 0) order).
    { destruct Horder as [->| ->].
      - apply clone_processes_inv; [lra | exact Hnn].
      - rewrite (proj1 (Hq (clone_processes defs))).
        apply clone_processes_inv; [lra | exact Hnn]. }
    destruct (fifo_for_at_inv _ _ _ _ _ (Qle_refl 0) Hall Hat) as [I1 I2].
    destruct (fifo_turn q tq q' taken io_dur I1 Hnd He) as (_ & J2 & _).
    split; [exact I2|]. split; [exact J2|].
    unfold advance. destruct (Qle_bool 0 io_dur) eqn:E; q_bool; lra.
  - intros s s' Hr Hb. pose proof (rr_reach_inv _ _ Hv Hr) as Hinv.
    split; [exact (proj1 Hinv) | exact (proj1 (proj2 (rr_body_inv _ _ _ Hinv Hb)))].
  - intros s s' Hr (qidx & _ & Hb). pose proof (mlfq_reach_inv _ _ Hv Hr) as Hinv.
    split; [exact (proj1 (proj2 Hinv)) | exact (proj2 (mlfq_body_inv _ _ _ _ Hinv Hb))].
  - intros fuel p rest t pf rest' res t' H. cbn in H.
    destruct (fifo_while fuel (mark_first_run p t) t) as [[p1 t1]| |] eqn:Hw;
      try discriminate.
    cbn in H.
    destruct (fifo_for fuel rest t1) as [[[r1 r2] r3]| |]; try discriminate.
    cbn in H. injection H as <- _ _ _.
    exists p1, t1. split; [reflexivity|]. split; [|reflexivity].
    destruct (fifo_while_ind (fun _ _ => True)) with (fuel := fuel)
      (p := mark_first_run p t) (t := t) (p' := p1) (t' := t1); auto.
  - intros s i p p' taken t' _ Hqs Hp Hturn Hd.
    rewrite (rr_body_turn s i p p' taken t' Hqs Hp Hturn), Hd.
    eexists _, _. split; [reflexivity|]. cbn.
    split; [apply list_lookup_insert_eq; eapply lookup_lt_Some; eauto|].
    split; reflexivity.
  - intros s qidx i q p p' taken t' _ Hqs Hp Hturn Hd.
    rewrite (mlfq_body_turn qidx s i q p p' taken t' Hqs Hp Hturn), Hd.
    eexists _, _. split; [reflexivity|]. cbn.
    split; [apply list_lookup_insert_eq; eapply lookup_lt_Some; eauto|].
    split; reflexivity.
  - intros fuel procs res H.
    assert (Hpost : exists defs', run_post defs' procs res).
    { destruct H as [H|[H|[H|H]]].
      - exists defs. exact (proj1 (run_fifo_post _ _ _ _ Hv H)).
      - destruct (run_sjf_post _ _ _ _ _ Hq Hv H) as (_ & (defs' & _ & Hpost) & _).
        eauto.
      - exists defs. exact (run_rr_post _ _ _ _ Hv H).
      - exists defs. exact (run_mlfq_post _ _ _ _ Hv H). }
    destruct Hpost as [defs' Hpost].
    split; [exact (run_post_results _ _ _ Hpost)|].
    destruct Hpost as (_ & Hc & _).
    eapply Forall_impl; [exact Hc|]. intros p Hp.
    exact (proj2 (proj2 (completed_result p Hp))).
Qed.

Lemma clock_never_goes_back_witness :
  exists procs res,
    run_fifo 4 make_scenario4 = Ok (procs, res) /\
    Forall (fun r => 0 <= FirstRun r /\ FirstRun r <= Elapsed r) res /\
    Forall (fun p => Elapsed (emit p) = finish_time p) procs.
Proof.
  eexists _, _. split; [vm_compute; reflexivity|].
  refine (proj2 (proj2 (proj2 (proj2 (proj2 (proj2
    (clock_never_goes_back stable_qsort make_scenario4
       stable_qsort_contract make_scenario4_valid)))))) 4%nat _ _ _).
  left. vm_compute. reflexivity.
Defined.

(** ** Command line *)

Section MainProperties.

Variable atoi : string -> Z.
Variable qsort : sorter.

Lemma make_scenario_unknown scen :
  ~ known_scenario scen -> make_scenario scen = None.
Proof.
  unfold known_scenario, make_scenario. intros H.
  destruct (Z.eqb_spec scen 1); [tauto|].
  destruct (Z.eqb_spec scen 2); [tauto|].
  destruct (Z.eqb_spec scen 3); [tauto|].
  destruct (Z.eqb_spec scen 4); [tauto|]. reflexivity.
Qed.

Lemma main_repeat_pos argv : (1 <= main_repeat atoi argv)%Z.
Proof.
  unfold main_repeat.
  destruct (4 <=? length argv)%nat; [destruct (argv !! 3%nat)|];
    match goal with |- context [(?r <? 1)%Z] => destruct (Z.ltb_spec r 1) end;
    lia.
Qed.

Lemma main_runs_unknown fuel alg base todo runs :
  ~ known_algorithm alg ->
  main_runs qsort fuel alg base (S todo) runs = Ok (Some 1%Z, runs).
Proof.
  unfold known_algorithm. intros H. cbn.
  destruct (String.eqb_spec alg "fifo"); [tauto|].
  destruct (String.eqb_spec alg "sjf"); [tauto|].
  destruct (String.eqb_spec alg "rr"); [tauto|].
  destruct (String.eqb_spec alg "mlfq"); [tauto|]. reflexivity.
Qed.

Lemma main_runs_known fuel alg base : forall todo runs code runs',
  known_algorithm alg ->
  main_runs qsort fuel alg base todo runs = Ok (code, runs') ->
  code = None /\ length runs' = (length runs + todo)%nat.
Proof.
  induction todo as [|todo IH]; intros runs code runs' Hk H; cbn in H.
  - injection H as <- <-. split; [reflexivity | lia].
  - assert (Hnext : forall rs, main_runs qsort fuel alg base todo (runs ++ [rs])
                                 = Ok (code, runs') ->
              code = None /\ length runs' = (length runs + S todo)%nat).
    { intros rs Hrs. destruct (IH _ _ _ Hk Hrs) as [-> Hl].
      split; [reflexivity|]. rewrite Hl, length_app. cbn. lia. }
    destruct (String.eqb_spec alg "fifo") as [E1|E1].
    { destruct (run_fifo fuel base) as [[ps rs]| |]; try discriminate; eauto. }
    destruct (String.eqb_spec alg "sjf") as [E2|E2].
    { destruct (run_sjf qsort fuel base) as [[ps rs]| |]; try discriminate; eauto. }
    destruct (String.eqb_spec alg "rr") as [E3|E3].
    { destruct (run_rr fuel base) as [[ps rs]| |]; try discriminate; eauto. }
    destruct (String.eqb_spec alg "mlfq") as [E4|E4].
    { destruct (run_mlfq fuel base) as [[ps rs]| |]; try discriminate; eauto. }
    exfalso. unfold known_algorithm in Hk. tauto.
Qed.

Lemma known_algorithm_dec alg : known_algorithm alg \/ ~ known_algorithm alg.
Proof.
  unfold known_algorithm.
  destruct (String.eqb_spec alg "fifo"); [tauto|].
  destruct (String.eqb_spec alg "sjf"); [tauto|].
  destruct (String.eqb_spec alg "rr"); [tauto|].
  destruct (String.eqb_spec alg "mlfq"); tauto.
Qed.

(** C9: fewer than two arguments, an unknown scenario number or an unknown
    policy name make [main] return 1 with no run made; [repeat] is 3 when
    the third argument is absent and never below 1; a return of 0 comes
    with [repeat] runs. *)
Theorem main_checks_arguments (fuel : nat) (argv : list string) :
  ((length argv < 3)%nat -> main atoi qsort fuel argv = Ok (1%Z, [])) /\
  (forall alg a2,
     argv !! 1%nat = Some alg -> argv !! 2%nat = Some a2 ->
     ~ known_scenario (atoi a2) ->
     main atoi qsort fuel argv = Ok (1%Z, [])) /\
  (forall alg a2,
     argv !! 1%nat = Some alg -> argv !! 2%nat = Some a2 ->
     ~ known_algorithm alg ->
     main atoi qsort fuel argv = Ok (1%Z, [])) /\
  ((length argv < 4)%nat -> main_repeat atoi argv = 3%Z) /\
  (forall a3, argv !! 3%nat = Some a3 ->
     main_repeat atoi argv = Z.max 1 (atoi a3)) /\
  (forall code runs,
     main atoi qsort fuel argv = Ok (code, runs) ->
     (code = 0%Z /\ length runs = Z.to_nat (main_repeat atoi argv)) \/
     (code = 1%Z /\ runs = [])).
Proof.
  split; [|split; [|split; [|split; [|split] ] ] ].
  - intros H. unfold main. apply Nat.ltb_lt in H. rewrite H. reflexivity.
  - intros alg a2 H1 H2 Hs. unfold main.
    assert (Hlen : (length argv <? 3)%nat = false).
    { apply Nat.ltb_ge. apply lookup_lt_Some in H2. lia. }
    rewrite Hlen, H1, H2, (make_scenario_unknown _ Hs). reflexivity.
  - intros alg a2 H1 H2 Ha. unfold main.
    assert (Hlen : (length argv <? 3)%nat = false).
    { apply Nat.ltb_ge. apply lookup_lt_Some in H2. lia. }
    rewrite Hlen, H1, H2.
    destruct (make_scenario (atoi a2)) as [base|]; [|reflexivity].
    pose proof (main_repeat_pos argv) as Hpos.
    destruct (Z.to_nat (main_repeat atoi argv)) as [|todo] eqn:E; [lia|].
    rewrite (main_runs_unknown fuel alg base todo [] Ha). reflexivity.
  - intros H. unfold main_repeat.
    assert (E : (4 <=? length argv)%nat = false) by (apply Nat.leb_gt; exact H).
    rewrite E. reflexivity.
  - intros a3 H3. unfold main_repeat.
    assert (E : (4 <=? length argv)%nat = true).
    { apply Nat.leb_le. apply lookup_lt_Some in H3. lia. }
    rewrite E, H3. destruct (Z.ltb_spec (atoi a3) 1); lia.
  - intros code runs H. unfold main in H.
    destruct (length argv <? 3)%nat; [injection H as <- <-; auto|].
    destruct (argv !! 1%nat) as [alg|]; [|discriminate].
    destruct (argv !! 2%nat) as [a2|]; [|discriminate].
    destruct (make_scenario (atoi a2)) as [base|]; [|injection H as <- <-; auto].
    destruct (known_algorithm_dec alg) as [Hk|Hk].
    + destruct (main_runs qsort fuel alg base
                  (Z.to_nat (main_repeat atoi argv)) []) as [[c rs]| |] eqn:E;
        try discriminate.
      destruct (main_runs_known _ _ _ _ _ _ _ Hk E) as [-> Hl].
      cbn in H. injection H as <- <-. left. auto.
    + pose proof (main_repeat_pos argv) as Hpos.
      destruct (Z.to_nat (main_repeat atoi argv)) as [|todo] eqn:E; [lia|].
      rewrite (main_runs_unknown fuel alg base todo [] Hk) in H.
      cbn in H. injection H as <- <-. auto.
Qed.

End MainProperties.

Lemma main_checks_arguments_witness :
  main digit_atoi stable_qsort 1 ["simulador"; "fifo"]%string = Ok (1%Z, []) /\
  main digit_atoi stable_qsort 1 ["simulador"; "fifo"; "9"]%string
    = Ok (1%Z, []) /\
  main digit_atoi stable_qsort 1 ["simulador"; "lottery"; "2"]%string
    = Ok (1%Z, []) /\
  main_repeat digit_atoi ["simulador"; "fifo"; "2"]%string = 3%Z /\
  main_repeat digit_atoi ["simulador"; "fifo"; "2"; "0"]%string = 1%Z.
Proof.
  split; [|split; [|split; [|split] ] ].
  - refine (proj1 (main_checks_arguments digit_atoi stable_qsort 1 _) _).
    cbn. lia.
  - refine (proj1 (proj2 (main_checks_arguments digit_atoi stable_qsort 1 _))
              "fifo"%string "9"%string _ _ _); try reflexivity.
    vm_compute. intros [H|[H|[H|H]]]; discriminate H.
  - refine (proj1 (proj2 (proj2
              (main_checks_arguments digit_atoi stable_qsort 1 _)))
              "lottery"%string "2"%string _ _ _); try reflexivity.
    intros [H|[H|[H|H]]]; discriminate H.
  - refine (proj1 (proj2 (proj2 (proj2
              (main_checks_arguments digit_atoi stable_qsort 1 _)))) _).
    cbn. lia.
  - refine (proj1 (proj2 (proj2 (proj2 (proj2
              (main_checks_arguments digit_atoi stable_qsort 1 _)))))
              "0"%string _).
    reflexivity.
Defined.

(** ** Progress of a step *)

(** On a process that is not done and with a positive budget, a step that
    takes CPU lowers [remaining], and a step that takes none triggers an
    event: [next_io_index] goes up by one and stays within [io_count]. *)
Lemma eat_cpu_progress p dt p' taken io_dur :
  0 < dt -> is_done p = false ->
  eat_cpu p dt = (p', taken, io_dur) ->
  (0 < taken -> remaining p' < remaining p) /\
  (taken == 0 ->
     next_io_index p' = S (next_io_index p) /\
     (next_io_index p' <= io_count p)%nat).
Proof.
  intros Hdt Hnd H. apply is_done_false in Hnd.
  assert (Hlt : forall ev, io_events p !! next_io_index p = Some ev ->
                 (next_io_index p < io_count p)%nat)
    by (intros ev Hev; exact (lookup_lt_Some _ _ _ Hev)).
  eat_cpu_cases H; unfold EPS, IO_TOL in *;
    try (specialize (Hlt _ eq_refl));
    (split; [intros Ht; try lra | intros Ht; try (split; [reflexivity|lia]);
                                   exfalso; lra]).
Qed.

(** FIFO, SJF and MLFQ return on every valid scenario, with the array of
    processes and one result for each. *)
Lemma run_returns_except_rr (qsort : sorter) (defs : list Process) :
  qsort_contract qsort -> valid_scenario defs ->
  exists fuel, forall fuel', (fuel <= fuel')%nat ->
    (exists procs res, run_fifo fuel' defs = Ok (procs, res) /\
       map res_name res = map name defs) /\
    (exists procs res, run_sjf qsort fuel' defs = Ok (procs, res) /\
       Permutation (map res_name res) (map name defs)) /\
    (exists procs res, run_mlfq fuel' defs = Ok (procs, res) /\
       Permutation (map res_name res) (map name defs)) /\
    run_rr fuel' defs <> OutOfFuel.
Proof.
  intros Hq Hv. exists (fifo_fuel defs + queue_fuel defs)%nat.
  intros fuel Hle.
  assert (Hnames : forall ds procs, Forall2 same_definition ds procs ->
            Forall completed procs -> map res_name (map emit procs) = map name ds).
  { intros ds procs H. induction H as [|d p ds procs Hdp Hrest IH];
      intros Hc; [reflexivity|]. inversion Hc; subst. cbn.
    rewrite IH by assumption. f_equal. apply Hdp. }
  split; [|split; [|split] ].
  - destruct (run_fifo_total defs fuel) as (procs & res & H); [lia|].
    exists procs, res. split; [exact H|].
    destruct (run_fifo_post _ _ _ _ Hv H) as [(H1 & H2 & _) ->]. auto.
  - destruct (run_sjf_total qsort defs fuel Hq) as (procs & res & H); [lia|].
    exists procs, res. split; [exact H|].
    destruct (run_sjf_post _ _ _ _ _ Hq Hv H)
      as (_ & (defs' & Hp & H1 & H2 & _) & ->).
    rewrite (Hnames _ _ H1 H2). apply Permutation_map. exact Hp.
  - destruct (run_mlfq_total defs fuel Hv) as (procs & res & H); [lia|].
    exists procs, res. split; [exact H|].
    destruct (run_mlfq_post _ _ _ _ Hv H) as (H1 & H2 & H3).
    rewrite <- (Hnames _ _ H1 H2). apply Permutation_map. exact H3.
  - unfold run_rr. intros E.
    destruct (rr_while fuel (rr_init defs)) as [s| |] eqn:Hw; try discriminate.
    apply (rr_while_stops defs fuel (rr_init defs)); [| |exact Hw].
    + apply rr_init_inv, valid_scenario_nonneg, Hv.
    + unfold rr_init, rr_waiting. cbn [rr_procs rr_queue rr_qstart].
      rewrite drop_0. unfold queue_fuel in Hle. lia.
Qed.

(** C7: on every valid scenario the FIFO, SJF and MLFQ runs return with one
    result per process, and the Round-Robin loop cannot turn forever either:
    a step on a process that is not done lowers [remaining] when it takes
    CPU and advances [next_io_index], within [io_count], when it takes none.
    But the Round-Robin run does not return: on Scenario 1, with fuel for
    four turns or more, it ends in the write outside [queue], and no amount
    of fuel yields a result array, for any scenario of [make_scenario]. *)
Theorem run_rr_no_result :
  (forall qsort defs, qsort_contract qsort -> valid_scenario defs ->
     exists fuel, forall fuel', (fuel <= fuel')%nat ->
       (exists procs res, run_fifo fuel' defs = Ok (procs, res) /\
          map res_name res = map name defs) /\
       (exists procs res, run_sjf qsort fuel' defs = Ok (procs, res) /\
          Permutation (map res_name res) (map name defs)) /\
       (exists procs res, run_mlfq fuel' defs = Ok (procs, res) /\
          Permutation (map res_name res) (map name defs)) /\
       run_rr fuel' defs <> OutOfFuel) /\
  (forall p dt p' taken io_dur,
     0 < dt -> is_done p = false ->
     eat_cpu p dt = (p', taken, io_dur) ->
     (0 < taken -> remaining p' < remaining p) /\
     (taken == 0 ->
        next_io_index p' = S (next_io_index p) /\
        (next_io_index p' <= io_count p)%nat)) /\
  valid_scenario make_scenario1 /\
  (forall fuel, run_rr (4 + fuel) make_scenario1 = OutOfBounds) /\
  (forall scen defs fuel r,
     make_scenario scen = Some defs -> run_rr fuel defs <> Ok r).
Proof.
  split; [exact run_returns_except_rr|].
  split; [exact eat_cpu_progress|].
  split; [exact make_scenario1_valid|]. split.
  - intros fuel. rewrite (run_rr_mono 4); [vm_compute; reflexivity | | lia].
    vm_compute. discriminate.
  - intros scen defs fuel r Hs. apply (run_rr_never_returns defs 7).
    unfold make_scenario in Hs.
    repeat match type of Hs with
      | context [(?a =? ?b)%Z] => destruct (a =? b)%Z
      end; try discriminate; injection Hs as <-; vm_compute; reflexivity.
Qed.

(** ** I/O events: thresholds and blocked time *)

Lemma Qsum_cons x l : Qsum (x :: l) = x + Qsum l.
Proof. reflexivity. Qed.

Lemma Qsum_app l k : Qsum (l ++ k) == Qsum l + Qsum k.
Proof.
  induction l as [|x l IH]; cbn [app].
  - change (Qsum []) with 0. lra.
  - rewrite !Qsum_cons, IH. lra.
Qed.

Lemma take_S_lookup {A} (l : list A) i x :
  l !! i = Some x -> take (S i) l = take i l ++ [x].
Proof. intros H. apply take_S_r. exact H. Qed.

(** [eat_cpu] books every event it triggers. *)
Lemma eat_cpu_io_booked p dt p' taken io_dur :
  io_booked p -> eat_cpu p dt = (p', taken, io_dur) -> io_booked p'.
Proof.
  intros [H1 H2] H. unfold io_booked, io_count in *.
  rewrite (proj1 (proj2 (proj2 (eat_cpu_frame _ _ _ _ _ H)))).
  assert (Hlt : forall ev, io_events p !! next_io_index p = Some ev ->
                 (next_io_index p < length (io_events p))%nat /\
                 Qsum (map duration (take (S (next_io_index p)) (io_events p)))
                 == Qsum (map duration (take (next_io_index p) (io_events p)))
                    + duration ev).
  { intros ev Hev. split; [exact (lookup_lt_Some _ _ _ Hev)|].
    rewrite (take_S_lookup _ _ _ Hev), map_app, Qsum_app.
    cbn [map]. rewrite Qsum_cons. change (Qsum []) with 0. lra. }
  eat_cpu_cases H; try (destruct (Hlt _ eq_refl) as [L1 L2]);
    (split; [lia | try rewrite L2; lra]).
Qed.

Lemma Sorted_lookup_S {A} (R : A -> A -> Prop) (l : list A) : forall i a b,
  Sorted R l -> l !! i = Some a -> l !! S i = Some b -> R a b.
Proof.
  induction l as [|x l IH]; intros i a b Hs Ha Hb; [discriminate|].
  inversion Hs as [|? ? Hs' Hhd]; subst.
  destruct i as [|i].
  - injection Ha as <-. cbn in Hb. destruct l as [|y l]; [discriminate|].
    injection Hb as <-. inversion Hhd; subst. assumption.
  - eapply IH; eauto.
Qed.

(** The CPU consumed stays at or below the threshold of the pending event. *)
Lemma eat_cpu_not_passed p dt p' taken io_dur :
  sorted_events p -> io_not_passed p ->
  eat_cpu p dt = (p', taken, io_dur) ->
  io_not_passed p'.
Proof.
  intros Hs Hnp H. unfold io_not_passed, sorted_events in *.
  rewrite (proj1 (proj2 (proj2 (eat_cpu_frame _ _ _ _ _ H)))).
  assert (Hnext : forall ev ev', io_events p !! next_io_index p = Some ev ->
            io_events p !! S (next_io_index p) = Some ev' ->
            when_cpu ev < when_cpu ev')
    by (intros ev ev' H1 H2; exact (Sorted_lookup_S _ _ _ _ _ Hs H1 H2)).
  eat_cpu_cases H; unfold EPS, IO_TOL in *;
    try (pose proof (Hnp _ eq_refl) as Hle).
  all: intros ev' Hev';
    try match goal with
        | Heq : ?x = _, H' : ?x = Some _ |- _ =>
            lazymatch Heq with H' => fail | _ => rewrite Heq in H' end
        end;
    first [ injection Hev' as <-; lra
          | discriminate Hev'
          | pose proof (Hnext _ ev' eq_refl Hev'); lra ].
Qed.


(** ** Properties of a process that every run keeps *)

Section RunKeeps.

Variable P : Process -> Prop.
Hypothesis P_eat : forall p dt p' taken io_dur,
  P p -> eat_cpu p dt = (p', taken, io_dur) -> P p'.
Hypothesis P_first : forall p t, P p -> P (set_first_run_time p t).
Hypothesis P_finish : forall p t, P p -> P (set_finish_time p t).

Lemma keep_mark_first_run p t : P p -> P (mark_first_run p t).
Proof. unfold mark_first_run. destruct (Qltb _ _); auto. Qed.

Lemma keep_quantum_turn p t p' taken t' :
  P p -> quantum_turn p t = (p', taken, t') -> P p'.
Proof.
  intros Hp H. unfold quantum_turn in H.
  destruct (eat_cpu (mark_first_run p t) QUANTUM) as [[p1 tk] io] eqn:He.
  injection H as <- _ _. eapply P_eat; [|exact He].
  apply keep_mark_first_run. exact Hp.
Qed.

Lemma keep_fifo_while fuel p t p' t' :
  P p -> fifo_while fuel p t = Ok (p', t') -> P p'.
Proof.
  intros Hp H.
  destruct (fifo_while_ind (fun q _ => P q)) with (fuel := fuel) (p := p)
    (t := t) (p' := p') (t' := t'); eauto.
Qed.

Lemma keep_fifo_for fuel : forall procs t procs' res t',
  Forall P procs -> fifo_for fuel procs t = Ok (procs', res, t') ->
  Forall P procs'.
Proof.
  induction procs as [|p rest IH]; intros t procs' res t' Hall H; cbn in H.
  - injection H as <- _ _. constructor.
  - inversion Hall as [|? ? Hp Hrest]; subst.
    destruct (fifo_while fuel (mark_first_run p t) t) as [[p1 t1]| |] eqn:Hw;
      try discriminate.
    cbn in H.
    destruct (fifo_for fuel rest t1) as [[[rest' res'] t2]| |] eqn:Hf;
      try discriminate.
    cbn in H. injection H as <- _ _. constructor.
    + apply P_finish. eapply keep_fifo_while; [|exact Hw].
      apply keep_mark_first_run. exact Hp.
    + eapply IH; eauto.
Qed.

Lemma keep_rr_body s s' :
  Forall P (rr_procs s) -> rr_body s = Ok s' -> Forall P (rr_procs s').
Proof.
  intros Hall Hb.
  destruct (rr_queue s !! rr_qstart s) as [i|] eqn:Hq;
    [|unfold rr_body in Hb; rewrite Hq in Hb; discriminate].
  destruct (rr_procs s !! i) as [p|] eqn:Hp;
    [|unfold rr_body in Hb; rewrite Hq, Hp in Hb; discriminate].
  destruct (quantum_turn p (rr_t s)) as [[p' taken] t'] eqn:Hturn.
  rewrite (rr_body_turn s i p p' taken t' Hq Hp Hturn) in Hb.
  assert (Hp' : P p').
  { eapply keep_quantum_turn; [|exact Hturn].
    rewrite Forall_lookup in Hall. eauto. }
  destruct (is_done p'); [|destruct (rr_qend s <? rr_cap s)%nat];
    try discriminate; injection Hb as <-; cbn; apply Forall_insert; auto.
Qed.

Lemma keep_rr_while fuel : forall s s',
  Forall P (rr_procs s) -> rr_while fuel s = Ok s' -> Forall P (rr_procs s').
Proof.
  induction fuel as [|fuel IH]; intros s s' Hall H; rewrite rr_while_eq in H;
    destruct (rr_qstart s <? rr_qend s)%nat; try discriminate;
    try (injection H as <-; exact Hall).
  destruct (rr_body s) as [s1| |] eqn:Hb; try discriminate.
  cbn in H. eapply IH; [|exact H]. eapply keep_rr_body; eauto.
Qed.

Lemma keep_mlfq_body qidx s s' :
  Forall P (mq_procs s) -> mlfq_body qidx s = Ok s' -> Forall P (mq_procs s').
Proof.
  intros Hall Hb.
  destruct (mq_queues s !! qidx) as [[|i q]|] eqn:Hq;
    try (unfold mlfq_body in Hb; rewrite Hq in Hb; discriminate).
  destruct (mq_procs s !! i) as [p|] eqn:Hp;
    [|unfold mlfq_body in Hb; rewrite Hq, Hp in Hb; discriminate].
  destruct (quantum_turn p (mq_t s)) as [[p' taken] t'] eqn:Hturn.
  rewrite (mlfq_body_turn qidx s i q p p' taken t' Hq Hp Hturn) in Hb.
  assert (Hp' : P p').
  { eapply keep_quantum_turn; [|exact Hturn].
    rewrite Forall_lookup in Hall. eauto. }
  destruct (is_done p'); injection Hb as <-; cbn; apply Forall_insert; auto.
Qed.

Lemma keep_mlfq_while fuel : forall s s',
  Forall P (mq_procs s) -> mlfq_while fuel s = Ok s' -> Forall P (mq_procs s').
Proof.
  induction fuel as [|fuel IH]; intros s s' Hall H; rewrite mlfq_while_eq in H;
    destruct (first_nonempty (mq_queues s) 0) as [qidx|]; try discriminate;
    try (injection H as <-; exact Hall).
  destruct (mlfq_body qidx s) as [s1| |] eqn:Hb; try discriminate.
  cbn in H. eapply IH; [|exact H]. eapply keep_mlfq_body; eauto.
Qed.

Lemma runs_keep qsort defs fuel procs res :
  qsort_contract qsort ->
  Forall P (clone_processes defs) ->
  run_fifo fuel defs = Ok (procs, res) \/
  run_sjf qsort fuel defs = Ok (procs, res) \/
  run_rr fuel defs = Ok (procs, res) \/
  run_mlfq fuel defs = Ok (procs, res) ->
  Forall P procs.
Proof.
  intros Hq Hall [H|[H|[H|H]]].
  - unfold run_fifo in H.
    destruct (fifo_for fuel (clone_processes defs) 0) as [[[ps rs] t]| |] eqn:Hf;
      try discriminate.
    cbn in H. injection H as <- _. eapply keep_fifo_for; eauto.
  - unfold run_sjf in H. rewrite sjf_for_fifo in H.
    destruct (fifo_for fuel (qsort cmp_total_cpu (clone_processes defs)) 0)
      as [[[ps rs] t]| |] eqn:Hf; try discriminate.
    cbn in H. injection H as <- _. eapply keep_fifo_for; [|exact Hf].
    rewrite (proj1 (Hq (clone_processes defs))). exact Hall.
  - unfold run_rr in H.
    destruct (rr_while fuel (rr_init defs)) as [s| |] eqn:Hw; try discriminate.
    cbn in H. injection H as <- _. eapply keep_rr_while; [|exact Hw]. exact Hall.
  - unfold run_mlfq in H.
    destruct (mlfq_while fuel (mlfq_init defs)) as [s| |] eqn:Hw; try discriminate.
    cbn in H. injection H as <- _. eapply keep_mlfq_while; [|exact Hw]. exact Hall.
Qed.

End RunKeeps.

(** ** Blocked time at the end of a run *)

(** Whichever policy returned, the run leaves the cells completed. *)
Lemma runs_post qsort defs fuel procs res :
  qsort_contract qsort -> valid_scenario defs ->
  run_fifo fuel defs = Ok (procs, res) \/
  run_sjf qsort fuel defs = Ok (procs, res) \/
  run_rr fuel defs = Ok (procs, res) \/
  run_mlfq fuel defs = Ok (procs, res) ->
  exists defs', Permutation defs' defs /\ run_post defs' procs res.
Proof.
  intros Hq Hv [H|[H|[H|H]]].
  - exists defs. split; [reflexivity|]. exact (proj1 (run_fifo_post _ _ _ _ Hv H)).
  - destruct (run_sjf_post _ _ _ _ _ Hq Hv H) as (_ & (defs' & Hp & Hpost) & _).
    eauto.
  - exists defs. split; [reflexivity|]. exact (run_rr_post _ _ _ _ Hv H).
  - exists defs. split; [reflexivity|]. exact (run_mlfq_post _ _ _ _ Hv H).
Qed.

Lemma sorted_events_le (l : list IOEvent) : forall n i a b,
  Sorted (fun a b => when_cpu a < when_cpu b) l ->
  l !! i = Some a -> l !! (i + n)%nat = Some b -> when_cpu a <= when_cpu b.
Proof.
  induction n as [|n IH]; intros i a b Hs Ha Hb.
  - rewrite Nat.add_0_r in Hb. rewrite Ha in Hb. injection Hb as <-. lra.
  - replace (i + S n)%nat with (S (i + n)) in Hb by lia.
    destruct (lookup_lt_is_Some_2 l (i + n)) as [c Hc].
    { apply lookup_lt_Some in Hb. lia. }
    pose proof (IH _ _ _ Hs Ha Hc).
    assert (when_cpu c < when_cpu b)
      by exact (Sorted_lookup_S _ _ _ _ _ Hs Hc Hb).
    lra.
Qed.

Lemma io_ok_clone d :
  sorted_events d -> Forall (fun ev => 0 <= when_cpu ev) (io_events d) ->
  io_ok (clone_process d).
Proof.
  intros Hs Hnn. split; [exact Hs|]. split.
  - split; cbn; [lia | reflexivity].
  - intros ev Hev. cbn in *. rewrite Forall_lookup in Hnn. eauto.
Qed.

Lemma io_ok_eat p dt p' taken io_dur :
  io_ok p -> eat_cpu p dt = (p', taken, io_dur) -> io_ok p'.
Proof.
  intros (H1 & H2 & H3) H. split; [|split].
  - unfold sorted_events.
    rewrite (proj1 (proj2 (proj2 (eat_cpu_frame _ _ _ _ _ H)))). exact H1.
  - eapply eat_cpu_io_booked; eauto.
  - exact (eat_cpu_not_passed _ _ _ _ _ H1 H3 H).
Qed.

Lemma io_ok_first p t : io_ok p -> io_ok (set_first_run_time p t).
Proof. intros H. exact H. Qed.

Lemma io_ok_finish p t : io_ok p -> io_ok (set_finish_time p t).
Proof. intros H. exact H. Qed.


(** ** The clock is the CPU consumed plus the time blocked *)

Lemma Qsum_perm l k : Permutation l k -> Qsum l == Qsum k.
Proof.
  induction 1 as [|x l k _ IH|x y l|l k m _ IH1 _ IH2];
    rewrite ?Qsum_cons in *; try rewrite IH; try rewrite IH1; try lra;
    reflexivity.
Qed.

Lemma Qsum_map_ext {A} (f g : A -> Q) l :
  Forall (fun x => f x == g x) l -> Qsum (map f l) == Qsum (map g l).
Proof.
  induction 1 as [|x l Hx _ IH]; cbn [map]; [reflexivity|].
  rewrite !Qsum_cons, Hx, IH. reflexivity.
Qed.

Lemma Qsum_insert {A} (f : A -> Q) (l : list A) : forall i x y,
  l !! i = Some x ->
  Qsum (map f (<[i:=y]> l)) == Qsum (map f l) - f x + f y.
Proof.
  induction l as [|a l IH]; intros i x y H; [discriminate|].
  destruct i as [|i]; cbn [map].
  - injection H as <-. change (<[0%nat:=y]> (a :: l)) with (y :: l).
    cbn [map]. rewrite !Qsum_cons. lra.
  - change (<[S i:=y]> (a :: l)) with (a :: <[i:=y]> l). cbn [map].
    rewrite !Qsum_cons, (IH i x y H). lra.
Qed.

(** What a step adds to the clock is what it adds to the CPU consumed and to
    the blocked time of the process. *)
Lemma eat_cpu_busy p dt p' taken io_dur t :
  nonneg_durations p ->
  eat_cpu p dt = (p', taken, io_dur) ->
  advance t taken io_dur - t == busy p' - busy p.
Proof.
  intros Hnn H. unfold nonneg_durations in Hnn. unfold busy, advance.
  assert (Hd : forall ev, io_events p !! next_io_index p = Some ev ->
                 Qle_bool 0 (duration ev) = true).
  { intros ev Hev. apply Qle_bool_iff. rewrite Forall_lookup in Hnn. eauto. }
  eat_cpu_cases H; try rewrite (Hd _ eq_refl);
    try change (Qle_bool 0 (-1)) with false; cbn [remaining]; lra.
Qed.

Lemma quantum_turn_busy p t p' taken t' :
  nonneg_durations p ->
  quantum_turn p t = (p', taken, t') ->
  t' - t == busy p' - busy p.
Proof.
  intros Hnn H. unfold quantum_turn in H.
  destruct (eat_cpu (mark_first_run p t) QUANTUM) as [[p1 tk] io] eqn:He.
  injection H as <- _ <-.
  destruct (mark_first_run_fields p t) as (_ & _ & E1 & _ & E2 & _).
  assert (Hb : busy (mark_first_run p t) = busy p).
  { unfold busy, mark_first_run. destruct (Qltb _ _); reflexivity. }
  rewrite <- Hb. apply (eat_cpu_busy _ QUANTUM); [|exact He].
  unfold nonneg_durations. rewrite E1. exact Hnn.
Qed.

(** ** FIFO and SJF: one process after the other *)

Lemma nonneg_durations_eat p dt p' taken io_dur :
  nonneg_durations p -> eat_cpu p dt = (p', taken, io_dur) ->
  nonneg_durations p'.
Proof.
  intros Hn H. unfold nonneg_durations.
  rewrite (proj1 (proj2 (proj2 (eat_cpu_frame _ _ _ _ _ H)))). exact Hn.
Qed.

Lemma fifo_while_busy fuel p t p' t' :
  proc_inv p -> nonneg_durations p ->
  fifo_while fuel p t = Ok (p', t') ->
  t' - t == busy p' - busy p /\ t <= t' /\
  proc_inv p' /\ first_run_time p' = first_run_time p /\
  remaining p' <= EPS.
Proof.
  intros Hinv Hnn H.
  pose (P := fun (q : Process) (tq : Q) =>
    tq - t == busy q - busy p /\ nonneg_durations q).
  destruct (fifo_while_ind P) with (fuel := fuel) (p := p) (t := t)
    (p' := p') (t' := t') as [[H1 H2] H3]; auto.
  - intros q tq q' taken io_dur [I1 I2] _ He. split.
    + pose proof (eat_cpu_busy q (remaining q) q' taken io_dur tq I2 He). lra.
    + eapply nonneg_durations_eat; eauto.
  - split; [lra | exact Hnn].
  - destruct (fifo_while_post _ _ _ _ _ Hinv H) as (J1 & _ & J3 & J4 & J5).
    apply is_done_true in J5. auto.
Qed.

Lemma fifo_for_no_result fuel procs t procs' t' :
  fifo_for fuel procs t = Ok (procs', [], t') -> t' = t.
Proof.
  destruct procs as [|p rest]; cbn; intros H; [congruence|].
  destruct (fifo_while fuel (mark_first_run p t) t) as [[p1 t1]| |];
    try discriminate.
  cbn in H. destruct (fifo_for fuel rest t1) as [[[rest' res'] t2]| |];
    discriminate.
Qed.

Lemma fifo_for_back_to_back fuel : forall procs t procs' res t',
  0 <= t -> Forall fresh procs ->
  fifo_for fuel procs t = Ok (procs', res, t') ->
  back_to_back t res /\ t <= t' /\
  (forall r, last res = Some r -> Elapsed r = t').
Proof.
  induction procs as [|p rest IH]; intros t procs' res t' Ht Hall H; cbn in H.
  - injection H as <- <- <-. cbn. split; [exact I|]. split; [lra|].
    intros r Hr. discriminate Hr.
  - inversion Hall as [|? ? (Hinv & Hfr & Hc & Hb & Hnn) Hrest]; subst.
    assert (Hmark : mark_first_run p t = set_first_run_time p t).
    { unfold mark_first_run. rewrite Hfr. reflexivity. }
    rewrite Hmark in H.
    destruct (fifo_while fuel (set_first_run_time p t) t) as [[p1 t1]| |] eqn:Hw;
      try discriminate.
    cbn in H.
    destruct (fifo_for fuel rest t1) as [[[rest' res'] t2]| |] eqn:Hf;
      try discriminate.
    cbn in H. injection H as <- <- <-.
    destruct (fifo_while_busy fuel (set_first_run_time p t) t p1 t1)
      as (B1 & B2 & B3 & B4 & B5); [exact Hinv | exact Hnn | exact Hw |].
    assert (Ht1 : 0 <= t1) by lra.
    destruct (IH t1 rest' res' t2 Ht1 Hrest Hf) as (K1 & K2 & K3).
    assert (E1 : Qltb t1 0 = false) by (apply Qltb_ge; exact Ht1).
    assert (E2 : Qltb t 0 = false) by (apply Qltb_ge; exact Ht).
    assert (HE : Elapsed (emit (set_finish_time p1 t1)) = t1).
    { unfold emit, fill_result. cbn. rewrite E1. reflexivity. }
    assert (HF : FirstRun (emit (set_finish_time p1 t1)) = t).
    { unfold emit, fill_result. cbn. rewrite B4. cbn. rewrite E2. reflexivity. }
    split; [|split].
    + cbn [back_to_back]. rewrite HE, HF. split; [reflexivity|].
      split; [|split; [exact B2 | exact K1] ].
      unfold emit, fill_result, busy in *. cbn in *. rewrite Hc, Hb in B1. lra.
    + lra.
    + intros r Hr. destruct res' as [|r' res'].
      * cbn in Hr. injection Hr as <-. rewrite HE.
        symmetry. exact (fifo_for_no_result _ _ _ _ _ Hf).
      * apply K3. exact Hr.
Qed.

Lemma clone_fresh defs :
  Forall (fun d => 0 <= total_cpu_needed d /\ nonneg_durations d) defs ->
  Forall fresh (clone_processes defs).
Proof.
  intros H. unfold clone_processes. apply Forall_fmap.
  eapply Forall_impl; [exact H|]. intros d [H1 H2].
  split; [apply clone_process_inv; exact H1|]. repeat split. exact H2.
Qed.

Lemma valid_fresh defs :
  valid_scenario defs -> Forall nonneg_durations defs ->
  Forall fresh (clone_processes defs).
Proof.
  intros Hv Hn. apply clone_fresh.
  pose proof (valid_scenario_nonneg _ Hv) as Hnn.
  rewrite Forall_forall in Hnn, Hn |- *. intros d Hd. split; auto.
Qed.

Lemma run_back_to_back (qsort : sorter) (defs : list Process)
    (fuel : nat) (procs : list Process) (res : list Result) :
  qsort_contract qsort ->
  valid_scenario defs ->
  Forall nonneg_durations defs ->
  run_fifo fuel defs = Ok (procs, res) \/
  run_sjf qsort fuel defs = Ok (procs, res) ->
  back_to_back 0 res.
Proof.
  intros Hq Hv Hn [H|H].
  - unfold run_fifo in H.
    destruct (fifo_for fuel (clone_processes defs) 0) as [[[ps rs] t]| |] eqn:Hf;
      try discriminate.
    cbn in H. injection H as <- <-.
    exact (proj1 (fifo_for_back_to_back fuel _ _ _ _ _ (Qle_refl 0)
                    (valid_fresh _ Hv Hn) Hf)).
  - unfold run_sjf in H. rewrite sjf_for_fifo in H.
    destruct (fifo_for fuel (qsort cmp_total_cpu (clone_processes defs)) 0)
      as [[[ps rs] t]| |] eqn:Hf; try discriminate.
    cbn in H. injection H as <- <-.
    refine (proj1 (fifo_for_back_to_back fuel _ _ _ _ _ (Qle_refl 0) _ Hf)).
    rewrite (proj1 (Hq (clone_processes defs))). exact (valid_fresh _ Hv Hn).
Qed.

Lemma up_to_rounding_eq a b : a == b -> up_to_rounding a b.
Proof.
  intros H. unfold up_to_rounding. apply Qabs_Qle_condition.
  pose proof (Qabs_nonneg b) as Hb. revert Hb. generalize (Qabs b). intros k Hk.
  unfold EPS. split; lra.
Qed.

Lemma back_to_back_handed_over (res : list Result) : forall t,
  back_to_back t res -> handed_over t res.
Proof.
  induction res as [|r res IH]; intros t H; [exact I|].
  destruct H as (H1 & H2 & H3 & H4).
  split; [exact H1|]. split; [apply up_to_rounding_eq; exact H2|].
  split; [exact H3 | apply IH; exact H4].
Qed.


Lemma back_to_back_after (res : list Result) : forall t j b,
  back_to_back t res -> res !! j = Some b ->
  t <= FirstRun b /\ FirstRun b <= Elapsed b.
Proof.
  induction res as [|r rest IH]; intros t j b H Hb; [discriminate|].
  destruct H as (H1 & _ & H3 & H4). destruct j as [|j].
  - injection Hb as <-. rewrite H1. split; [lra | exact H3].
  - destruct (IH _ _ _ H4 Hb) as [K1 K2]. split; [lra | exact K2].
Qed.

Lemma back_to_back_before (res : list Result) : forall t i j a b,
  back_to_back t res -> (i < j)%nat ->
  res !! i = Some a -> res !! j = Some b -> Elapsed a <= FirstRun b.
Proof.
  induction res as [|r rest IH]; intros t i j a b H Hij Ha Hb; [discriminate|].
  destruct H as (H1 & _ & H3 & H4).
  destruct j as [|j]; [lia|]. destruct i as [|i].
  - injection Ha as <-. exact (proj1 (back_to_back_after _ _ _ _ H4 Hb)).
  - apply (IH _ i j a b H4); [lia | exact Ha | exact Hb].
Qed.

Lemma StronglySorted_lookup_lt {A} (R : A -> A -> Prop) (l : list A) :
  forall i j a b, StronglySorted R l -> (i < j)%nat ->
  l !! i = Some a -> l !! j = Some b -> R a b.
Proof.
  induction l as [|x l IH]; intros i j a b Hs Hij Ha Hb; [discriminate|].
  inversion Hs as [|? ? Hs' Hall]; subst.
  destruct j as [|j]; [lia|]. destruct i as [|i].
  - injection Ha as <-. rewrite List.Forall_forall in Hall. apply Hall.
    apply list_elem_of_In. apply list_elem_of_lookup. eauto.
  - apply (IH i j); auto. lia.
Qed.

(** X4: under SJF a process of smaller demand has finished before a process
    of larger demand first runs. *)
Theorem run_sjf_shortest_first (qsort : sorter) (defs : list Process)
    (fuel : nat) (procs : list Process) (res : list Result) :
  qsort_contract qsort ->
  valid_scenario defs ->
  Forall nonneg_durations defs ->
  run_sjf qsort fuel defs = Ok (procs, res) ->
  res = map emit procs /\
  forall p q, p ∈ procs -> q ∈ procs ->
    total_cpu_needed p < total_cpu_needed q ->
    Elapsed (emit p) <= FirstRun (emit q).
Proof.
  intros Hq Hv Hn H.
  pose proof (run_back_to_back qsort defs fuel procs res Hq Hv Hn
                (or_intror H)) as Hbb.
  destruct (run_sjf_post _ _ _ _ _ Hq Hv H) as (Hord & _ & Hres).
  split; [exact Hres|]. intros p q Hp Hq' Hlt.
  apply list_elem_of_lookup in Hp, Hq'. destruct Hp as [i Hi], Hq' as [j Hj].
  destruct (Forall2_lookup_r _ _ _ _ _ Hord Hi) as (dp & Hdp & _ & Tp & _).
  destruct (Forall2_lookup_r _ _ _ _ _ Hord Hj) as (dq & Hdq & _ & Tq & _).
  destruct (Hq (clone_processes defs)) as [_ Hsorted].
  assert (Hij : (i < j)%nat).
  { destruct (Nat.lt_trichotomy i j) as [?|[->|Hji]]; [assumption| |].
    - rewrite Hi in Hj. injection Hj as ->. lra.
    - pose proof (StronglySorted_lookup_lt _ _ _ _ _ _ Hsorted Hji Hdq Hdp) as Hle.
      cbv beta in Hle. apply cmp_total_cpu_le in Hle.
      rewrite Tp, Tq in Hlt. lra. }
  subst res. apply (back_to_back_before (map emit procs) 0 i j); auto.
  - rewrite list_lookup_fmap, Hi. reflexivity.
  - rewrite list_lookup_fmap, Hj. reflexivity.
Qed.

(** ** The clock: no idle time under any policy *)

Lemma emit_finish p t :
  0 <= t -> Elapsed (emit (set_finish_time p t)) = t.
Proof.
  intros Ht. unfold emit, fill_result, set_finish_time. cbn.
  destruct (Qltb t 0) eqn:E; [|reflexivity]. q_bool. lra.
Qed.

Lemma StronglySorted_snoc {A} (R : A -> A -> Prop) l x :
  StronglySorted R l -> Forall (fun a => R a x) l -> StronglySorted R (l ++ [x]).
Proof.
  induction 1 as [|a l Hs IH Ha]; intros Hx; cbn.
  - constructor; constructor.
  - inversion Hx; subst. constructor; [auto|].
    apply List.Forall_app. split; [exact Ha|]. constructor; [assumption|constructor].
Qed.

Lemma quantum_turn_durations p t p' taken t' :
  nonneg_durations p -> quantum_turn p t = (p', taken, t') ->
  nonneg_durations p'.
Proof.
  intros Hn H. unfold quantum_turn in H.
  destruct (eat_cpu (mark_first_run p t) QUANTUM) as [[p1 tk] io] eqn:He.
  injection H as <- _ _.
  apply (nonneg_durations_eat (mark_first_run p t) QUANTUM p1 tk io); [|exact He].
  unfold nonneg_durations.
  rewrite (proj1 (proj2 (proj2 (mark_first_run_fields p t)))). exact Hn.
Qed.

Lemma clock_inv_turn procs waiting res t i p p' taken t' :
  clock_inv procs waiting res t ->
  procs !! i = Some p ->
  quantum_turn p t = (p', taken, t') ->
  t <= t' ->
  (forall waiting', waiting' <> [] -> clock_inv (<[i:=p']> procs) waiting' res t') /\
  (forall waiting',
     clock_inv (<[i:=set_finish_time p' t']> procs) waiting'
       (res ++ [emit (set_finish_time p' t')]) t').
Proof.
  intros (H0 & Hn & Ht & Hle & Hs & Hlast) Hp Hturn Htt.
  assert (Hnp : nonneg_durations p) by (rewrite Forall_lookup in Hn; eauto).
  pose proof (quantum_turn_durations _ _ _ _ _ Hnp Hturn) as Hnp'.
  pose proof (quantum_turn_busy _ _ _ _ _ Hnp Hturn) as Hb.
  assert (Hle' : Forall (fun r => Elapsed r <= t') res).
  { eapply Forall_impl; [exact Hle|]. cbn. intros r Hr. lra. }
  assert (H0' : 0 <= t') by lra.
  split; intros waiting'.
  - intros Hne. split; [exact H0'|]. split; [apply Forall_insert; assumption|].
    split; [rewrite (Qsum_insert busy procs i p p' Hp); lra|].
    split; [exact Hle'|]. split; [exact Hs|]. intros E. contradiction.
  - split; [exact H0'|]. split; [apply Forall_insert; assumption|].
    split.
    { rewrite (Qsum_insert busy procs i p (set_finish_time p' t') Hp).
      change (busy (set_finish_time p' t')) with (busy p'). lra. }
    split.
    { apply Forall_app. split; [exact Hle'|]. constructor; [|constructor].
      rewrite emit_finish by exact H0'. lra. }
    split.
    { apply StronglySorted_snoc; [exact Hs|].
      eapply Forall_impl; [exact Hle'|]. cbn. intros r Hr. unfold by_finish.
      rewrite emit_finish by exact H0'. exact Hr. }
    intros _ r Hr. rewrite last_snoc in Hr. injection Hr as <-.
    apply emit_finish. exact H0'.
Qed.

Lemma busy_clone defs : Qsum (map busy (clone_processes defs)) == 0.
Proof.
  induction defs as [|d defs IH]; [reflexivity|].
  change (clone_processes (d :: defs)) with (clone_process d :: clone_processes defs).
  cbn [map]. rewrite Qsum_cons, IH. unfold busy, clone_process. cbn. lra.
Qed.

Lemma nonneg_durations_clone defs :
  Forall nonneg_durations defs -> Forall nonneg_durations (clone_processes defs).
Proof.
  intros H. unfold clone_processes. apply Forall_fmap.
  eapply Forall_impl; [exact H|]. intros d Hd. exact Hd.
Qed.

Lemma clock_inv_init defs waiting :
  Forall nonneg_durations defs -> clock_inv (clone_processes defs) waiting [] 0.
Proof.
  intros H. split; [lra|]. split; [apply nonneg_durations_clone; exact H|].
  split; [rewrite busy_clone; reflexivity|].
  split; [constructor|]. split; [constructor|]. intros _ r Hr. discriminate.
Qed.

Lemma rr_body_clock defs s s' :
  rr_inv defs s -> rr_clock s -> rr_body s = Ok s' -> rr_clock s'.
Proof.
  intros Hinv Hc Hb.
  destruct (rr_body_inv _ _ _ Hinv Hb) as (_ & Htt & _).
  destruct (rr_queue s !! rr_qstart s) as [i|] eqn:Hq;
    [|unfold rr_body in Hb; rewrite Hq in Hb; discriminate].
  pose proof (rr_waiting_head s i Hq) as Hw.
  destruct (sched_inv_waiting _ _ _ _ _ i Hinv) as [p Hp].
  { rewrite Hw. left. }
  destruct (quantum_turn p (rr_t s)) as [[p' taken] t'] eqn:Hturn.
  rewrite (rr_body_turn s i p p' taken t' Hq Hp Hturn) in Hb.
  destruct (is_done p') eqn:Hdone.
  - injection Hb as <-. cbn in Htt.
    destruct (clock_inv_turn _ _ _ _ _ _ _ _ _ Hc Hp Hturn Htt) as [_ K].
    unfold rr_clock. cbn. apply K.
  - destruct (rr_qend s <? rr_cap s)%nat; [|discriminate].
    injection Hb as <-. cbn in Htt.
    destruct (clock_inv_turn _ _ _ _ _ _ _ _ _ Hc Hp Hturn Htt) as [K _].
    unfold rr_clock, rr_waiting. cbn. apply K.
    rewrite drop_app_le by (apply lookup_lt_Some in Hq; lia).
    intros E. apply app_eq_nil in E. destruct E as [_ E]. discriminate.
Qed.

Lemma rr_while_clock defs fuel : forall s s',
  rr_inv defs s -> rr_clock s -> rr_while fuel s = Ok s' -> rr_clock s'.
Proof.
  induction fuel as [|fuel IH]; intros s s' Hinv Hc H; rewrite rr_while_eq in H.
  - destruct (rr_qstart s <? rr_qend s)%nat; [discriminate|].
    injection H as <-. exact Hc.
  - destruct (rr_qstart s <? rr_qend s)%nat.
    + destruct (rr_body s) as [s1| |] eqn:Hb; try discriminate.
      cbn in H. destruct (rr_body_inv _ _ _ Hinv Hb) as (Hinv1 & _).
      exact (IH _ _ Hinv1 (rr_body_clock _ _ _ Hinv Hc Hb) H).
    + injection H as <-. exact Hc.
Qed.

Lemma mlfq_body_clock defs qidx s s' :
  mlfq_inv defs s -> mlfq_clock s -> mlfq_body qidx s = Ok s' -> mlfq_clock s'.
Proof.
  intros Hinv0 Hc Hb.
  destruct (mlfq_body_inv _ _ _ _ Hinv0 Hb) as (_ & Htt).
  destruct Hinv0 as [Hlen Hinv].
  destruct (mq_queues s !! qidx) as [[|i q]|] eqn:Hq;
    try (unfold mlfq_body in Hb; rewrite Hq in Hb; discriminate).
  pose proof (concat_insert_head _ _ _ _ Hq) as Hperm.
  destruct (sched_inv_waiting _ _ _ _ _ i Hinv) as [p Hp].
  { unfold mlfq_waiting. rewrite Hperm. left. }
  destruct (quantum_turn p (mq_t s)) as [[p' taken] t'] eqn:Hturn.
  rewrite (mlfq_body_turn qidx s i q p p' taken t' Hq Hp Hturn) in Hb.
  assert (Hqidx : (qidx < LEVELS)%nat).
  { rewrite <- Hlen. eapply lookup_lt_Some; eauto. }
  destruct (is_done p') eqn:Hdone; injection Hb as <-; cbn in Htt;
    destruct (clock_inv_turn _ _ _ _ _ _ _ _ _ Hc Hp Hturn Htt) as [K1 K2];
    unfold mlfq_clock, mlfq_waiting; cbn.
  - apply K2.
  - apply K1. intros E.
    pose proof (concat_alter_snoc (<[qidx:=q]> (mq_queues s))
                  (next_level qidx taken) i) as Hpm.
    rewrite E in Hpm.
    eapply Permutation_nil_cons. apply Hpm.
    rewrite length_insert, Hlen. apply next_level_bounds. exact Hqidx.
Qed.

Lemma mlfq_while_clock defs fuel : forall s s',
  mlfq_inv defs s -> mlfq_clock s -> mlfq_while fuel s = Ok s' -> mlfq_clock s'.
Proof.
  induction fuel as [|fuel IH]; intros s s' Hinv Hc H; rewrite mlfq_while_eq in H;
    destruct (first_nonempty (mq_queues s) 0) as [qidx|] eqn:E;
    try discriminate; try (injection H as <-; exact Hc).
  destruct (mlfq_body qidx s) as [s1| |] eqn:Hb; try discriminate.
  cbn in H. destruct (mlfq_body_inv _ _ _ _ Hinv Hb) as (Hinv1 & _).
  exact (IH _ _ Hinv1 (mlfq_body_clock _ _ _ _ Hinv Hc Hb) H).
Qed.

Lemma back_to_back_sum (res : list Result) : forall t,
  back_to_back t res ->
  Forall (fun r => t <= Elapsed r) res /\
  StronglySorted by_finish res /\
  forall r, last res = Some r -> Elapsed r == t + Qsum (map service res).
Proof.
  induction res as [|a res IH]; intros t H.
  - split; [constructor|]. split; [constructor|]. intros r Hr. discriminate.
  - destruct H as (H1 & H2 & H3 & H4).
    destruct (IH _ H4) as (K1 & K2 & K3).
    split.
    { constructor; [exact H3|]. eapply Forall_impl; [exact K1|].
      cbn. intros r Hr. lra. }
    split.
    { constructor; [exact K2|]. apply List.Forall_forall. intros r Hr.
      apply list_elem_of_In in Hr. rewrite Forall_forall in K1.
      exact (K1 r Hr). }
    intros r Hr. cbn [map]. rewrite Qsum_cons. unfold service at 1.
    destruct res as [|b res].
    + injection Hr as <-. cbn. rewrite H1 in H2. lra.
    + change (last (a :: b :: res)) with (last (b :: res)) in Hr.
      rewrite (K3 r Hr). rewrite H1 in H2. lra.
Qed.

Lemma service_emit procs res :
  Permutation res (map emit procs) ->
  Qsum (map service res) == Qsum (map busy procs).
Proof.
  intros H. rewrite (Qsum_perm _ _ (Permutation_map service H)).
  rewrite map_map. apply Qsum_map_ext. apply Forall_forall. intros p _.
  reflexivity.
Qed.


(** ** Round-Robin: a buffer that is large enough *)

(** A process that is not done has a turn to take. *)
Lemma quanta_left_pos p : 0 < remaining p -> (1 <= quanta_left p)%nat.
Proof.
  intros H. unfold quanta_left.
  pose proof (Qle_ceiling (remaining p / QUANTUM)) as U.
  unfold QUANTUM, Qdiv in *. change (/ (1 # 2)) with 2 in *.
  assert (A : 0 < inject_Z (Qceiling (remaining p * 2))) by lra.
  change 0 with (inject_Z 0) in A. rewrite <- Zlt_Qlt in A. lia.
Qed.

Lemma requeue_insert_notin procs i (x : Process) w :
  i ∉ w -> requeue_bound (<[i:=x]> procs) w = requeue_bound procs w.
Proof.
  unfold requeue_bound. induction w as [|j w IH]; intros Hi; cbn; [reflexivity|].
  rewrite IH by (intros H; apply Hi; right; exact H).
  rewrite list_lookup_total_insert_ne; [reflexivity|].
  intros ->. apply Hi. left.
Qed.

(** A turn that leaves the process unfinished uses up one of the writes it
    can cause; a turn that finishes it causes none. *)
Lemma requeue_turn procs waiting i w p t p' taken t' :
  NoDup waiting ->
  Permutation waiting (i :: w) ->
  procs !! i = Some p ->
  quantum_turn p t = (p', taken, t') ->
  (is_done p' = false -> forall waiting', Permutation waiting' (i :: w) ->
     (S (requeue_bound (<[i:=p']> procs) waiting') <= requeue_bound procs waiting)%nat) /\
  (forall x waiting', Permutation waiting' w ->
     (requeue_bound (<[i:=x]> procs) waiting' <= requeue_bound procs waiting)%nat).
Proof.
  intros Hnd Hw Hp Hturn.
  assert (Hiw : i ∉ w).
  { rewrite Hw in Hnd. apply NoDup_cons in Hnd. tauto. }
  assert (Hbound : requeue_bound procs waiting
                   = (requeues_left p + requeue_bound procs w)%nat).
  { unfold requeue_bound.
    rewrite (sum_list_with_Permutation_proper _ _ _ Hw). cbn.
    rewrite (list_lookup_total_correct _ _ _ Hp). reflexivity. }
  assert (Hlen : (i < length procs)%nat) by (eapply lookup_lt_Some; eauto).
  split.
  - intros Hdone waiting' Hw'.
    unfold quantum_turn in Hturn.
    destruct (eat_cpu (mark_first_run p t) QUANTUM) as [[p1 tk] io] eqn:He.
    injection Hturn as -> -> <-.
    pose proof (eat_quantum_progress _ _ _ _ He Hdone) as Hlt.
    rewrite turns_left_mark_first_run in Hlt.
    assert (Hpos : (1 <= turns_left p')%nat).
    { apply is_done_false in Hdone. unfold turns_left.
      assert (Hr : 0 < remaining p') by (unfold EPS in Hdone; lra).
      pose proof (quanta_left_pos p' Hr). lia. }
    rewrite Hbound. unfold requeue_bound at 1.
    rewrite (sum_list_with_Permutation_proper _ _ _ Hw'). cbn.
    rewrite list_lookup_total_insert_eq by exact Hlen.
    fold (requeue_bound (<[i:=p']> procs) w).
    rewrite requeue_insert_notin by exact Hiw. unfold requeues_left. lia.
  - intros x waiting' Hw'. rewrite Hbound. unfold requeue_bound at 1.
    rewrite (sum_list_with_Permutation_proper _ _ _ Hw').
    fold (requeue_bound (<[i:=x]> procs) w).
    rewrite requeue_insert_notin by exact Hiw. lia.
Qed.

Lemma rr_body_room defs s :
  rr_inv defs s ->
  (rr_qstart s < rr_qend s)%nat ->
  rr_room s ->
  exists s', rr_body s = Ok s' /\ rr_room s' /\
    (work (rr_procs s') (rr_waiting s') < work (rr_procs s) (rr_waiting s))%nat.
Proof.
  intros Hinv Hlt Hroom.
  destruct (rr_head_Some s Hlt) as [i Hq].
  pose proof (rr_waiting_head s i Hq) as Hw.
  destruct (sched_inv_waiting _ _ _ _ _ i Hinv) as [p Hp].
  { rewrite Hw. left. }
  destruct (quantum_turn p (rr_t s)) as [[p' taken] t'] eqn:Hturn.
  rewrite (rr_body_turn s i p p' taken t' Hq Hp Hturn).
  assert (Hperm : Permutation (rr_waiting s) (i :: drop (S (rr_qstart s)) (rr_queue s)))
    by (rewrite Hw; reflexivity).
  pose proof (sched_inv_NoDup _ _ _ _ _ Hinv) as Hnodup.
  destruct (work_turn _ _ _ _ _ _ _ _ _ Hnodup Hperm Hp Hturn) as [Wnd Wd].
  destruct (requeue_turn _ _ _ _ _ _ _ _ _ Hnodup Hperm Hp Hturn) as [Rnd Rd].
  unfold rr_room, rr_qend in Hroom.
  remember (rr_waiting s) as W eqn:HW.
  destruct (is_done p') eqn:Hdone.
  - eexists. split; [reflexivity|].
    pose proof (Wd (set_finish_time p' t') (drop (S (rr_qstart s)) (rr_queue s))
                  (Permutation_refl _)) as Wless.
    pose proof (Rd (set_finish_time p' t') (drop (S (rr_qstart s)) (rr_queue s))
                  (Permutation_refl _)) as Rless.
    unfold rr_room, rr_waiting, rr_qend.
    cbn [rr_procs rr_cap rr_queue rr_qstart]. split; lia.
  - assert (Hw' : drop (S (rr_qstart s)) (rr_queue s ++ [i])
                  = drop (S (rr_qstart s)) (rr_queue s) ++ [i]).
    { apply drop_app_le. apply lookup_lt_Some in Hq. lia. }
    assert (Hp' : Permutation (drop (S (rr_qstart s)) (rr_queue s) ++ [i])
                    (i :: drop (S (rr_qstart s)) (rr_queue s))).
    { rewrite <- Permutation_cons_append. reflexivity. }
    pose proof (Wnd eq_refl _ Hp') as Wless.
    pose proof (Rnd eq_refl _ Hp') as Rless.
    assert (Hfit : (rr_qend s <? rr_cap s)%nat = true).
    { apply Nat.ltb_lt. unfold rr_qend. lia. }
    rewrite Hfit. eexists. split; [reflexivity|].
    unfold rr_room, rr_waiting, rr_qend.
    cbn [rr_procs rr_cap rr_queue rr_qstart].
    rewrite Hw', length_app. cbn [length]. split; lia.
Qed.

Lemma rr_while_room defs fuel : forall s,
  rr_inv defs s -> rr_room s ->
  (work (rr_procs s) (rr_waiting s) <= fuel)%nat ->
  exists s', rr_while fuel s = Ok s'.
Proof.
  induction fuel as [|fuel IH]; intros s Hinv Hroom Hwork; rewrite rr_while_eq;
    destruct (rr_qstart s <? rr_qend s)%nat eqn:E; try (eexists; reflexivity);
    apply Nat.ltb_lt in E.
  - pose proof (rr_work_pos s E). lia.
  - destruct (rr_body_room _ _ Hinv E Hroom) as (s1 & Hb & Hroom1 & Hlt).
    rewrite Hb. cbn. apply IH; [|exact Hroom1|lia].
    exact (proj1 (rr_body_inv _ _ _ Hinv Hb)).
Qed.

(** X6: Round-Robin returns when the writes to [queue] the scenario can
    cause fit the buffer: a process is written again after each of its turns
    but the last, it has at most one turn per event and per quantum of its
    demand, and the buffer has [n] cells beyond the first [n]. *)
Theorem run_rr_returns_with_room (defs : list Process) (fuel : nat) :
  valid_scenario defs ->
  (queue_requeues defs <= length defs)%nat ->
  (queue_fuel defs <= fuel)%nat ->
  exists procs res, run_rr fuel defs = Ok (procs, res) /\ run_post defs procs res.
Proof.
  intros Hv Hroom Hfuel.
  pose proof (rr_init_inv defs (valid_scenario_nonneg _ Hv)) as Hinv.
  destruct (rr_while_room defs fuel (rr_init defs) Hinv) as [s Hs].
  - unfold rr_room, rr_init, rr_waiting, rr_qend.
    cbn [rr_procs rr_cap rr_queue rr_qstart].
    rewrite drop_0, length_seq. unfold queue_requeues in Hroom. lia.
  - unfold rr_init, rr_waiting. cbn [rr_procs rr_cap rr_queue rr_qstart].
    rewrite drop_0. exact Hfuel.
  - assert (Hrun : run_rr fuel defs = Ok (rr_procs s, rr_res s))
      by (unfold run_rr; rewrite Hs; reflexivity).
    exists (rr_procs s), (rr_res s). split; [exact Hrun|].
    exact (run_rr_post _ _ _ _ Hv Hrun).
Qed.

(** ** Averages *)

Lemma find_name_spec (run : list Result) (nm : string) : forall todo j,
  (j + todo <= length run)%nat ->
  (exists i r, find_name run nm j todo = Ok (Some i) /\ run !! i = Some r /\
               res_name r = nm /\ (j <= i < j + todo)%nat /\
               forall i' r', (j <= i' < i)%nat -> run !! i' = Some r' ->
                 res_name r' <> nm) \/
  (find_name run nm j todo = Ok None /\
   forall i r, (j <= i < j + todo)%nat -> run !! i = Some r -> res_name r <> nm).
Proof.
  induction todo as [|todo IH]; intros j Hj; cbn [find_name].
  - right. split; [reflexivity|]. intros i r Hi. lia.
  - destruct (run !! j) as [r|] eqn:Hr.
    2:{ apply lookup_ge_None in Hr. lia. }
    destruct (String.eqb_spec (res_name r) nm) as [E|E].
    + left. exists j, r. split; [reflexivity|]. split; [exact Hr|].
      split; [exact E|]. split; [lia|]. intros i' r' Hi'. lia.
    + destruct (IH (S j) ltac:(lia)) as [(i & x & H1 & H2 & H3 & H4 & H5)|[H1 H2]].
      * left. exists i, x. split; [exact H1|]. split; [exact H2|].
        split; [exact H3|]. split; [lia|]. intros i' r' Hi' Hr'.
        destruct (Nat.eq_dec i' j) as [->|Hne].
        -- rewrite Hr in Hr'. injection Hr' as <-. exact E.
        -- apply (H5 i' r'); [lia | exact Hr'].
      * right. split; [exact H1|]. intros i x Hi Hx.
        destruct (Nat.eq_dec i j) as [->|Hne].
        -- rewrite Hr in Hx. injection Hx as <-. exact E.
        -- apply (H2 i x); [lia | exact Hx].
Qed.

Lemma NoDup_res_name (run : list Result) a b :
  NoDup (map res_name run) -> a ∈ run -> b ∈ run ->
  res_name a = res_name b -> a = b.
Proof.
  induction run as [|x run IH]; intros Hnd Ha Hb E; [inversion Ha|].
  cbn in Hnd. apply NoDup_cons in Hnd. destruct Hnd as [Hx Hnd].
  apply elem_of_cons in Ha, Hb.
  destruct Ha as [->|Ha], Hb as [->|Hb]; auto.
  - exfalso. apply Hx. rewrite E. apply list_elem_of_fmap. eauto.
  - exfalso. apply Hx. rewrite <- E. apply list_elem_of_fmap. eauto.
Qed.

Lemma accumulate_cell_named runs r run a x m :
  runs !! r = Some run ->
  NoDup (map res_name run) ->
  a ∈ run ->
  times_result m a x ->
  exists x', accumulate_cell runs r (length run) x = Ok x' /\
             times_result (S m) a x'.
Proof.
  intros Hr Hnd Ha (N & E1 & E2 & E3 & E4).
  unfold accumulate_cell. rewrite Hr.
  destruct (find_name_spec run (res_name x) (length run) 0 ltac:(lia))
    as [(i & b & H1 & H2 & H3 & _)|[_ H2]].
  - rewrite H1. cbn. rewrite H2.
    assert (b = a) as ->.
    { apply (NoDup_res_name run); auto.
      - apply list_elem_of_lookup. eauto.
      - congruence. }
    eexists. split; [reflexivity|].
    unfold times_result, add_result. cbn [res_name Elapsed CPU BLOCKED FirstRun].
    rewrite Nat2Z.inj_succ. unfold Z.succ. rewrite inject_Z_plus.
    rewrite E1, E2, E3, E4. repeat split; try exact N; ring.
  - exfalso. apply list_elem_of_lookup in Ha. destruct Ha as [i Hi].
    apply (H2 i a); [|exact Hi|congruence].
    apply lookup_lt_Some in Hi. lia.
Qed.

Lemma accumulate_run_named runs r run m :
  runs !! r = Some run ->
  NoDup (map res_name run) ->
  forall (rows avg : list Result),
  Forall (fun a => a ∈ run) rows ->
  Forall2 (times_result m) rows avg ->
  exists avg', accumulate_run runs r (length run) avg = Ok avg' /\
               Forall2 (times_result (S m)) rows avg'.
Proof.
  intros Hr Hnd rows avg Hin H. induction H as [|a x rows avg Hax _ IH].
  - exists []. split; [reflexivity | constructor].
  - inversion Hin as [|? ? Ha Hin']; subst.
    destruct (accumulate_cell_named runs r run a x m Hr Hnd Ha Hax) as (x' & Hx & Hx').
    destruct (IH Hin') as (avg' & Hav & Hav').
    exists (x' :: avg'). cbn [accumulate_run]. rewrite Hx. cbn. rewrite Hav. cbn.
    split; [reflexivity | constructor; assumption].
Qed.

Lemma accumulate_runs_named runs (rows : list Result) : forall todo r m avg,
  NoDup (map res_name rows) ->
  (forall k run, (r <= k < r + todo)%nat -> runs !! k = Some run ->
     Permutation run rows) ->
  (r + todo <= length runs)%nat ->
  Forall2 (times_result m) rows avg ->
  exists avg', accumulate_runs runs (length rows) r todo avg = Ok avg' /\
               Forall2 (times_result (m + todo)) rows avg'.
Proof.
  induction todo as [|todo IH]; intros r m avg Hnd Hperm Hlen H.
  - exists avg. split; [reflexivity|]. rewrite Nat.add_0_r. exact H.
  - destruct (runs !! r) as [run|] eqn:Hr.
    2:{ apply lookup_ge_None in Hr. lia. }
    assert (Hp : Permutation run rows) by (apply (Hperm r); [lia | exact Hr]).
    assert (Hnd' : NoDup (map res_name run)) by (rewrite Hp; exact Hnd).
    assert (Hin : Forall (fun a => a ∈ run) rows).
    { apply Forall_forall. intros a Ha. rewrite Hp. exact Ha. }
    destruct (accumulate_run_named runs r run m Hr Hnd' rows avg Hin H)
      as (avg1 & H1 & H1').
    rewrite (Permutation_length Hp) in H1.
    destruct (IH (S r) (S m) avg1 Hnd) as (avg' & H2 & H2'); [| lia | exact H1' |].
    { intros k run' Hk. apply Hperm. lia. }
    exists avg'. cbn [accumulate_runs]. rewrite H1. cbn. rewrite H2.
    split; [reflexivity|]. replace (m + S todo)%nat with (S m + todo)%nat by lia.
    exact H2'.
Qed.

Lemma divide_times m a x :
  (0 < m)%nat -> times_result m a x -> same_result a (divide_result m x).
Proof.
  intros Hm (N & E1 & E2 & E3 & E4).
  assert (Hk : ~ inject_Z (Z.of_nat m) == 0).
  { intros E. unfold Qeq, inject_Z in E. cbn in E. lia. }
  unfold same_result, divide_result. cbn [res_name Elapsed CPU BLOCKED FirstRun].
  rewrite E1, E2, E3, E4. split; [exact N|].
  repeat split; rewrite Qmult_comm; apply Qdiv_mult_l; exact Hk.
Qed.

Lemma accumulate_same_runs (runs : list (list Result)) (rows : list Result) :
  runs !! 0%nat = Some rows ->
  NoDup (map res_name rows) ->
  Forall (fun run => Permutation run rows) runs ->
  exists avg,
    accumulate_results runs (length runs) (length rows) = Ok avg /\
    Forall2 same_result rows avg.
Proof.
  intros H0 Hnd Hall.
  assert (Hlen : (0 < length runs)%nat) by (apply lookup_lt_Some in H0; exact H0).
  assert (Hinit : accumulate_init runs (length rows) = Ok rows).
  { unfold accumulate_init. rewrite H0, Nat.leb_refl, firstn_all.
    destruct rows; reflexivity. }
  assert (H1 : Forall2 (times_result 1) rows rows).
  { apply Forall_Forall2_diag. apply Forall_forall. intros a _.
    unfold times_result. cbn. repeat split; ring. }
  destruct (accumulate_runs_named runs rows (length runs - 1) 1 1 rows Hnd)
    as (avg & Ha & Ha'); [| lia | exact H1 |].
  { intros k run _ Hk. rewrite Forall_lookup in Hall. exact (Hall k run Hk). }
  exists (map (divide_result (length runs)) avg).
  unfold accumulate_results. rewrite firstn_all, Hinit. cbn. rewrite Ha. cbn.
  split; [reflexivity|]. apply Forall2_fmap_r.
  replace (1 + (length runs - 1))%nat with (length runs) in Ha' by lia.
  eapply Forall2_impl; [exact Ha'|]. intros a x Hx.
  apply divide_times; assumption.
Qed.

Lemma same_near_result a b : same_result a b -> near_result a b.
Proof.
  intros (N & E1 & E2 & E3 & E4). split; [exact N|].
  repeat split; apply up_to_rounding_eq; assumption.
Qed.


(** ** The table [main] prints *)

Lemma main_runs_replicate qsort fuel alg base procs res :
  policy_run qsort alg fuel base procs res ->
  forall todo runs,
    main_runs qsort fuel alg base todo runs = Ok (None, runs ++ replicate todo res).
Proof.
  intros Hrun. induction todo as [|todo IH]; intros runs.
  - cbn. rewrite app_nil_r. reflexivity.
  - assert (Hnext : main_runs qsort fuel alg base todo (runs ++ [res])
                    = Ok (None, runs ++ replicate (S todo) res)).
    { rewrite IH, <- app_assoc. reflexivity. }
    destruct Hrun as [[-> H]|[[-> H]|[[-> H]|[-> H]]]];
      cbn [main_runs String.eqb Ascii.eqb Bool.eqb]; cbn; rewrite H; cbn; exact Hnext.
Qed.

Lemma emit_name p : res_name (emit p) = name p.
Proof. reflexivity. Qed.

Lemma run_post_names defs procs res :
  run_post defs procs res -> Permutation (map res_name res) (map name defs).
Proof.
  intros (Hdefs & _ & Hperm). rewrite Hperm.
  assert (E : map res_name (map emit procs) = map name defs).
  { clear Hperm. induction Hdefs as [|d p defs procs (N & _) _ IH];
      [reflexivity|]. cbn [map]. rewrite IH, <- N. reflexivity. }
  rewrite E. reflexivity.
Qed.

Ltac distinct_names :=
  cbn;
  repeat (apply NoDup_cons; split;
          [rewrite ?not_elem_of_cons; repeat split;
           first [discriminate | apply not_elem_of_nil]|]);
  apply NoDup_nil_2.

Lemma make_scenario_names scen base :
  make_scenario scen = Some base -> NoDup (map name base) /\ valid_scenario base.
Proof.
  unfold make_scenario. intros H.
  destruct (scen =? 1)%Z;
    [|destruct (scen =? 2)%Z; [|destruct (scen =? 3)%Z; [|destruct (scen =? 4)%Z]]];
    try discriminate; injection H as <-.
  - split; [distinct_names | apply make_scenario1_valid].
  - split; [distinct_names | apply make_scenario2_valid].
  - split; [distinct_names | apply make_scenario3_valid].
  - split; [distinct_names | apply make_scenario4_valid].
Qed.

Lemma policy_run_runs qsort alg fuel base procs res :
  policy_run qsort alg fuel base procs res ->
  run_fifo fuel base = Ok (procs, res) \/
  run_sjf qsort fuel base = Ok (procs, res) \/
  run_rr fuel base = Ok (procs, res) \/
  run_mlfq fuel base = Ok (procs, res).
Proof. unfold policy_run. tauto. Qed.


(** ** Averages over runs of any content *)

Lemma accumulate_cell_total runs r n run a :
  runs !! r = Some run -> (n <= length run)%nat ->
  exists a', accumulate_cell runs r n a = Ok a' /\
    res_name a' = res_name a /\ (lacks run n (res_name a) -> a' = a).
Proof.
  intros Hr Hn. unfold accumulate_cell. rewrite Hr.
  destruct (find_name_spec run (res_name a) n 0 ltac:(lia))
    as [(i & b & H1 & H2 & H3 & H4 & _)|[H1 _]]; rewrite H1; cbn.
  - rewrite H2. eexists. split; [reflexivity|]. split; [reflexivity|].
    intros Hl. exfalso. apply (Hl i b); [lia | exact H2 | exact H3].
  - eexists. split; [reflexivity|]. split; reflexivity.
Qed.

Lemma accumulate_run_total runs r n run :
  runs !! r = Some run -> (n <= length run)%nat ->
  forall avg, exists avg', accumulate_run runs r n avg = Ok avg' /\
    Forall2 (fun a a' => res_name a' = res_name a /\
                         (lacks run n (res_name a) -> a' = a)) avg avg'.
Proof.
  intros Hr Hn. induction avg as [|a avg IH].
  - exists []. split; [reflexivity | constructor].
  - destruct (accumulate_cell_total runs r n run a Hr Hn) as (a' & Ha & Ha').
    destruct IH as (avg' & Hav & Hav').
    exists (a' :: avg'). cbn [accumulate_run]. rewrite Ha. cbn. rewrite Hav.
    split; [reflexivity | constructor; assumption].
Qed.

Lemma accumulate_runs_total runs n : forall todo r avg,
  (r + todo <= length runs)%nat ->
  Forall (fun run => (n <= length run)%nat) runs ->
  exists avg', accumulate_runs runs n r todo avg = Ok avg' /\
    Forall2 (fun a a' => res_name a' = res_name a /\
       ((forall k run, (r <= k)%nat -> runs !! k = Some run ->
           lacks run n (res_name a)) -> a' = a)) avg avg'.
Proof.
  induction todo as [|todo IH]; intros r avg Hlen Hall.
  - exists avg. split; [reflexivity|]. apply Forall_Forall2_diag.
    apply Forall_forall. intros a _. split; reflexivity.
  - destruct (runs !! r) as [run|] eqn:Hr.
    2:{ apply lookup_ge_None in Hr. lia. }
    assert (Hn : (n <= length run)%nat).
    { rewrite Forall_lookup in Hall. exact (Hall r run Hr). }
    destruct (accumulate_run_total runs r n run Hr Hn avg) as (avg1 & H1 & H1').
    destruct (IH (S r) avg1 ltac:(lia) Hall) as (avg' & H2 & H2').
    exists avg'. cbn [accumulate_runs]. rewrite H1. cbn. rewrite H2.
    split; [reflexivity|].
    eapply Forall2_trans; [|exact H1'|exact H2'].
    cbn. intros a b c [N1 K1] [N2 K2]. split; [congruence|].
    intros Hl. assert (b = a) as ->.
    { apply K1. apply (Hl r run); [lia | exact Hr]. }
    apply K2. intros k run' Hk. apply Hl. lia.
Qed.

Lemma accumulate_init_total runs n run0 :
  runs !! 0%nat = Some run0 -> (n <= length run0)%nat ->
  accumulate_init runs n = Ok (take n run0).
Proof.
  intros H0 Hn. unfold accumulate_init. destruct n as [|n]; [reflexivity|].
  rewrite H0. apply Nat.leb_le in Hn. rewrite Hn. reflexivity.
Qed.

Lemma accumulate_total runs n run0 :
  runs !! 0%nat = Some run0 ->
  Forall (fun run => (n <= length run)%nat) runs ->
  exists avg, accumulate_results runs (length runs) n = Ok avg /\
    Forall2 (fun a a' => res_name a' = res_name a /\
       ((forall k run, (1 <= k)%nat -> runs !! k = Some run ->
           lacks run n (res_name a)) -> a' = divide_result (length runs) a))
      (take n run0) avg.
Proof.
  intros H0 Hall.
  assert (Hn : (n <= length run0)%nat).
  { rewrite Forall_lookup in Hall. exact (Hall 0%nat run0 H0). }
  assert (Hlen : (0 < length runs)%nat) by (apply lookup_lt_Some in H0; exact H0).
  destruct (accumulate_runs_total runs n (length runs - 1) 1 (take n run0)
              ltac:(lia) Hall) as (avg & Ha & Ha').
  exists (map (divide_result (length runs)) avg). unfold accumulate_results.
  rewrite firstn_all, (accumulate_init_total runs n run0 H0 Hn). cbn.
  rewrite Ha. cbn.
  split; [reflexivity|]. apply Forall2_fmap_r.
  eapply Forall2_impl; [exact Ha'|]. cbn. intros a a' [N K].
  split; [exact N|]. intros Hl. rewrite (K Hl). reflexivity.
Qed.

(** X9: given a first run and runs of at least [proc_count] records, the
    table has [proc_count] rows, named as the first records of the first
    run, in their order. *)
Theorem accumulate_results_rows (runs : list (list Result)) (n : nat)
    (run0 : list Result) :
  runs !! 0%nat = Some run0 ->
  Forall (fun run => (n <= length run)%nat) runs ->
  exists avg, accumulate_results runs (length runs) n = Ok avg /\
    length avg = n /\
    map res_name avg = map res_name (take n run0).
Proof.
  intros H0 Hall.
  destruct (accumulate_total runs n run0 H0 Hall) as (avg & Ha & Hrows).
  exists avg. split; [exact Ha|]. split.
  - rewrite <- (Forall2_length _ _ _ Hrows), length_take.
    rewrite Forall_lookup in Hall. pose proof (Hall 0%nat run0 H0). lia.
  - clear Ha. induction Hrows as [|a a' l l' [N _] _ IH]; [reflexivity|].
    cbn [map]. rewrite N, IH. reflexivity.
Qed.

(** X10: a record whose name no later run has is divided by the number of
    runs all the same. *)
Theorem accumulate_results_missing_name (runs : list (list Result)) (n : nat)
    (run0 : list Result) (i : nat) (a : Result) :
  runs !! 0%nat = Some run0 ->
  Forall (fun run => (n <= length run)%nat) runs ->
  (i < n)%nat ->
  run0 !! i = Some a ->
  (forall k run, (1 <= k)%nat -> runs !! k = Some run -> lacks run n (res_name a)) ->
  exists avg, accumulate_results runs (length runs) n = Ok avg /\
    avg !! i = Some (divide_result (length runs) a).
Proof.
  intros H0 Hall Hi Ha Hl.
  destruct (accumulate_total runs n run0 H0 Hall) as (avg & Hacc & Hrows).
  exists avg. split; [exact Hacc|].
  assert (Hti : take n run0 !! i = Some a).
  { rewrite lookup_take_lt by exact Hi. exact Ha. }
  destruct (Forall2_lookup_l _ _ _ _ _ Hrows Hti) as (a' & Ha' & _ & K).
  rewrite Ha', (K Hl). reflexivity.
Qed.

(** ** What a run reads of the scenario *)

Lemma clone_processes_same defs defs' :
  Forall2 same_definition defs defs' ->
  clone_processes defs' = clone_processes defs /\ length defs' = length defs.
Proof.
  induction 1 as [|d d' defs defs' (N & T & E) _ [IH1 IH2]]; [split; reflexivity|].
  split; [|cbn; rewrite IH2; reflexivity].
  change (clone_process d' :: clone_processes defs'
          = clone_process d :: clone_processes defs).
  rewrite IH1. unfold clone_process. rewrite N, T, E. reflexivity.
Qed.

(** X11: a run reads the name, the demand and the events of the processes
    it is given and nothing else: the runtime fields, which the scenario
    tables leave unwritten, have no part in the result. *)
Theorem runs_ignore_runtime_fields (qsort : sorter) (defs defs' : list Process)
    (fuel : nat) :
  Forall2 same_definition defs defs' ->
  run_fifo fuel defs' = run_fifo fuel defs /\
  run_sjf qsort fuel defs' = run_sjf qsort fuel defs /\
  run_rr fuel defs' = run_rr fuel defs /\
  run_mlfq fuel defs' = run_mlfq fuel defs.
Proof.
  intros H. destruct (clone_processes_same _ _ H) as [Hc Hl].
  unfold run_fifo, run_sjf, run_rr, run_mlfq, rr_init, mlfq_init.
  rewrite Hc, Hl. repeat split.
Qed.

(** ** The queues *)

Lemma sched_inv_count defs procs waiting res t :
  sched_inv defs procs waiting res t ->
  NoDup waiting /\
  Forall (fun i => (i < length defs)%nat) waiting /\
  (length res + length waiting = length defs)%nat.
Proof.
  intros Hinv. pose proof (sched_inv_NoDup _ _ _ _ _ Hinv) as Hnd.
  destruct Hinv as (_ & Hdefs & _ & fin & Hperm & Hres & _).
  pose proof (Forall2_length _ _ _ Hdefs) as Hlen.
  split; [exact Hnd|]. split.
  - apply Forall_forall. intros i Hi.
    assert (Hin : i ∈ seq 0 (length procs)).
    { rewrite <- Hperm. apply elem_of_app. auto. }
    apply elem_of_seq in Hin. lia.
  - apply Permutation_length in Hperm.
    rewrite length_app, length_seq in Hperm.
    rewrite Hres, length_map. lia.
Qed.

(** X12: in every state of the Round-Robin and MLFQ loops no process is
    queued twice, every queued cell is a cell of the array, and the
    processes queued and the results written add up to the processes of
    the scenario. *)
Theorem queues_hold_each_process_once (defs : list Process) :
  valid_scenario defs ->
  (forall s, rr_reach defs s ->
     NoDup (rr_waiting s) /\
     Forall (fun i => (i < length defs)%nat) (rr_waiting s) /\
     (length (rr_res s) + length (rr_waiting s) = length defs)%nat) /\
  (forall s, mlfq_reach defs s ->
     NoDup (mlfq_waiting s) /\
     Forall (fun i => (i < length defs)%nat) (mlfq_waiting s) /\
     (length (mq_res s) + length (mlfq_waiting s) = length defs)%nat).
Proof.
  intros Hv. split; intros s Hs.
  - exact (sched_inv_count _ _ _ _ _ (rr_reach_inv defs s Hv Hs)).
  - exact (sched_inv_count _ _ _ _ _ (proj2 (mlfq_reach_inv defs s Hv Hs))).
Qed.

(** ** The comparison of SJF *)

(** X13: [cmp_total_cpu] is a comparison as [qsort] needs one: swapping the
    arguments changes the sign, the order it gives is transitive, and it
    answers 0 exactly on equal demands. *)
Theorem cmp_total_cpu_order (a b c : Process) :
  cmp_total_cpu b a = (- cmp_total_cpu a b)%Z /\
  ((cmp_total_cpu a b <= 0)%Z -> (cmp_total_cpu b c <= 0)%Z ->
   (cmp_total_cpu a c <= 0)%Z) /\
  (cmp_total_cpu a b = 0%Z <-> total_cpu_needed a == total_cpu_needed b).
Proof.
  split; [|split].
  - unfold cmp_total_cpu.
    destruct (Qltb (total_cpu_needed a) (total_cpu_needed b)) eqn:E1;
      destruct (Qltb (total_cpu_needed b) (total_cpu_needed a)) eqn:E2;
      q_bool; try reflexivity. lra.
  - rewrite !cmp_total_cpu_le. intros. lra.
  - unfold cmp_total_cpu.
    destruct (Qltb (total_cpu_needed a) (total_cpu_needed b)) eqn:E1;
      [|destruct (Qltb (total_cpu_needed b) (total_cpu_needed a)) eqn:E2];
      q_bool; split; intros H; try discriminate; try reflexivity; lra.
Qed.

(** ** First turns under Round-Robin and MLFQ *)

Lemma eat_cpu_first_run p x dt :
  eat_cpu (set_first_run_time p x) dt
  = let '(p', taken, io_dur) := eat_cpu p dt in
    (set_first_run_time p' x, taken, io_dur).
Proof.
  unfold eat_cpu. cbn [io_events next_io_index cpu_consumed remaining
    blocked_time set_first_run_time set_cpu set_io].
  destruct (io_events p !! next_io_index p) as [ev|]; [|reflexivity].
  destruct (Qle_bool (when_cpu ev - cpu_consumed p) EPS); [reflexivity|].
  cbn [io_events next_io_index cpu_consumed remaining blocked_time].
  match goal with
  | |- context [if ?b then (set_io _ _ _, _, _) else _] => destruct b
  end; reflexivity.
Qed.

Lemma advance_shift t taken io_dur :
  advance t taken io_dur == t + advance 0 taken io_dur.
Proof. unfold advance. destruct (Qle_bool 0 io_dur); lra. Qed.

Lemma quantum_turn_clone d t p' taken t' :
  quantum_turn (clone_process d) t = (p', taken, t') ->
  t' == t + first_turn d /\ first_run_time p' = t.
Proof.
  unfold first_turn, quantum_turn.
  change (mark_first_run (clone_process d) t)
    with (set_first_run_time (clone_process d) t).
  change (mark_first_run (clone_process d) 0)
    with (set_first_run_time (clone_process d) 0).
  rewrite !eat_cpu_first_run.
  destruct (eat_cpu (clone_process d) QUANTUM) as [[p1 tk] io] eqn:He.
  intros H. injection H as <- <- <-. cbn [snd]. split; [|reflexivity].
  apply advance_shift.
Qed.

Lemma first_turn_nonneg d : 0 <= total_cpu_needed d -> 0 <= first_turn d.
Proof.
  intros Hd. unfold first_turn.
  destruct (quantum_turn (clone_process d) 0) as [[p' taken] t'] eqn:H.
  cbn [snd].
  destruct (quantum_turn_spec _ _ _ _ _ (clone_process_inv d Hd) (Qle_refl 0)
              ltac:(cbn; lra) H) as (_ & _ & _ & _ & Ht & _).
  exact Ht.
Qed.

Lemma start_of_nonneg defs i :
  Forall (fun d => 0 <= total_cpu_needed d) defs -> 0 <= start_of defs i.
Proof.
  intros H. unfold start_of.
  assert (Hall : Forall (fun d => 0 <= total_cpu_needed d) (take i defs))
    by (apply Forall_take; exact H).
  induction Hall as [|d l Hd _ IH]; cbn [map]; [cbn; lra|].
  rewrite Qsum_cons. pose proof (first_turn_nonneg d Hd). lra.
Qed.

Lemma start_of_S defs k d :
  defs !! k = Some d -> start_of defs (S k) == start_of defs k + first_turn d.
Proof.
  intros H. unfold start_of. rewrite (take_S_r _ _ _ H), map_app, Qsum_app.
  cbn [map]. rewrite Qsum_cons. change (Qsum []) with 0. lra.
Qed.

Lemma first_pass_init defs : first_pass defs (clone_processes defs) 0 0.
Proof.
  split; [lia|]. split; [intros _; reflexivity|].
  intros i p Hp. split; [lia|]. intros _.
  unfold clone_processes in Hp. rewrite list_lookup_fmap in Hp.
  destruct (defs !! i) as [d|]; [|discriminate].
  injection Hp as <-. eauto.
Qed.

(** The turn of the cell [k], the first that has had none. *)
Lemma first_pass_fresh defs procs k t p p' taken t' x :
  Forall (fun d => 0 <= total_cpu_needed d) defs ->
  first_pass defs procs k t ->
  (k < length defs)%nat ->
  procs !! k = Some p ->
  quantum_turn p t = (p', taken, t') ->
  first_run_time x = first_run_time p' ->
  first_pass defs (<[k:=x]> procs) (S k) t'.
Proof.
  intros Hnn (Hk & Ht & Hcells) Hlt Hp Hturn Hx.
  destruct (proj2 (Hcells k p Hp) (Nat.le_refl k)) as (d & Hd & ->).
  destruct (quantum_turn_clone d t p' taken t' Hturn) as [Ht' Hfr].
  pose proof (Ht Hlt) as Htk. pose proof (start_of_nonneg defs k Hnn) as H0.
  pose proof (start_of_S defs k d Hd) as HS.
  split; [lia|]. split; [intros _; lra|].
  intros i q Hq. destruct (Nat.eq_dec i k) as [->|Hne].
  - rewrite list_lookup_insert_eq in Hq by (eapply lookup_lt_Some; eauto).
    injection Hq as <-. split; [|lia]. intros _. rewrite Hx, Hfr. split; lra.
  - rewrite list_lookup_insert_ne in Hq by auto.
    destruct (Hcells i q Hq) as [C1 C2]. split; intros Hi.
    + apply C1. lia.
    + apply C2. lia.
Qed.

(** A turn once every cell has had one. *)
Lemma first_pass_started defs procs t i p p' taken t' x t'' :
  first_pass defs procs (length defs) t ->
  procs !! i = Some p ->
  quantum_turn p t = (p', taken, t') ->
  first_run_time x = first_run_time p' ->
  first_pass defs (<[i:=x]> procs) (length defs) t''.
Proof.
  intros (Hk & Ht & Hcells) Hp Hturn Hx.
  assert (Hi : (i < length defs)%nat).
  { destruct (Nat.lt_ge_cases i (length defs)) as [?|Hge]; [assumption|].
    destruct (proj2 (Hcells i p Hp) Hge) as (d & Hd & _).
    apply lookup_lt_Some in Hd. lia. }
  destruct (proj1 (Hcells i p Hp) Hi) as [F1 F2].
  assert (Hfr : first_run_time p' = first_run_time p).
  { unfold quantum_turn, mark_first_run in Hturn.
    assert (E : Qltb (first_run_time p) 0 = false) by (apply Qltb_ge; exact F2).
    rewrite E in Hturn.
    destruct (eat_cpu p QUANTUM) as [[p1 tk] io] eqn:He.
    injection Hturn as <- _ _.
    exact (proj1 (proj2 (proj2 (proj2 (eat_cpu_frame _ _ _ _ _ He))))). }
  split; [lia|]. split; [lia|].
  intros j q Hq. destruct (Nat.eq_dec j i) as [->|Hne].
  - rewrite list_lookup_insert_eq in Hq by (eapply lookup_lt_Some; eauto).
    injection Hq as <-. split; [|lia]. intros _. rewrite Hx, Hfr. auto.
  - rewrite list_lookup_insert_ne in Hq by auto. exact (Hcells j q Hq).
Qed.

Lemma first_pass_started_in_order defs procs k t :
  first_pass defs procs k t -> started_in_order defs procs.
Proof.
  intros (_ & _ & Hcells) i p Hp H0.
  destruct (Nat.lt_ge_cases i k) as [Hlt|Hge].
  - exact (proj1 (proj1 (Hcells i p Hp) Hlt)).
  - destruct (proj2 (Hcells i p Hp) Hge) as (d & _ & ->).
    exfalso. cbn in H0. lra.
Qed.

Lemma rr_body_first_pass defs s s' :
  Forall (fun d => 0 <= total_cpu_needed d) defs ->
  rr_first_pass defs s -> rr_body s = Ok s' -> rr_first_pass defs s'.
Proof.
  intros Hnn (k & rest & Hfp & Hw) Hb.
  destruct (rr_queue s !! rr_qstart s) as [i|] eqn:Hq;
    [|unfold rr_body in Hb; rewrite Hq in Hb; discriminate].
  destruct (rr_procs s !! i) as [p|] eqn:Hp;
    [|unfold rr_body in Hb; rewrite Hq, Hp in Hb; discriminate].
  pose proof (rr_waiting_head s i Hq) as Hh.
  destruct (quantum_turn p (rr_t s)) as [[p' taken] t'] eqn:Hturn.
  rewrite (rr_body_turn s i p p' taken t' Hq Hp Hturn) in Hb.
  assert (Hdrop : drop (S (rr_qstart s)) (rr_queue s ++ [i])
                  = drop (S (rr_qstart s)) (rr_queue s) ++ [i]).
  { apply drop_app_le. apply lookup_lt_Some in Hq. lia. }
  destruct (Nat.lt_ge_cases k (length defs)) as [Hlt|Hge].
  - (* the cell [k] has its first turn *)
    replace (length defs - k)%nat with (S (length defs - S k)) in Hw by lia.
    cbn [seq app] in Hw. rewrite Hh in Hw. injection Hw as -> Hw.
    destruct (is_done p') eqn:Hdone.
    + injection Hb as <-. exists (S k), rest. unfold rr_waiting. cbn. split.
      * eapply first_pass_fresh; eauto.
      * exact Hw.
    + destruct (rr_qend s <? rr_cap s)%nat; [|discriminate].
      injection Hb as <-. exists (S k), (rest ++ [k]). unfold rr_waiting. cbn.
      split.
      * eapply first_pass_fresh; eauto.
      * rewrite Hdrop, Hw, app_assoc. reflexivity.
  - (* every cell has had one *)
    assert (Hk : k = length defs) by (destruct Hfp; lia). subst k.
    destruct (is_done p') eqn:Hdone.
    + injection Hb as <-. exists (length defs), (drop (S (rr_qstart s)) (rr_queue s)).
      unfold rr_waiting. cbn. split.
      * eapply first_pass_started; eauto.
      * rewrite Nat.sub_diag. reflexivity.
    + destruct (rr_qend s <? rr_cap s)%nat; [|discriminate].
      injection Hb as <-.
      exists (length defs), (drop (S (rr_qstart s)) (rr_queue s ++ [i])).
      unfold rr_waiting. cbn. split.
      * eapply first_pass_started; eauto.
      * rewrite Nat.sub_diag. reflexivity.
Qed.

Lemma rr_reach_first_pass defs s :
  Forall (fun d => 0 <= total_cpu_needed d) defs ->
  rr_reach defs s -> rr_first_pass defs s.
Proof.
  intros Hnn. induction 1 as [|s s' _ IH Hb].
  - exists 0%nat, []. split; [apply first_pass_init|].
    unfold rr_init, rr_waiting. cbn. rewrite drop_0, Nat.sub_0_r, app_nil_r.
    reflexivity.
  - exact (rr_body_first_pass defs s s' Hnn IH Hb).
Qed.

Lemma first_nonempty_head qs i q :
  qs !! 0%nat = Some (i :: q) -> first_nonempty qs 0 = Some 0%nat.
Proof. destruct qs as [|q0 qs]; intros H; [discriminate|]. injection H as ->. reflexivity. Qed.

Lemma mlfq_step_first_pass defs s s' :
  Forall (fun d => 0 <= total_cpu_needed d) defs ->
  mlfq_first_pass defs s -> mlfq_step s s' -> mlfq_first_pass defs s'.
Proof.
  intros Hnn (k & rest & Hfp & Hw) (qidx & Hfirst & Hb).
  destruct (mq_queues s !! qidx) as [[|i q]|] eqn:Hq;
    try (unfold mlfq_body in Hb; rewrite Hq in Hb; discriminate).
  destruct (mq_procs s !! i) as [p|] eqn:Hp;
    [|unfold mlfq_body in Hb; rewrite Hq, Hp in Hb; discriminate].
  destruct (quantum_turn p (mq_t s)) as [[p' taken] t'] eqn:Hturn.
  rewrite (mlfq_body_turn qidx s i q p p' taken t' Hq Hp Hturn) in Hb.
  destruct (Nat.lt_ge_cases k (length defs)) as [Hlt|Hge].
  - (* the cell [k] is at the head of level 0 *)
    replace (length defs - k)%nat with (S (length defs - S k)) in Hw by lia.
    cbn [seq app] in Hw.
    rewrite (first_nonempty_head _ _ _ Hw) in Hfirst. injection Hfirst as <-.
    rewrite Hw in Hq. injection Hq as <- <-.
    assert (H0 : <[0%nat:=seq (S k) (length defs - S k) ++ rest]> (mq_queues s) !! 0%nat
                 = Some (seq (S k) (length defs - S k) ++ rest)).
    { apply list_lookup_insert_eq. eapply lookup_lt_Some; eauto. }
    destruct (is_done p') eqn:Hdone; injection Hb as <-.
    + exists (S k), rest. cbn. split; [eapply first_pass_fresh; eauto | exact H0].
    + destruct (Nat.eq_dec (next_level 0 taken) 0%nat) as [E|E].
      * exists (S k), (rest ++ [k]). cbn. split; [eapply first_pass_fresh; eauto|].
        rewrite E, list_lookup_alter_eq, H0. cbn. rewrite app_assoc. reflexivity.
      * exists (S k), rest. cbn. split; [eapply first_pass_fresh; eauto|].
        rewrite list_lookup_alter_ne by auto. exact H0.
  - assert (Hk : k = length defs) by (destruct Hfp; lia). subst k.
    assert (Hlen : (0 < length (mq_queues s))%nat) by (eapply lookup_lt_Some; eauto).
    destruct (is_done p') eqn:Hdone; injection Hb as <-.
    + destruct (lookup_lt_is_Some_2 (<[qidx:=q]> (mq_queues s)) 0%nat) as [q0 Hq0].
      { rewrite length_insert. exact Hlen. }
      exists (length defs), q0. cbn. split; [eapply first_pass_started; eauto|].
      rewrite Nat.sub_diag. exact Hq0.
    + destruct (lookup_lt_is_Some_2
                  (alter (fun q => q ++ [i]) (next_level qidx taken)
                     (<[qidx:=q]> (mq_queues s))) 0%nat) as [q0 Hq0].
      { rewrite length_alter, length_insert. exact Hlen. }
      exists (length defs), q0. cbn. split; [eapply first_pass_started; eauto|].
      rewrite Nat.sub_diag. exact Hq0.
Qed.

Lemma mlfq_reach_first_pass defs s :
  Forall (fun d => 0 <= total_cpu_needed d) defs ->
  mlfq_reach defs s -> mlfq_first_pass defs s.
Proof.
  intros Hnn. induction 1 as [|s s' _ IH Hstep].
  - exists 0%nat, []. split; [apply first_pass_init|].
    unfold mlfq_init. cbn. rewrite Nat.sub_0_r, app_nil_r. reflexivity.
  - exact (mlfq_step_first_pass defs s s' Hnn IH Hstep).
Qed.

Lemma rr_while_reach defs fuel : forall s s',
  rr_reach defs s -> rr_while fuel s = Ok s' -> rr_reach defs s'.
Proof.
  induction fuel as [|fuel IH]; intros s s' Hr H; rewrite rr_while_eq in H;
    destruct (rr_qstart s <? rr_qend s)%nat; try discriminate;
    try (injection H as <-; exact Hr).
  destruct (rr_body s) as [s1| |] eqn:Hb; try discriminate.
  cbn in H. apply (IH s1); [|exact H]. eapply rr_reach_turn; eauto.
Qed.

Lemma mlfq_while_reach defs fuel : forall s s',
  mlfq_reach defs s -> mlfq_while fuel s = Ok s' -> mlfq_reach defs s'.
Proof.
  induction fuel as [|fuel IH]; intros s s' Hr H; rewrite mlfq_while_eq in H;
    destruct (first_nonempty (mq_queues s) 0) as [qidx|] eqn:E;
    try discriminate; try (injection H as <-; exact Hr).
  destruct (mlfq_body qidx s) as [s1| |] eqn:Hb; try discriminate.
  cbn in H. apply (IH s1); [|exact H].
  eapply mlfq_reach_turn; [exact Hr|]. exists qidx. auto.
Qed.

Lemma reach_started_in_order defs :
  valid_scenario defs ->
  (forall s, rr_reach defs s -> started_in_order defs (rr_procs s)) /\
  (forall s, mlfq_reach defs s -> started_in_order defs (mq_procs s)).
Proof.
  intros Hv. pose proof (valid_scenario_nonneg _ Hv) as Hnn.
  split; intros s Hs.
  - destruct (rr_reach_first_pass defs s Hnn Hs) as (k & rest & Hfp & _).
    exact (first_pass_started_in_order _ _ _ _ Hfp).
  - destruct (mlfq_reach_first_pass defs s Hnn Hs) as (k & rest & Hfp & _).
    exact (first_pass_started_in_order _ _ _ _ Hfp).
Qed.

Lemma started_in_near_order defs procs :
  started_in_order defs procs -> started_near_order defs procs.
Proof.
  intros H i p Hp H0. apply up_to_rounding_eq. exact (H i p Hp H0).
Qed.

(** The states a few turns of Round-Robin lead to are states of the loop. *)
Lemma rr_reach_bind defs s0 (k : rr_state -> outcome rr_state) s :
  rr_reach defs s0 ->
  (forall s1, rr_reach defs s1 -> k s1 = Ok s -> rr_reach defs s) ->
  (s1 ← rr_body s0; k s1) = Ok s ->
  rr_reach defs s.
Proof.
  intros Hr Hk H. destruct (rr_body s0) as [s1| |] eqn:Hb; try discriminate.
  cbn in H. apply (Hk s1); [|exact H]. eapply rr_reach_turn; eauto.
Qed.



(** ** Examples *)


Lemma scenario3_thresholds :
  Forall (fun d => Forall (fun ev => 0 <= when_cpu ev) (io_events d)) make_scenario3.
Proof. repeat constructor; vm_compute; discriminate. Qed.

Lemma scenario3_durations : Forall nonneg_durations make_scenario3.
Proof. repeat constructor; vm_compute; discriminate. Qed.

Lemma scenario4_durations : Forall nonneg_durations make_scenario4.
Proof. repeat constructor; vm_compute; discriminate. Qed.

Lemma scenario2_durations : Forall nonneg_durations make_scenario2.
Proof. repeat constructor. Qed.



Lemma run_sjf_shortest_first_witness :
  exists procs res,
    run_sjf stable_qsort 1 make_scenario2 = Ok (procs, res) /\
    res = map emit procs /\
    forall p q, p ∈ procs -> q ∈ procs ->
      total_cpu_needed p < total_cpu_needed q ->
      Elapsed (emit p) <= FirstRun (emit q).
Proof.
  eexists _, _. split; [vm_compute; reflexivity|].
  apply (run_sjf_shortest_first stable_qsort make_scenario2 1 _ _
           stable_qsort_contract make_scenario2_valid scenario2_durations).
  vm_compute. reflexivity.
Defined.


Lemma light_scenario_valid : valid_scenario light_scenario.
Proof. unfold light_scenario. valid_by_computation. Qed.

Lemma run_rr_returns_with_room_witness :
  (queue_requeues light_scenario = 2)%nat /\
  exists procs res,
    run_rr 8 light_scenario = Ok (procs, res) /\
    run_post light_scenario procs res.
Proof.
  split; [vm_compute; reflexivity|].
  apply (run_rr_returns_with_room light_scenario 8 light_scenario_valid).
  - vm_compute. lia.
  - vm_compute. lia.
Defined.


Lemma accumulate_results_rows_witness :
  exists avg,
    accumulate_results [table_run1; table_run3] 2 2 = Ok avg /\
    length avg = 2%nat /\
    map res_name avg = ["A"; "B"]%string.
Proof.
  apply (accumulate_results_rows [table_run1; table_run3] 2 table_run1).
  - reflexivity.
  - repeat constructor.
Defined.

Lemma accumulate_results_missing_name_witness :
  exists avg,
    accumulate_results [table_run1; table_run3] 2 2 = Ok avg /\
    avg !! 0%nat = Some (mkResult "A" (3 / 2) (2 / 2) (1 / 2) (0 / 2)).
Proof.
  apply (accumulate_results_missing_name [table_run1; table_run3] 2 table_run1
           0 (mkResult "A" 3 2 1 0)).
  - reflexivity.
  - repeat constructor.
  - lia.
  - reflexivity.
  - intros k run Hk Hrun j x Hj Hx.
    destruct k as [|[|k]]; [lia| |discriminate Hrun].
    injection Hrun as <-.
    destruct j as [|[|j]]; [| |lia]; injection Hx as <-; discriminate.
Defined.


Lemma runs_ignore_runtime_fields_witness :
  run_fifo 4 (clone_processes make_scenario3) = run_fifo 4 make_scenario3 /\
  run_sjf stable_qsort 4 (clone_processes make_scenario3)
    = run_sjf stable_qsort 4 make_scenario3 /\
  run_rr 4 (clone_processes make_scenario3) = run_rr 4 make_scenario3 /\
  run_mlfq 4 (clone_processes make_scenario3) = run_mlfq 4 make_scenario3.
Proof.
  apply (runs_ignore_runtime_fields stable_qsort make_scenario3
           (clone_processes make_scenario3) 4).
  apply clone_same_definition.
Defined.

Lemma queues_hold_each_process_once_witness :
  NoDup (rr_waiting (rr_init make_scenario1)) /\
  Forall (fun i => (i < length make_scenario1)%nat)
    (rr_waiting (rr_init make_scenario1)) /\
  (length (rr_res (rr_init make_scenario1))
   + length (rr_waiting (rr_init make_scenario1)) = length make_scenario1)%nat.
Proof.
  apply (proj1 (queues_hold_each_process_once make_scenario1 make_scenario1_valid)).
  apply rr_reach_init.
Defined.

Lemma cmp_total_cpu_order_witness :
  (cmp_total_cpu scenario3_first near_io_process <= 0)%Z.
Proof.
  refine (proj1 (proj2 (cmp_total_cpu_order scenario3_first scenario3_first
                          near_io_process)) _ _); vm_compute; discriminate.
Defined.



